(** * LifeSim: the per-tick update rule of the ecosystem simulation

    A shallow embedding of [initializeWorld] and [update] of the advanced
    [LifeSim] component (herbivores, carnivores and neutrals with
    metabolism, reproduction and population caps), and of the mount
    effect and [update] of the plain component of [src/LifeSim.tsx]
    (module [Plain]).

    Conventions of the model.
    - A JavaScript [number] is a real number ([R]); rounding and the IEEE
      special values are outside the model.  The quotient [a / b] is the
      total division of the reals: where the source divides by a distance
      that is 0 (see [seekFood]), JavaScript answers NaN and the model a
      real number, so what is proved of velocities and positions is proved
      of the runs that meet no such division.
    - [Math.random()] reads the next entry of an oracle stream
      ([mathRandom]); the position in the stream is part of the state, so
      the order and the number of draws follow the source.
    - [Date.now()] reads [dateNow]; it only ever feeds the [id] of a new
      food item, which the code never reads.
    - The refs [agentsRef], [foodRef], [historyRef] and [nextIdRef] are the
      fields of [World]; the React state values are the fields of
      [Params].  Of the drawing only the path of the population chart
      is modelled ([drawSeries]).
    - An agent [id] is a counter value ([nat]): the loop index of
      [initializeWorld] or [nextIdRef.current++].  The optional fields of
      the [Agent] interface are options; [metabolism] is a required field
      there, so the loop's fallback for an undefined [metabolism] has no
      input to run on. *)

From Stdlib Require Import Reals Lra Lia List Bool QArith.
From stdpp Require Import gmap.
Import ListNotations.

Local Close Scope Q_scope.
Local Open Scope R_scope.

(** ** Numbers *)

Definition Rltb (a b : R) : bool := if Rlt_dec a b then true else false.
Definition Rleb (a b : R) : bool := if Rle_dec a b then true else false.
Definition Rgtb (a b : R) : bool := Rltb b a.

Infix "<?" := Rltb (at level 70, no associativity) : R_scope.
Infix "<=?" := Rleb (at level 70, no associativity) : R_scope.
Infix ">?" := Rgtb (at level 70, no associativity) : R_scope.

(** [Math.hypot], [Math.floor], and the idiom [d || 1]. *)
Definition hypot (a b : R) : R := sqrt (a * a + b * b).
Definition floor (r : R) : R := IZR (Int_part r).
Definition orOne (d : R) : R := if Req_dec_T d 0 then 1 else d.

(** ** Entities *)

Inductive AgentType := carnivore | herbivore | neutral.

Definition AgentType_eqb (s t : AgentType) : bool :=
  match s, t with
  | carnivore, carnivore | herbivore, herbivore | neutral, neutral => true
  | _, _ => false
  end.

Module Agent.
Record t := mk {
  id : nat;
  x : R;
  y : R;
  dx : R;
  dy : R;
  energy : R;
  age : R;
  speed : R;
  vision : R;
  size : R;
  type : AgentType;
  reproCooldown : option R;
  metabolism : R;
  lastAteTicks : option R;
  seedCooldown : option R;
  stuckTicks : option R
}.
End Agent.

Module Food.
Record t := mk { id : R; x : R; y : R }.
End Food.

Definition WORLD_WIDTH : R := 800.
Definition WORLD_HEIGHT : R := 500.
Definition INITIAL_AGENTS : nat := 100.
Definition INITIAL_FOOD : nat := 60.
Definition MAX_HERBIVORES_DEFAULT : R := 220.
Definition MAX_CARNIVORES_DEFAULT : R := 80.

(** A sample of the population chart, [{ herb, carn, neutral }]. *)
Record Sample := { herb : nat; carn : nat; neutrals : nat }.

Record World := {
  agentsRef : list Agent.t;
  foodRef : list Food.t;
  historyRef : list Sample;
  nextIdRef : nat
}.

Record Params := {
  herbivoreSpeed : R;
  carnivoreSpeed : R;
  foodSpawnRate : R;
  timeScale : R;
  carnivoreMetabolismScale : R;
  carnivoreCatchRadius : R;
  carnivoreReproThreshold : R;
  maxCarnivores : R;
  herbivoreReproThreshold : R;
  maxHerbivores : R
}.

(** The values [useState] starts from. *)
Definition defaultParams : Params :=
  {| herbivoreSpeed := 1; carnivoreSpeed := 1; foodSpawnRate := 0.02;
     timeScale := 0.7; carnivoreMetabolismScale := 1;
     carnivoreCatchRadius := 8; carnivoreReproThreshold := 180;
     maxCarnivores := MAX_CARNIVORES_DEFAULT;
     herbivoreReproThreshold := 150;
     maxHerbivores := MAX_HERBIVORES_DEFAULT |}.

Record Env := { mathRandom : nat -> R; dateNow : R }.

Definition isType (t : AgentType) (a : Agent.t) : bool :=
  AgentType_eqb (Agent.type a) t.

Definition countType (t : AgentType) (l : list Agent.t) : nat :=
  length (List.filter (isType t) l).

(** ** The state one pass of [update] works on *)

Record TickState := {
  rng : nat;
  food : list Food.t;
  updatedAgents : list Agent.t;
  eatenHerbivores : gset nat;
  spawnedHerbivores : nat;
  nextId : nat
}.

Definition M (A : Type) : Type := TickState -> A * TickState.

Definition ret {A} (a : A) : M A := fun s => (a, s).

Definition bind {A B} (m : M A) (k : A -> M B) : M B :=
  fun s => let (a, s') := m s in k a s'.

Notation "'let*' p ':=' m 'in' k" :=
  (bind m (fun p => k))
    (at level 10, p pattern, m at level 100, k at level 200).

Definition random (E : Env) : M R := fun s =>
  (mathRandom E (rng s),
   {| rng := S (rng s); food := food s; updatedAgents := updatedAgents s;
      eatenHerbivores := eatenHerbivores s;
      spawnedHerbivores := spawnedHerbivores s; nextId := nextId s |}).

Definition getFood : M (list Food.t) := fun s => (food s, s).

Definition setFood (fs : list Food.t) : M unit := fun s =>
  (tt,
   {| rng := rng s; food := fs; updatedAgents := updatedAgents s;
      eatenHerbivores := eatenHerbivores s;
      spawnedHerbivores := spawnedHerbivores s; nextId := nextId s |}).

Definition pushFood (f : Food.t) : M unit := fun s =>
  setFood (food s ++ [f]) s.

Definition pushAgent (a : Agent.t) : M unit := fun s =>
  (tt,
   {| rng := rng s; food := food s; updatedAgents := updatedAgents s ++ [a];
      eatenHerbivores := eatenHerbivores s;
      spawnedHerbivores := spawnedHerbivores s; nextId := nextId s |}).

Definition addEaten (i : nat) : M unit := fun s =>
  (tt,
   {| rng := rng s; food := food s; updatedAgents := updatedAgents s;
      eatenHerbivores := {[ i ]} ∪ eatenHerbivores s;
      spawnedHerbivores := spawnedHerbivores s; nextId := nextId s |}).

Definition hasEaten (i : nat) : M bool := fun s =>
  (bool_decide (i ∈ eatenHerbivores s), s).

Definition getSpawnedHerbivores : M nat := fun s => (spawnedHerbivores s, s).

Definition incrSpawnedHerbivores : M unit := fun s =>
  (tt,
   {| rng := rng s; food := food s; updatedAgents := updatedAgents s;
      eatenHerbivores := eatenHerbivores s;
      spawnedHerbivores := S (spawnedHerbivores s); nextId := nextId s |}).

(** [nextIdRef.current++] *)
Definition freshId : M nat := fun s =>
  (nextId s,
   {| rng := rng s; food := food s; updatedAgents := updatedAgents s;
      eatenHerbivores := eatenHerbivores s;
      spawnedHerbivores := spawnedHerbivores s; nextId := S (nextId s) |}).

(** ** Perception *)

(** [arr.reduce((closest, p) => d(p) < d(closest) ? p : closest)], with the
    first element as the start value; [None] stands for the empty array,
    which every call site excludes by a length test. *)
Definition nearest {A} (px py : A -> R) (x y : R) (l : list A) : option A :=
  match l with
  | [] => None
  | p0 :: rest =>
      Some (fold_left
              (fun closest p =>
                 if hypot (px p - x) (py p - y)
                      <? hypot (px closest - x) (py closest - y)
                 then p else closest)
              rest p0)
  end.

Definition nearestFood := nearest Food.x Food.y.
Definition nearestAgent := nearest Agent.x Agent.y.

(** Index of the first element a scan [for (let i = 0; ...)] stops at. *)
Fixpoint findIndex {A} (f : A -> bool) (l : list A) : option nat :=
  match l with
  | [] => None
  | a :: rest => if f a then Some 0%nat else option_map S (findIndex f rest)
  end.

(** ** One pass of the loop body *)

Section Update.
Variable E : Env.
Variable P : Params.
(** [agentsRef.current]: the array the loop iterates; it is only
    replaced after the loop. *)
Variable agents : list Agent.t.
Variables currentHerbivores currentCarnivores : nat.

Definition adjustedSpeed (agent : Agent.t) : R :=
  match Agent.type agent with
  | herbivore => Agent.speed agent * herbivoreSpeed P
  | carnivore => Agent.speed agent * carnivoreSpeed P
  | neutral => Agent.speed agent * 0.8
  end.

(** Herbivore: accelerate toward the nearest food item in view.  The
    result carries the [pursuing] flag. *)
Definition seekFood (fs : list Food.t) (agent : Agent.t) (dx dy : R)
  : R * R * bool :=
  let x := Agent.x agent in
  let y := Agent.y agent in
  match nearestFood x y fs with
  | Some nf =>
      let dist := hypot (Food.x nf - x) (Food.y nf - y) in
      if dist <? Agent.vision agent
      then (dx + ((Food.x nf - x) / dist) * 0.45,
            dy + ((Food.y nf - y) / dist) * 0.45, true)
      else (dx, dy, false)
  | None => (dx, dy, false)
  end.

(** Herbivores flee from nearby carnivores. *)
Definition fleeHunters (agent : Agent.t) (dx dy : R) : R * R :=
  let x := Agent.x agent in
  let y := Agent.y agent in
  let hunters := List.filter (isType carnivore) agents in
  match nearestAgent x y hunters with
  | Some nearestHunter =>
      let pd := hypot (Agent.x nearestHunter - x) (Agent.y nearestHunter - y) in
      if pd <? Agent.vision agent * 0.9
      then (dx - ((Agent.x nearestHunter - x) / orOne pd) * 0.35,
            dy - ((Agent.y nearestHunter - y) / orOne pd) * 0.35)
      else (dx, dy)
  | None => (dx, dy)
  end.

(** [dx += (Math.random() - 0.5) * k; dy += (Math.random() - 0.5) * k] *)
Definition jitter (k dx dy : R) : M (R * R) :=
  let* r1 := random E in
  let* r2 := random E in
  ret (dx + (r1 - 0.5) * k, dy + (r2 - 0.5) * k).

(** Carnivore: soft repulsion from nearby food. *)
Definition avoidFood (fs : list Food.t) (agent : Agent.t) (dx dy : R)
  : R * R :=
  let x := Agent.x agent in
  let y := Agent.y agent in
  match nearestFood x y fs with
  | Some nf =>
      let fd := hypot (Food.x nf - x) (Food.y nf - y) in
      if fd <? 12
      then
        let fx := (Food.x nf - x) / orOne fd in
        let fy := (Food.y nf - y) / orOne fd in
        (dx - fx * 0.5, dy - fy * 0.5)
      else (dx, dy)
  | None => (dx, dy)
  end.

(** Carnivore: blend the velocity toward the nearest herbivore in view,
    wander otherwise. *)
Definition hunt (agent : Agent.t) (dx dy : R) : M (R * R * bool) :=
  let x := Agent.x agent in
  let y := Agent.y agent in
  let prey := List.filter (isType herbivore) agents in
  match nearestAgent x y prey with
  | Some nearest =>
      let dist := hypot (Agent.x nearest - x) (Agent.y nearest - y) in
      let* (dx, dy, pursuing) :=
        if dist <? Agent.vision agent
        then
          let ux := (Agent.x nearest - x) / orOne dist in
          let uy := (Agent.y nearest - y) / orOne dist in
          let dx := dx * 0.85 + ux * 0.7 in
          let dy := dy * 0.85 + uy * 0.7 in
          let sp := hypot dx dy in
          if sp <? 0.25
          then ret (dx + ux * 0.6, dy + uy * 0.6, true)
          else ret (dx, dy, true)
        else
          let* (dx, dy) := jitter 0.06 dx dy in
          ret (dx, dy, false) in
      let* fs := getFood in
      let '(dx, dy) := avoidFood fs agent dx dy in
      ret (dx, dy, pursuing)
  | None =>
      let* (dx, dy) := jitter 0.06 dx dy in
      ret (dx, dy, false)
  end.

(** Neutral: random walk, food seeding under [seedCooldown], slow
    self-gain.  The source writes [agent.seedCooldown] in place; only the
    agent's own spread copy reads it again, so the new value is returned. *)
Definition drift (agent : Agent.t) (dx dy energy : R)
  : M (R * R * R * option R) :=
  let* (dx, dy) := jitter 0.1 dx dy in
  let sc := default 0 (Agent.seedCooldown agent) in
  let* seeding :=
    if sc <=? 0
    then let* r := random E in ret (r <? 0.02)
    else ret false in
  let* seedCooldown :=
    if seeding
    then
      let* rid := random E in
      let* _ := pushFood {| Food.id := dateNow E + rid;
                            Food.x := Agent.x agent;
                            Food.y := Agent.y agent |} in
      let* rc := random E in
      ret (Some (250 + floor (rc * 200)))
    else
      match Agent.seedCooldown agent with
      | Some c => ret (if c >? 0 then Some (c - 1) else Some c)
      | None => ret None
      end in
  let* rg := random E in
  let energy := if rg <? 0.002 then energy + 5 else energy in
  ret (dx, dy, energy, seedCooldown).

(** Perception and steering of one agent: velocity, [pursuing], energy
    and [seedCooldown] as they stand before the movement. *)
Definition steer (agent : Agent.t) : M (R * R * bool * R * option R) :=
  let dx := Agent.dx agent in
  let dy := Agent.dy agent in
  let energy := Agent.energy agent in
  let* (dx, dy, pursuing, energy, seedCooldown) :=
    match Agent.type agent with
    | herbivore =>
        let* fs := getFood in
        let '(dx, dy, pursuing) := seekFood fs agent dx dy in
        let '(dx, dy) := fleeHunters agent dx dy in
        ret (dx, dy, pursuing, energy, Agent.seedCooldown agent)
    | carnivore =>
        let* (dx, dy, pursuing) := hunt agent dx dy in
        ret (dx, dy, pursuing, energy, Agent.seedCooldown agent)
    | neutral =>
        let* (dx, dy, energy, seedCooldown) := drift agent dx dy energy in
        ret (dx, dy, false, energy, seedCooldown)
    end in
  let baseWander :=
    match Agent.type agent with neutral => 0.12 | _ => 0.06 end in
  let searchBoost :=
    match Agent.type agent with
    | carnivore => if pursuing then 1.0 else 2.0
    | _ => 1.0
    end in
  let wanderStrength :=
    if pursuing then baseWander * 0.15 else baseWander * searchBoost in
  let* (dx, dy) := jitter wanderStrength dx dy in
  ret (dx, dy, pursuing, energy, seedCooldown).

(** *** Kinematics *)

Definition maxVelOf (t : AgentType) : R :=
  match t with carnivore => 3.2 | _ => 2.5 end.

(** Cap velocity to avoid runaway speeds. *)
Definition capVelocity (maxVel spd dx dy : R) : R * R :=
  if spd >? maxVel
  then ((dx / spd) * maxVel, (dy / spd) * maxVel)
  else (dx, dy).

(** [dx += Math.cos(angle) * k; dy += Math.sin(angle) * k] for a random
    [angle]. *)
Definition impulse (k dx dy : R) : M (R * R) :=
  let* r := random E in
  let angle := r * PI * 2 in
  ret (dx + cos angle * k, dy + sin angle * k).

(** Minimum speed kick if nearly stopped. *)
Definition minSpeedKick (spd dx dy : R) : M (R * R) :=
  if spd <? 0.08 then impulse 0.35 dx dy else ret (dx, dy).

(** Stuck detection: the counter, then the strong nudge. *)
Definition stuckNudge (spd stuckTicks dx dy : R) : M (R * R * R) :=
  let stuckTicks :=
    if spd <? 0.12 then stuckTicks + 1
    else if stuckTicks >? 0 then stuckTicks - 1
    else stuckTicks in
  if stuckTicks >? 60
  then
    let* (dx, dy) := impulse 1.0 dx dy in
    ret (dx, dy, 0)
  else ret (dx, dy, stuckTicks).

(** Reflection at the walls, then clamp inside bounds and nudge inward.
    One axis: position [x], velocity [dx], extent [w].  The source treats
    both reflections before both clamps; the two axes share no variable. *)
Definition bounceAxis (w x dx : R) : R * R :=
  let dx := if (x <? 0) || (x >? w) then - dx else dx in
  let '(x, dx) := if x <? 1 then (1, Rabs dx + 0.2) else (x, dx) in
  if x >? w - 1 then (w - 1, - Rabs dx - 0.2) else (x, dx).

(** Movement of one agent from the steered velocity: position, velocity
    and [stuckTicks] after the walls. *)
Definition move (agent : Agent.t) (dx dy : R) : M (R * R * R * R * R) :=
  let x := Agent.x agent + dx * adjustedSpeed agent * timeScale P in
  let y := Agent.y agent + dy * adjustedSpeed agent * timeScale P in
  let dx := dx * 0.97 in
  let dy := dy * 0.97 in
  let maxVel := maxVelOf (Agent.type agent) in
  let spd := hypot dx dy in
  let '(dx, dy) := capVelocity maxVel spd dx dy in
  let* (dx, dy) := minSpeedKick spd dx dy in
  let* (dx, dy, stuckTicks) :=
    stuckNudge spd (default 0 (Agent.stuckTicks agent)) dx dy in
  let '(x, dx) := bounceAxis WORLD_WIDTH x dx in
  let '(y, dy) := bounceAxis WORLD_HEIGHT y dy in
  ret (x, y, dx, dy, stuckTicks).

(** *** Consumption and reproduction *)

(** Herbivore: the first food item within the feed radius is eaten and
    spliced out of [foodRef.current]. *)
Definition grazes (x y : R) (f : Food.t) : bool :=
  hypot (Food.x f - x) (Food.y f - y) <? 8.

Definition graze (x y energy lastAteTicks : R) : M (R * R) :=
  let* fs := getFood in
  match findIndex (grazes x y) fs with
  | Some i =>
      let* _ := setFood (delete i fs) in
      ret (energy + 35, 0)
  | None => ret (energy, lastAteTicks)
  end.

Definition herbivoreChild (cid : nat)
    (x y dx dy childSpeed childVision rx ry rdx rdy rm : R) : Agent.t :=
  {| Agent.id := cid;
     Agent.x := x + (rx - 0.5) * 10;
     Agent.y := y + (ry - 0.5) * 10;
     Agent.dx := dx + (rdx - 0.5) * 0.5;
     Agent.dy := dy + (rdy - 0.5) * 0.5;
     Agent.energy := 35;
     Agent.age := 0;
     Agent.speed := childSpeed;
     Agent.vision := childVision;
     Agent.size := 5;
     Agent.type := herbivore;
     Agent.reproCooldown := Some 600;
     Agent.metabolism := Rmax 0.02 (0.07 + (rm - 0.5) * 0.03);
     Agent.lastAteTicks := None;
     Agent.seedCooldown := None;
     Agent.stuckTicks := None |}.

(** Herbivore reproduction: energetic, off cooldown and under the cap. *)
Definition herbivoreReproduce (agent : Agent.t)
    (x y dx dy energy reproCooldown : R) : M (R * R) :=
  let* spawned := getSpawnedHerbivores in
  if (energy >? herbivoreReproThreshold P)
     && (reproCooldown <=? 0)
     && (INR (currentHerbivores + spawned) <? maxHerbivores P)
  then
    let* rs := random E in
    let childSpeed := Rmax 0.4 (Rmin 2.0 (Agent.speed agent * (0.95 + rs * 0.1))) in
    let* rv := random E in
    let childVision := Rmax 30 (Rmin 70 (Agent.vision agent * (0.95 + rv * 0.1))) in
    let* cid := freshId in
    let* rx := random E in
    let* ry := random E in
    let* rdx := random E in
    let* rdy := random E in
    let* rm := random E in
    let* _ := pushAgent (herbivoreChild cid x y dx dy childSpeed
                           childVision rx ry rdx rdy rm) in
    let* _ := incrSpawnedHerbivores in
    ret (45, 600)
  else ret (energy, reproCooldown).

(** Carnivore: the first herbivore of [agentsRef.current] within the catch
    radius is marked eaten. *)
Definition catches (x y : R) (prey : Agent.t) : bool :=
  isType herbivore prey
  && (hypot (Agent.x prey - x) (Agent.y prey - y) <? carnivoreCatchRadius P).

Definition prey_on (x y energy lastAteTicks : R) : M (R * R) :=
  match find (catches x y) agents with
  | Some prey =>
      let* _ := addEaten (Agent.id prey) in
      ret (energy + 45, 0)
  | None => ret (energy, lastAteTicks)
  end.

Definition carnivoreChild (cid : nat)
    (x y dx dy childSpeed childVision rx ry rdx rdy rm : R) : Agent.t :=
  {| Agent.id := cid;
     Agent.x := x + (rx - 0.5) * 10;
     Agent.y := y + (ry - 0.5) * 10;
     Agent.dx := dx + (rdx - 0.5) * 0.5;
     Agent.dy := dy + (rdy - 0.5) * 0.5;
     Agent.energy := 70;
     Agent.age := 0;
     Agent.speed := childSpeed;
     Agent.vision := childVision;
     Agent.size := 5;
     Agent.type := carnivore;
     Agent.reproCooldown := Some 700;
     Agent.metabolism := Rmax 0.02 (0.14 + (rm - 0.5) * 0.03);
     Agent.lastAteTicks := Some 0;
     Agent.seedCooldown := None;
     Agent.stuckTicks := Some 0 |}.

(** Carnivore reproduction: split when energy is high and the cooldown has
    elapsed; the cap is tested against the count at the start of the
    pass. *)
Definition carnivoreReproduce (agent : Agent.t)
    (x y dx dy energy reproCooldown : R) : M (R * R) :=
  if (energy >? carnivoreReproThreshold P)
     && (reproCooldown <=? 0)
     && (INR currentCarnivores <? maxCarnivores P)
  then
    let* rs := random E in
    let childSpeed := Rmax 0.6 (Rmin 2.2 (Agent.speed agent * (0.95 + rs * 0.1))) in
    let* rv := random E in
    let childVision := Rmax 50 (Rmin 90 (Agent.vision agent * (0.95 + rv * 0.1))) in
    let* cid := freshId in
    let* rx := random E in
    let* ry := random E in
    let* rdx := random E in
    let* rdy := random E in
    let* rm := random E in
    let* _ := pushAgent (carnivoreChild cid x y dx dy childSpeed
                           childVision rx ry rdx rdy rm) in
    ret (90, 700)
  else ret (energy, reproCooldown).

(** *** Metabolism and survival *)

Definition sizeFromEnergy (energy : R) : R :=
  Rmax 3 (Rmin 10 (3 + energy * 0.03)).

Definition starvationFactor (t : AgentType) (lastAteTicks : R) : R :=
  match t with
  | carnivore =>
      (if Nat.eqb currentHerbivores 0 then 1.2 else 0)
      + (if lastAteTicks >? 900 then 1.0
         else if lastAteTicks >? 600 then 0.6
         else if lastAteTicks >? 300 then 0.3
         else 0)
  | _ => 0
  end.

Definition burn (agent : Agent.t) (energy lastAteTicks : R) : R :=
  energy
  - (match Agent.type agent with
     | carnivore => Agent.metabolism agent * carnivoreMetabolismScale P
     | _ => Agent.metabolism agent
     end)
    * (1 + starvationFactor (Agent.type agent) lastAteTicks)
    * timeScale P.

(** [{ ...agent, x, y, dx, dy, energy, age, size, reproCooldown,
      metabolism, lastAteTicks, stuckTicks }], the spread reading the
    [seedCooldown] the neutral branch left on [agent]. *)
Definition respread (agent : Agent.t) (seedCooldown : option R)
    (x y dx dy energy age size reproCooldown lastAteTicks stuckTicks : R)
    : Agent.t :=
  {| Agent.id := Agent.id agent;
     Agent.x := x;
     Agent.y := y;
     Agent.dx := dx;
     Agent.dy := dy;
     Agent.energy := energy;
     Agent.age := age;
     Agent.speed := Agent.speed agent;
     Agent.vision := Agent.vision agent;
     Agent.size := size;
     Agent.type := Agent.type agent;
     Agent.reproCooldown := Some reproCooldown;
     Agent.metabolism := Agent.metabolism agent;
     Agent.lastAteTicks := Some lastAteTicks;
     Agent.seedCooldown := seedCooldown;
     Agent.stuckTicks := Some stuckTicks |}.

(** The agent as it stands at the survival test. *)
Definition settle (agent : Agent.t) (seedCooldown : option R)
    (x y dx dy energy reproCooldown lastAteTicks stuckTicks : R) : Agent.t :=
  let size := sizeFromEnergy energy in
  let lastAteTicks := lastAteTicks + 1 in
  let energy := burn agent energy lastAteTicks in
  let age := Agent.age agent + 0.05 in
  let reproCooldown :=
    if reproCooldown >? 0 then reproCooldown - 1 else reproCooldown in
  respread agent seedCooldown x y dx dy energy age size reproCooldown
    lastAteTicks stuckTicks.

Definition alive (a : Agent.t) : bool :=
  (Agent.energy a >? 0) && (Agent.age a <? 800).

(** The survival test and the push onto [updatedAgents]. *)
Definition survive (a : Agent.t) : M unit :=
  if alive a
  then
    let* eaten := hasEaten (Agent.id a) in
    if isType herbivore a && eaten
    then ret tt
    else pushAgent a
  else ret tt.

(** The body of [for (const agent of agentsRef.current)] up to the
    survival test: the agent as it stands there. *)
Definition advance (agent : Agent.t) : M Agent.t :=
  let reproCooldown := default 0 (Agent.reproCooldown agent) in
  let lastAteTicks := default 0 (Agent.lastAteTicks agent) in
  let* (dx, dy, pursuing, energy, seedCooldown) := steer agent in
  let* (x, y, dx, dy, stuckTicks) := move agent dx dy in
  let* (energy, lastAteTicks, reproCooldown) :=
    match Agent.type agent with
    | herbivore =>
        let* (energy, lastAteTicks) := graze x y energy lastAteTicks in
        let* (energy, reproCooldown) :=
          herbivoreReproduce agent x y dx dy energy reproCooldown in
        ret (energy, lastAteTicks, reproCooldown)
    | carnivore =>
        let* (energy, lastAteTicks) := prey_on x y energy lastAteTicks in
        let* (energy, reproCooldown) :=
          carnivoreReproduce agent x y dx dy energy reproCooldown in
        ret (energy, lastAteTicks, reproCooldown)
    | neutral => ret (energy, lastAteTicks, reproCooldown)
    end in
  ret (settle agent seedCooldown x y dx dy energy reproCooldown
         lastAteTicks stuckTicks).

Definition processAgent (agent : Agent.t) : M unit :=
  let* a := advance agent in
  survive a.

Fixpoint forEach (l : list Agent.t) : M unit :=
  match l with
  | [] => ret tt
  | agent :: rest => let* _ := processAgent agent in forEach rest
  end.

End Update.

(** ** [update]: one tick *)

Definition scarcityBoost (herbCount : nat) : R :=
  if (herbCount <? 40)%nat then 3
  else if (herbCount <? 70)%nat then 1.8
  else 1.

(** Dynamic food spawn at the start of the tick. *)
Definition spawnFood (E : Env) (P : Params) (herbCount : nat) : M unit :=
  let* r := random E in
  if r <? foodSpawnRate P * scarcityBoost herbCount
  then
    let* rx := random E in
    let* ry := random E in
    pushFood {| Food.id := dateNow E;
                Food.x := rx * WORLD_WIDTH;
                Food.y := ry * WORLD_HEIGHT |}
  else ret tt.

Definition startOfPass (w : World) : TickState :=
  {| rng := 0; food := foodRef w; updatedAgents := [];
     eatenHerbivores := ∅; spawnedHerbivores := 0; nextId := nextIdRef w |}.

(** The loop over a part [l] of [agentsRef.current], in the setting of the
    tick of [w]. *)
Definition forEachOf (E : Env) (P : Params) (w : World) (l : list Agent.t)
  : M unit :=
  forEach E P (agentsRef w) (countType herbivore (agentsRef w))
    (countType carnivore (agentsRef w)) l.

(** The whole pass: food spawn, then the loop over [agentsRef.current]. *)
Definition pass (E : Env) (P : Params) (w : World) : M unit :=
  let* _ := spawnFood E P (countType herbivore (agentsRef w)) in
  forEachOf E P w (agentsRef w).

(** [hist.push({ herb, carn, neutral }); if (hist.length > 300) hist.shift()] *)
Definition recordHistory (hist : list Sample) (l : list Agent.t) : list Sample :=
  let hist := hist ++ [{| herb := countType herbivore l;
                          carn := countType carnivore l;
                          neutrals := countType neutral l |}] in
  if (300 <? length hist)%nat then tl hist else hist.

Definition update (E : Env) (P : Params) (w : World) : World :=
  let s := snd (pass E P w (startOfPass w)) in
  {| agentsRef := updatedAgents s;
     foodRef := food s;
     historyRef := recordHistory (historyRef w) (updatedAgents s);
     nextIdRef := nextId s |}.

(** ** The population chart *)

Inductive SeriesKey := herbKey | carnKey | neutralKey.

(** [s[key]] *)
Definition sampleAt (key : SeriesKey) (s : Sample) : nat :=
  match key with
  | herbKey => herb s
  | carnKey => carn s
  | neutralKey => neutrals s
  end.

(** [Math.max(10, ...hist.map((s) => s.herb + s.carn + s.neutral))] *)
Definition maxY (hist : list Sample) : R :=
  fold_left Rmax (map (fun s => INR (herb s + carn s + neutrals s)) hist) 10.

(** [w / Math.max(1, hist.length - 1)] *)
Definition stepX (w : R) (hist : list Sample) : R :=
  w / Rmax 1 (INR (length hist) - 1).

Inductive PathOp :=
| moveTo (x y : R)
| lineTo (x y : R).

Definition opX (op : PathOp) : R :=
  match op with moveTo x _ | lineTo x _ => x end.

Definition opY (op : PathOp) : R :=
  match op with moveTo _ y | lineTo _ y => y end.

(** The path [drawSeries] traces on a canvas of [w] by [h] for one key:
    the calls between [beginPath] and [stroke], in order. *)
Definition drawSeries (w h : R) (hist : list Sample) (key : SeriesKey)
  : list PathOp :=
  imap (fun i s =>
          let x := INR i * stepX w hist in
          let y := h - (INR (sampleAt key s) / maxY hist) * (h - 6) - 3 in
          if Nat.eqb i 0 then moveTo x y else lineTo x y)
       hist.

(** ** [initializeWorld] *)

(** The agent the [i]-th round of the loop pushes, drawing from position
    [k] of the stream on. *)
Definition initialAgent (E : Env) (i k : nat) : Agent.t :=
  let rnd j := mathRandom E (k + j) in
  let typeRand := rnd 0%nat in
  let type :=
    if typeRand <? 0.55 then herbivore
    else if typeRand <? 0.9 then neutral
    else carnivore in
  let baseEnergy :=
    match type with herbivore => 50 | carnivore => 55 | neutral => 40 end in
  let baseMetabolism :=
    match type with carnivore => 0.14 | herbivore => 0.07 | neutral => 0.055 end in
  let metabolism := Rmax 0.02 (baseMetabolism + (rnd 1%nat - 0.5) * 0.03) in
  {| Agent.id := i;
     Agent.x := rnd 2%nat * WORLD_WIDTH;
     Agent.y := rnd 3%nat * WORLD_HEIGHT;
     Agent.dx := (rnd 4%nat - 0.5) * 2;
     Agent.dy := (rnd 5%nat - 0.5) * 2;
     Agent.energy := baseEnergy;
     Agent.age := 0;
     Agent.speed := 0.5 + rnd 6%nat * 1.2;
     Agent.vision := 40 + rnd 7%nat * 20;
     Agent.size := 5;
     Agent.type := type;
     Agent.reproCooldown := Some (floor (rnd 8%nat * 300));
     Agent.metabolism := metabolism;
     Agent.lastAteTicks := Some (floor (rnd 9%nat * 200));
     Agent.seedCooldown :=
       match type with
       | neutral => Some (150 + floor (rnd 10%nat * 200))
       | _ => None
       end;
     Agent.stuckTicks := Some 0 |}.

(** Number of draws one round takes. *)
Definition initialDraws (a : Agent.t) : nat :=
  match Agent.type a with neutral => 11 | _ => 10 end.

(** Rounds [i, i + n) of the agent loop; the result carries the position
    of the stream after the last round. *)
Fixpoint initialAgents (E : Env) (n i k : nat) : list Agent.t * nat :=
  match n with
  | O => ([], k)
  | S n' =>
      let a := initialAgent E i k in
      let '(rest, k') := initialAgents E n' (S i) (k + initialDraws a) in
      (a :: rest, k')
  end.

Fixpoint initialFood (E : Env) (n i k : nat) : list Food.t :=
  match n with
  | O => []
  | S n' =>
      {| Food.id := INR i;
         Food.x := mathRandom E k * WORLD_WIDTH;
         Food.y := mathRandom E (S k) * WORLD_HEIGHT |}
      :: initialFood E n' (S i) (S (S k))
  end.

(** [initializeWorld] fills [agentsRef], [foodRef] and [historyRef];
    [nextIdRef] keeps its value ([INITIAL_AGENTS] on mount). *)
Definition initializeWorld (E : Env) (nextIdRef0 : nat) : World :=
  let '(initialAgents, k) := initialAgents E INITIAL_AGENTS 0 0 in
  {| agentsRef := initialAgents;
     foodRef := initialFood E INITIAL_FOOD 0 k;
     historyRef := [];
     nextIdRef := nextIdRef0 |}.

(** ** Views of a tick in progress *)

(** The state in which the [i]-th agent of the pass is processed. *)
Definition stateAt (E : Env) (P : Params) (w : World) (i : nat) : TickState :=
  snd ((let* _ := spawnFood E P (countType herbivore (agentsRef w)) in
        forEachOf E P w (take i (agentsRef w))) (startOfPass w)).

Definition advanceOf (E : Env) (P : Params) (w : World) : Agent.t -> M Agent.t :=
  advance E P (agentsRef w) (countType herbivore (agentsRef w))
    (countType carnivore (agentsRef w)).

(** The [i]-th agent as it stands at its survival test, and the state the
    test runs in. *)
Definition settledAt (E : Env) (P : Params) (w : World) (i : nat)
    (agent : Agent.t) : Agent.t :=
  fst (advanceOf E P w agent (stateAt E P w i)).

Definition testStateAt (E : Env) (P : Params) (w : World) (i : nat)
    (agent : Agent.t) : TickState :=
  snd (advanceOf E P w agent (stateAt E P w i)).

(** The set [eatenHerbivores] at the end of the pass. *)
Definition eatenBy (E : Env) (P : Params) (w : World) : gset nat :=
  eatenHerbivores (snd (pass E P w (startOfPass w))).

(** * The plain component

    The mount effect and [update] of the plain [LifeSim] component
    ([src/LifeSim.tsx]): three kinds of agents without reproduction.  A carnivore that catches a
    herbivore splices it out of [agentsRef.current], the array the
    [for ... of] loop is iterating; the loop is modelled with the array
    iterator's index, so that the splice shifts what later rounds read. *)

Module Plain.

Module Agent.
Record t := mk {
  id : nat;
  x : R;
  y : R;
  dx : R;
  dy : R;
  energy : R;
  age : R;
  speed : R;
  vision : R;
  size : R;
  type : AgentType
}.
End Agent.

Record World := {
  agentsRef : list Agent.t;
  foodRef : list Food.t
}.

(** The React state values [update] reads. *)
Record Params := {
  herbivoreSpeed : R;
  carnivoreSpeed : R;
  foodSpawnRate : R;
  timeScale : R
}.

Definition defaultParams : Params :=
  {| herbivoreSpeed := 1; carnivoreSpeed := 1; foodSpawnRate := 0.02;
     timeScale := 0.7 |}.

Definition isType (t : AgentType) (a : Agent.t) : bool :=
  AgentType_eqb (Agent.type a) t.

(** What the loop works on: the position in the random stream,
    [foodRef.current], [agentsRef.current] (the array under iteration) and
    [updatedAgents]. *)
Record Loop := {
  rng : nat;
  food : list Food.t;
  agents : list Agent.t;
  updatedAgents : list Agent.t
}.

Section Update.
Variable E : Env.
Variable P : Params.

Definition adjustedSpeed (agent : Agent.t) : R :=
  match Agent.type agent with
  | herbivore => Agent.speed agent * herbivoreSpeed P
  | carnivore => Agent.speed agent * carnivoreSpeed P
  | neutral => Agent.speed agent * 0.8
  end.

(** Herbivore: accelerate toward the nearest food item in view. *)
Definition seekFood (fs : list Food.t) (agent : Agent.t) (dx dy : R) : R * R :=
  let x := Agent.x agent in
  let y := Agent.y agent in
  match nearest Food.x Food.y x y fs with
  | Some nf =>
      let dist := hypot (Food.x nf - x) (Food.y nf - y) in
      if dist <? Agent.vision agent
      then (dx + ((Food.x nf - x) / dist) * 0.25,
            dy + ((Food.y nf - y) / dist) * 0.25)
      else (dx, dy)
  | None => (dx, dy)
  end.

(** Herbivores flee from nearby carnivores. *)
Definition fleeHunters (arr : list Agent.t) (agent : Agent.t) (dx dy : R)
  : R * R :=
  let x := Agent.x agent in
  let y := Agent.y agent in
  let hunters := List.filter (isType carnivore) arr in
  match nearest Agent.x Agent.y x y hunters with
  | Some nearestHunter =>
      let pd := hypot (Agent.x nearestHunter - x) (Agent.y nearestHunter - y) in
      if pd <? Agent.vision agent * 0.9
      then (dx - ((Agent.x nearestHunter - x) / orOne pd) * 0.35,
            dy - ((Agent.y nearestHunter - y) / orOne pd) * 0.35)
      else (dx, dy)
  | None => (dx, dy)
  end.

(** Carnivore: accelerate toward the nearest herbivore in view. *)
Definition chase (arr : list Agent.t) (agent : Agent.t) (dx dy : R) : R * R :=
  let x := Agent.x agent in
  let y := Agent.y agent in
  let prey := List.filter (isType herbivore) arr in
  match nearest Agent.x Agent.y x y prey with
  | Some nearest =>
      let dist := hypot (Agent.x nearest - x) (Agent.y nearest - y) in
      if dist <? Agent.vision agent
      then (dx + ((Agent.x nearest - x) / dist) * 0.25,
            dy + ((Agent.y nearest - y) / dist) * 0.25)
      else (dx, dy)
  | None => (dx, dy)
  end.

(** Steering of one agent: velocity, energy and the position in the
    random stream. *)
Definition steer (agent : Agent.t) (s : Loop) : R * R * R * nat :=
  let dx := Agent.dx agent in
  let dy := Agent.dy agent in
  let energy := Agent.energy agent in
  match Agent.type agent with
  | herbivore =>
      let '(dx, dy) := seekFood (food s) agent dx dy in
      let '(dx, dy) := fleeHunters (agents s) agent dx dy in
      (dx, dy, energy, rng s)
  | carnivore =>
      let '(dx, dy) := chase (agents s) agent dx dy in
      (dx, dy, energy, rng s)
  | neutral =>
      let dx := dx + (mathRandom E (rng s) - 0.5) * 0.1 in
      let dy := dy + (mathRandom E (S (rng s)) - 0.5) * 0.1 in
      let energy :=
        if mathRandom E (S (S (rng s))) <? 0.002 then energy + 10 else energy in
      (dx, dy, energy, S (S (S (rng s))))
  end.

(** [if (x < 0 || x > w) dx = -dx] *)
Definition reflect (w x dx : R) : R :=
  if (x <? 0) || (x >? w) then - dx else dx.

(** The agent after steering and movement: position, velocity, energy and
    the position in the random stream. *)
Definition approach (agent : Agent.t) (s : Loop) : R * R * R * R * R * nat :=
  let '(dx, dy, energy, k) := steer agent s in
  let x := Agent.x agent + dx * adjustedSpeed agent * timeScale P in
  let y := Agent.y agent + dy * adjustedSpeed agent * timeScale P in
  let dx := dx * 0.95 in
  let dy := dy * 0.95 in
  let '(dx, dy) := capVelocity 2.5 (hypot dx dy) dx dy in
  let dx := reflect WORLD_WIDTH x dx in
  let dy := reflect WORLD_HEIGHT y dy in
  (x, y, dx, dy, energy, k).

(** Herbivore: the first food item within 6 units is eaten and spliced out
    of [foodRef.current]. *)
Definition grazes (x y : R) (f : Food.t) : bool :=
  hypot (Food.x f - x) (Food.y f - y) <? 6.

Definition graze (fs : list Food.t) (x y energy size : R)
  : R * R * list Food.t :=
  match findIndex (grazes x y) fs with
  | Some i => (energy + 30, Rmin (size + 0.25) 10, delete i fs)
  | None => (energy, size, fs)
  end.

(** Carnivore: the first herbivore of [agentsRef.current] within 4 units
    is eaten and spliced out of [agentsRef.current]. *)
Definition catches (x y : R) (prey : Agent.t) : bool :=
  isType herbivore prey
  && (hypot (Agent.x prey - x) (Agent.y prey - y) <? 4).

Definition prey_on (arr : list Agent.t) (x y energy size : R)
  : R * R * list Agent.t :=
  match findIndex (catches x y) arr with
  | Some i => (energy + 45, Rmin (size + 0.4) 12, delete i arr)
  | None => (energy, size, arr)
  end.

Definition decay (t : AgentType) : R :=
  match t with carnivore => 0.15 | herbivore => 0.08 | neutral => 0.06 end.

(** [{ ...agent, x, y, dx, dy, energy, age, size }] *)
Definition respread (agent : Agent.t) (x y dx dy energy age size : R)
  : Agent.t :=
  {| Agent.id := Agent.id agent;
     Agent.x := x;
     Agent.y := y;
     Agent.dx := dx;
     Agent.dy := dy;
     Agent.energy := energy;
     Agent.age := age;
     Agent.speed := Agent.speed agent;
     Agent.vision := Agent.vision agent;
     Agent.size := size;
     Agent.type := Agent.type agent |}.

Definition alive (energy age : R) : bool := (energy >? 0) && (age <? 800).

(** One round of the loop, [agent] being the loop variable. *)
Definition step (agent : Agent.t) (s : Loop) : Loop :=
  let '(x, y, dx, dy, energy, k) := approach agent s in
  let size := Agent.size agent in
  let '(energy, size, fs) :=
    match Agent.type agent with
    | herbivore => graze (food s) x y energy size
    | _ => (energy, size, food s)
    end in
  let '(energy, size, arr) :=
    match Agent.type agent with
    | carnivore => prey_on (agents s) x y energy size
    | _ => (energy, size, agents s)
    end in
  let energy := energy - decay (Agent.type agent) * timeScale P in
  let age := Agent.age agent + 0.05 in
  let size := Rmax 4 (size - 0.008 * timeScale P) in
  {| rng := k;
     food := fs;
     agents := arr;
     updatedAgents :=
       if alive energy age
       then updatedAgents s ++ [respread agent x y dx dy energy age size]
       else updatedAgents s |}.

(** [for (const agent of agentsRef.current)]: the array iterator reads
    [agentsRef.current[idx]] as long as [idx] is below the length the array
    has at that moment.  [fuel] bounds the number of rounds; the result
    carries the index the loop stopped at. *)
Fixpoint forOf (fuel idx : nat) (s : Loop) : nat * Loop :=
  match fuel with
  | O => (idx, s)
  | S fuel' =>
      match agents s !! idx with
      | Some agent => forOf fuel' (S idx) (step agent s)
      | None => (idx, s)
      end
  end.

Definition spawnFood (s : Loop) : Loop :=
  if mathRandom E (rng s) <? foodSpawnRate P
  then {| rng := S (S (S (rng s)));
          food := food s ++ [{| Food.id := dateNow E;
                                Food.x := mathRandom E (S (rng s)) * WORLD_WIDTH;
                                Food.y := mathRandom E (S (S (rng s))) * WORLD_HEIGHT |}];
          agents := agents s;
          updatedAgents := updatedAgents s |}
  else {| rng := S (rng s); food := food s; agents := agents s;
          updatedAgents := updatedAgents s |}.

Definition startOfPass (w : World) : Loop :=
  spawnFood {| rng := 0; food := foodRef w; agents := agentsRef w;
               updatedAgents := [] |}.

(** The loop of one tick; the array never grows, so its length at the
    start bounds the number of rounds. *)
Definition pass (w : World) : nat * Loop :=
  forOf (length (agentsRef w)) 0 (startOfPass w).

Definition update (w : World) : World :=
  let s := snd (pass w) in
  {| agentsRef := updatedAgents s; foodRef := food s |}.

End Update.

(** The agent the [i]-th round of the loop of the mount effect pushes,
    drawing from position [k] of the stream on. *)
Definition initialAgent (E : Env) (i k : nat) : Agent.t :=
  let rnd j := mathRandom E (k + j) in
  let typeRand := rnd 0%nat in
  let type :=
    if typeRand <? 0.55 then herbivore
    else if typeRand <? 0.9 then neutral
    else carnivore in
  {| Agent.id := i;
     Agent.x := rnd 1%nat * WORLD_WIDTH;
     Agent.y := rnd 2%nat * WORLD_HEIGHT;
     Agent.dx := (rnd 3%nat - 0.5) * 2;
     Agent.dy := (rnd 4%nat - 0.5) * 2;
     Agent.energy := 100;
     Agent.age := 0;
     Agent.speed := 0.5 + rnd 5%nat * 1.2;
     Agent.vision := 40 + rnd 6%nat * 20;
     Agent.size := 5;
     Agent.type := type |}.

(** Rounds [i, i + n) of the agent loop; every round takes seven draws. *)
Fixpoint initialAgents (E : Env) (n i k : nat) : list Agent.t :=
  match n with
  | O => []
  | S n' => initialAgent E i k :: initialAgents E n' (S i) (k + 7)
  end.

(** The effect the component runs on mount. *)
Definition mount (E : Env) : World :=
  {| agentsRef := initialAgents E INITIAL_AGENTS 0 0;
     foodRef := initialFood E INITIAL_FOOD 0 (7 * INITIAL_AGENTS) |}.

End Plain.

(** * Statements

    The predicates the theorems are stated with, and the worlds they are
    tried on. *)

(** ** Properties of a computation of the pass *)

(** [m] moves every state along [Rel]. *)
Definition steps (Rel : TickState -> TickState -> Prop) {A} (m : M A) : Prop :=
  forall s, Rel s (snd (m s)).

(** [s'] holds the agents of [s], then agents that all satisfy [Q]. *)
Definition extends (Q : Agent.t -> Prop) (s s' : TickState) : Prop :=
  exists l, updatedAgents s' = updatedAgents s ++ l /\ Forall Q l.

(** [s'] has every mark of [s]. *)
Definition keepsMarks (s s' : TickState) : Prop :=
  eatenHerbivores s ⊆ eatenHerbivores s'.

(** [s'] has the agents and the spawn count of [s]. *)
Definition quiet (s s' : TickState) : Prop :=
  updatedAgents s' = updatedAgents s
  /\ spawnedHerbivores s' = spawnedHerbivores s.

(** From [s] to [s'] at most [n] herbivores were appended beyond those
    counted by the spawn counter, which stays within [cap] once it
    moves. *)
Definition rationed (ch cap n : nat) (s s' : TickState) : Prop :=
  (countType herbivore (updatedAgents s') + spawnedHerbivores s
   <= countType herbivore (updatedAgents s) + n + spawnedHerbivores s')%nat
  /\ (spawnedHerbivores s <= spawnedHerbivores s')%nat
  /\ (spawnedHerbivores s' = spawnedHerbivores s
      \/ (ch + spawnedHerbivores s' <= cap)%nat).

(** Two states that a computation reading only the food and the random
    stream cannot tell apart. *)
Definition agree (s1 s2 : TickState) : Prop :=
  food s1 = food s2 /\ rng s1 = rng s2.

Definition respects {A} (m : M A) : Prop :=
  forall s1 s2, agree s1 s2 ->
    fst (m s1) = fst (m s2) /\ agree (snd (m s1)) (snd (m s2)).

(** ** Survival and size *)

Definition viable (a : Agent.t) : Prop :=
  Agent.energy a > 0 /\ Agent.age a < 800.

Definition sized (a : Agent.t) : Prop :=
  3 <= Agent.size a <= 10.

(** How a size comes about: the literal 5 of a birth, or the size that
    follows an energy. *)
Definition sizedByRule (a : Agent.t) : Prop :=
  Agent.size a = 5 \/ exists energy, Agent.size a = sizeFromEnergy energy.

Definition fit (a : Agent.t) : Prop := viable a /\ sizedByRule a.

Definition notNeutral (a : Agent.t) : Prop := Agent.type a <> neutral.

(** [a] is [agent] as the loop body leaves it at the survival test. *)
Definition settles (P : Params) (ch : nat) (agent a : Agent.t) : Prop :=
  exists sc x y dx dy energy rc la st,
    a = settle P ch agent sc x y dx dy energy rc la st.

(** What became of the [i]-th agent of the input: its updated record is
    in the output, or it has run out of energy, or it has reached the age
    limit, or it is a herbivore marked eaten during the tick. *)
Definition accounted (E : Env) (P : Params) (w : World) (i : nat)
    (agent : Agent.t) : Prop :=
  let a := settledAt E P w i agent in
  In a (agentsRef (update E P w))
  \/ Agent.energy a <= 0
  \/ Agent.age a >= 800
  \/ (Agent.type agent = herbivore /\ Agent.id agent ∈ eatenBy E P w).

(** ** Steering *)

(** The part of a state the steering can read. *)
Definition perceived (s : TickState) : TickState :=
  {| rng := rng s; food := food s; updatedAgents := [];
     eatenHerbivores := ∅; spawnedHerbivores := 0; nextId := 0 |}.

Definition withFood (fs : list Food.t) (s : TickState) : TickState :=
  {| rng := rng s; food := fs; updatedAgents := updatedAgents s;
     eatenHerbivores := eatenHerbivores s;
     spawnedHerbivores := spawnedHerbivores s; nextId := nextId s |}.

(** The steering of the [i]-th agent as the pass computes it, and as it
    would be computed from the food set the loop started with. *)
Definition steeringAt (E : Env) (P : Params) (w : World) (i : nat)
    (agent : Agent.t) : R * R * bool * R * option R :=
  fst (steer E (agentsRef w) agent (stateAt E P w i)).

Definition steeringFromSnapshot (E : Env) (P : Params) (w : World) (i : nat)
    (agent : Agent.t) : R * R * bool * R * option R :=
  fst (steer E (agentsRef w) agent
         (withFood (food (stateAt E P w 0)) (stateAt E P w i))).

(** ** Position *)

(** Where the clamp leaves a processed agent. *)
Definition inside (a : Agent.t) : Prop :=
  1 <= Agent.x a <= WORLD_WIDTH - 1 /\ 1 <= Agent.y a <= WORLD_HEIGHT - 1.

(** ** Speed *)

Definition speedOf (a : Agent.t) : R := hypot (Agent.dx a) (Agent.dy a).

Definition withinSpeedLimit (a : Agent.t) : Prop :=
  speedOf a <= maxVelOf (Agent.type a).

Definition withinSpeedAllowance (a : Agent.t) : Prop :=
  speedOf a <= maxVelOf (Agent.type a) + 1.65.

(** [Math.random()] answers in [0, 1). *)
Definition fair (E : Env) : Prop := forall n, 0 <= mathRandom E n < 1.

(** ** Scenarios *)

(** A random source that always answers [0.5]: every jitter is zero. *)
Definition steady : Env := {| mathRandom := fun _ => 0.5; dateNow := 0 |}.

(** The same source, except for the answer [0.1] to the sixth draw. *)
Definition gust : Env :=
  {| mathRandom := fun n => if Nat.eqb n 5 then 0.1 else 0.5; dateNow := 0 |}.

(** An agent of speed 1 and vision 50 with the base metabolism of its
    kind, off cooldown. *)
Definition creature (t : AgentType) (i : nat) (x y dx dy energy : R) : Agent.t :=
  {| Agent.id := i; Agent.x := x; Agent.y := y; Agent.dx := dx; Agent.dy := dy;
     Agent.energy := energy; Agent.age := 0; Agent.speed := 1;
     Agent.vision := 50; Agent.size := 5; Agent.type := t;
     Agent.reproCooldown := Some 0;
     Agent.metabolism :=
       match t with carnivore => 0.14 | herbivore => 0.07 | neutral => 0.055 end;
     Agent.lastAteTicks := Some 0; Agent.seedCooldown := None;
     Agent.stuckTicks := Some 0 |}.

(** What a scenario is read by: identity, kind and energy of an agent. *)
Definition vitals (a : Agent.t) : nat * AgentType * R :=
  (Agent.id a, Agent.type a, Agent.energy a).

(** A world as it stands after the first hundred identities are taken. *)
Definition arena (l : list Agent.t) (fs : list Food.t) : World :=
  {| agentsRef := l; foodRef := fs; historyRef := []; nextIdRef := 100 |}.

(** A herbivore three units from a carnivore, the herbivore first. *)
Definition preyFirst : World :=
  arena [creature herbivore 0 100 100 0 0 50;
         creature carnivore 1 103 100 0 0 55] [].

(** The same two agents, the carnivore first. *)
Definition preyLast : World :=
  arena [creature carnivore 1 103 100 0 0 55;
         creature herbivore 0 100 100 0 0 50] [].

(** Two carnivores on either side of one herbivore. *)
Definition sharedPrey : World :=
  arena [creature carnivore 0 103 100 0 0 55;
         creature carnivore 1 97 100 0 0 55;
         creature herbivore 2 100 100 0 0 50] [].

(** A carnivore, then an energetic herbivore within its reach. *)
Definition markedParent : World :=
  arena [creature carnivore 0 103 100 0 0 55;
         creature herbivore 1 100 100 0 0 200] [].

(** The default parameters with the carnivore cap at twenty. *)
Definition capped : Params :=
  {| herbivoreSpeed := 1; carnivoreSpeed := 1; foodSpawnRate := 0.02;
     timeScale := 0.7; carnivoreMetabolismScale := 1;
     carnivoreCatchRadius := 8; carnivoreReproThreshold := 180;
     maxCarnivores := 20;
     herbivoreReproThreshold := 150;
     maxHerbivores := MAX_HERBIVORES_DEFAULT |}.

(** Nineteen energetic carnivores. *)
Definition packMember (i : nat) : Agent.t := creature carnivore i 400 250 1 0 200.

Definition pack : World := arena (map packMember (seq 0 19)) [].

(** The loop body on one member of the pack. *)
Definition packStep (i : nat) : M unit :=
  processAgent steady capped (agentsRef pack)
    (countType herbivore (agentsRef pack))
    (countType carnivore (agentsRef pack)) (packMember i).

(** Two herbivores and one food item between them. *)
Definition morsel : Food.t := {| Food.id := 0; Food.x := 104; Food.y := 100 |}.

Definition twoGrazers : World :=
  arena [creature herbivore 0 100 100 0 0 50;
         creature herbivore 1 110 100 0 0 50] [morsel].

(** The same world, the two herbivores in the other order. *)
Definition twoGrazersSwapped : World :=
  arena [creature herbivore 1 110 100 0 0 50;
         creature herbivore 0 100 100 0 0 50] [morsel].

(** One herbivore three units from the only food item. *)
Definition oneGrazer : World :=
  arena [creature herbivore 0 100 100 0 0 50]
        [{| Food.id := 0; Food.x := 103; Food.y := 100 |}].

(** An energetic herbivore two units from the left wall, heading for it. *)
Definition edgeParent : World :=
  arena [creature herbivore 0 2 100 (-1) 0 200] [].

(** A herbivore at the cap speed running into the left wall. *)
Definition wallRunner : World :=
  arena [creature herbivore 0 1.5 100 (-2.5) 0 50] [].

(** A herbivore standing exactly on a food item. *)
Definition crumb : Food.t := {| Food.id := 0; Food.x := 100; Food.y := 100 |}.

Definition onFood : World :=
  arena [creature herbivore 0 100 100 0 0 50] [crumb].

(** ** What a tick leaves of an agent *)

(** [s'] has the agents and the identity counter of [s]. *)
Definition calm (s s' : TickState) : Prop :=
  updatedAgents s' = updatedAgents s /\ nextId s' = nextId s.

(** [a] is a child as the reproduction of [agent] makes it. *)
Definition bornTo (agent a : Agent.t) : Prop :=
  Agent.type a = Agent.type agent
  /\ Agent.age a = 0
  /\ Agent.size a = 5
  /\ 0.02 <= Agent.metabolism a
  /\ match Agent.type agent with
     | herbivore =>
         Agent.energy a = 35
         /\ 0.4 <= Agent.speed a <= 2.0
         /\ 30 <= Agent.vision a <= 70
         /\ Agent.reproCooldown a = Some 600
     | carnivore =>
         Agent.energy a = 70
         /\ 0.6 <= Agent.speed a <= 2.2
         /\ 50 <= Agent.vision a <= 90
         /\ Agent.reproCooldown a = Some 700
     | neutral => False
     end.

(** [a] is [agent] one tick older: what the spread keeps and what the
    loop body always sets. *)
Definition grownFrom (agent a : Agent.t) : Prop :=
  Agent.id a = Agent.id agent
  /\ Agent.type a = Agent.type agent
  /\ Agent.speed a = Agent.speed agent
  /\ Agent.vision a = Agent.vision agent
  /\ Agent.metabolism a = Agent.metabolism agent
  /\ Agent.age a = Agent.age agent + 0.05.

(** From [s] to [s'] at most [n] children of [agent] were appended, with
    the next identities in order. *)
Definition bears (agent : Agent.t) (n : nat) (s s' : TickState) : Prop :=
  exists kids,
    updatedAgents s' = updatedAgents s ++ kids
    /\ (length kids <= n)%nat
    /\ nextId s' = (nextId s + length kids)%nat
    /\ map Agent.id kids = seq (nextId s) (length kids)
    /\ Forall (bornTo agent) kids.

(** The agents a loop over [l] leaves, in order: for every agent at most one
    child, which takes the next identity, then at most its own record.
    [n] is the identity counter before the loop and [n'] after it. *)
Inductive harvest : nat -> list Agent.t -> list Agent.t -> nat -> Prop :=
| harvest_nil n : harvest n [] [] n
| harvest_cons n agent kids surv rest out n' :
    (length kids <= 1)%nat ->
    map Agent.id kids = seq n (length kids) ->
    Forall (bornTo agent) kids ->
    (length surv <= 1)%nat ->
    Forall (grownFrom agent) surv ->
    harvest (n + length kids) rest out n' ->
    harvest n (agent :: rest) (kids ++ surv ++ out) n'.

(** Identities are distinct and below the counter. *)
Definition identified (n : nat) (l : list Agent.t) : Prop :=
  NoDup (map Agent.id l) /\ Forall (fun a => (Agent.id a < n)%nat) l.

(** ** Where a size comes from *)

(** What the metabolism of the tick took from the energy of a record of
    the output: the loop body subtracts it after the size is computed. *)
Definition drain (P : Params) (ch : nat) (a : Agent.t) : R :=
  (match Agent.type a with
   | carnivore => Agent.metabolism a * carnivoreMetabolismScale P
   | _ => Agent.metabolism a
   end)
  * (1 + starvationFactor ch (Agent.type a) (default 0 (Agent.lastAteTicks a)))
  * timeScale P.

(** The size is max(3, min(10, 3 + energy * 0.03)) for the energy the
    agent held when the loop body computed it: after feeding and
    reproduction, before the metabolism. *)
Definition recomputed (P : Params) (ch : nat) (a : Agent.t) : Prop :=
  Agent.size a
  = Rmax 3 (Rmin 10 (3 + (Agent.energy a + drain P ch a) * 0.03)).

(** An agent of the output of the tick of [w] is a child born in the tick,
    of size 5, or the record of an agent of the input as it stood at its
    survival test, of recomputed size. *)
Definition sizeSet (E : Env) (P : Params) (w : World) (a : Agent.t) : Prop :=
  (Agent.size a = 5
   /\ exists parent, In parent (agentsRef w) /\ bornTo parent a)
  \/ (recomputed P (countType herbivore (agentsRef w)) a
      /\ exists i agent,
           agentsRef w !! i = Some agent /\ a = settledAt E P w i agent).

(** ** Food *)

(** [s'] has the food of [s]. *)
Definition sameFood (s s' : TickState) : Prop := food s' = food s.

(** What one round of the loop does to the food list: a herbivore takes at
    most one item out, a neutral drops at most one where it started the
    tick; nothing else touches the list. *)
Definition forages (agent : Agent.t) (s s' : TickState) : Prop :=
  food s' = food s
  \/ (Agent.type agent = herbivore
      /\ exists pre f post, food s = pre ++ f :: post /\ food s' = pre ++ post)
  \/ (Agent.type agent = neutral
      /\ exists f, Food.x f = Agent.x agent /\ Food.y f = Agent.y agent
                   /\ food s' = food s ++ [f]).

(** What the steering does to the food list. *)
Definition sows (agent : Agent.t) (s s' : TickState) : Prop :=
  food s' = food s
  \/ (Agent.type agent = neutral
      /\ exists f, Food.x f = Agent.x agent /\ Food.y f = Agent.y agent
                   /\ food s' = food s ++ [f]).

(** ** Places, the stuck counter and marks *)

(** A place of the arena, walls included. *)
Definition onGround (x y : R) : Prop :=
  0 <= x <= WORLD_WIDTH /\ 0 <= y <= WORLD_HEIGHT.

(** Every food item lies in the arena, and so does every neutral agent,
    the only kind that drops food. *)
Definition tidy (w : World) : Prop :=
  Forall (fun f => onGround (Food.x f) (Food.y f)) (foodRef w)
  /\ Forall (fun a => Agent.type a = neutral -> onGround (Agent.x a) (Agent.y a))
       (agentsRef w).

(** Within the reach of a birth from the clamped place of the parent. *)
Definition nearGround (a : Agent.t) : Prop :=
  -4 <= Agent.x a <= WORLD_WIDTH + 4 /\ -4 <= Agent.y a <= WORLD_HEIGHT + 4.

(** The stuck counter never stands above the threshold of the nudge. *)
Definition stuckInCheck (a : Agent.t) : Prop :=
  match Agent.stuckTicks a with
  | Some v => v <= 60
  | None => True
  end.

(** [s'] has the marks of [s]. *)
Definition sameMarks (s s' : TickState) : Prop :=
  eatenHerbivores s' = eatenHerbivores s.

(** What one round of the loop does to the marks: a carnivore that stands
    at [(x, y)] after its move marks at most one agent of the input, a
    herbivore within the catch radius of that place. *)
Definition hunts (P : Params) (agents : list Agent.t) (agent a : Agent.t)
    (s s' : TickState) : Prop :=
  eatenHerbivores s' = eatenHerbivores s
  \/ (Agent.type agent = carnivore
      /\ exists prey,
           In prey agents
           /\ catches P (Agent.x a) (Agent.y a) prey = true
           /\ eatenHerbivores s' = {[ Agent.id prey ]} ∪ eatenHerbivores s).

(** ** The initial world *)

Definition baseEnergyOf (t : AgentType) : R :=
  match t with herbivore => 50 | carnivore => 55 | neutral => 40 end.

Definition baseMetabolismOf (t : AgentType) : R :=
  match t with carnivore => 0.14 | herbivore => 0.07 | neutral => 0.055 end.

(** The ranges [initializeWorld] draws an agent from. *)
Definition freshlyMade (a : Agent.t) : Prop :=
  (0 <= Agent.x a < WORLD_WIDTH /\ 0 <= Agent.y a < WORLD_HEIGHT)
  /\ (-1 <= Agent.dx a < 1 /\ -1 <= Agent.dy a < 1)
  /\ Agent.energy a = baseEnergyOf (Agent.type a)
  /\ Agent.age a = 0
  /\ 0.5 <= Agent.speed a < 1.7
  /\ 40 <= Agent.vision a < 60
  /\ Rmax 0.02 (baseMetabolismOf (Agent.type a) - 0.015) <= Agent.metabolism a
     < baseMetabolismOf (Agent.type a) + 0.015
  /\ (exists c, Agent.reproCooldown a = Some c /\ 0 <= c < 300)
  /\ (exists c, Agent.lastAteTicks a = Some c /\ 0 <= c < 200)
  /\ match Agent.type a with
     | neutral => exists c, Agent.seedCooldown a = Some c /\ 150 <= c < 350
     | _ => Agent.seedCooldown a = None
     end
  /\ Agent.stuckTicks a = Some 0.

(** The distance the perception measures from [(x, y)]. *)
Definition distanceFrom {A} (px py : A -> R) (x y : R) (p : A) : R :=
  hypot (px p - x) (py p - y).

(** ** Energy and births *)

(** Whether [agent] can bear a child this tick at all: it is off cooldown
    and one meal would lift its energy above the threshold of its kind. *)
Definition fertile (P : Params) (agent : Agent.t) : bool :=
  match Agent.type agent with
  | herbivore =>
      (Agent.energy agent + 35 >? herbivoreReproThreshold P)
      && (default 0 (Agent.reproCooldown agent) <=? 0)
  | carnivore =>
      (Agent.energy agent + 45 >? carnivoreReproThreshold P)
      && (default 0 (Agent.reproCooldown agent) <=? 0)
  | neutral => false
  end.

(** The most energy [agent] can hold at its survival test: one meal, the
    energy a birth leaves, or the self-gain of a neutral. *)
Definition energyCeiling (agent : Agent.t) : R :=
  match Agent.type agent with
  | herbivore => Rmax (Agent.energy agent + 35) 45
  | carnivore => Rmax (Agent.energy agent + 45) 90
  | neutral => Agent.energy agent + 5
  end.

(** Parameters as the sliders give them. *)
Definition sane (P : Params) : Prop :=
  0 <= timeScale P /\ 0 <= carnivoreMetabolismScale P.

(** ** Two more worlds *)

(** The world on mount under the steady source. *)
Definition onMount : World := initializeWorld steady INITIAL_AGENTS.

(** A carnivore three units from a herbivore, the carnivore first. *)
Definition ambush : World :=
  arena [creature carnivore 7 103 100 0 0 55;
         creature herbivore 8 100 100 0 0 50] [].

(** ** Statements on the plain component *)

(** What the plain loop pushes: alive, at least 4 in size, within the
    velocity cap. *)
Definition plainSound (a : Plain.Agent.t) : Prop :=
  (Plain.Agent.energy a > 0 /\ Plain.Agent.age a < 800)
  /\ 4 <= Plain.Agent.size a
  /\ hypot (Plain.Agent.dx a) (Plain.Agent.dy a) <= 2.5.

(** The index a carnivore's scan stops at when it is the loop variable in
    [s]. *)
Definition plainCatch (E : Env) (P : Plain.Params) (agent : Plain.Agent.t)
    (s : Plain.Loop) : option nat :=
  let '(x, y, _, _, _, _) := Plain.approach E P agent s in
  match Plain.Agent.type agent with
  | carnivore => findIndex (Plain.catches x y) (Plain.agents s)
  | _ => None
  end.

(** [a] is [agent] one tick older, as the plain loop pushes it. *)
Definition plainGrown (agent a : Plain.Agent.t) : Prop :=
  Plain.Agent.id a = Plain.Agent.id agent
  /\ Plain.Agent.type a = Plain.Agent.type agent
  /\ Plain.Agent.speed a = Plain.Agent.speed agent
  /\ Plain.Agent.vision a = Plain.Agent.vision agent
  /\ Plain.Agent.age a = Plain.Agent.age agent + 0.05.

Definition plainCount (t : AgentType) (l : list Plain.Agent.t) : nat :=
  length (List.filter (Plain.isType t) l).

(** An agent of the plain component at rest: speed 1, vision 50, size 5,
    energy 100. *)
Definition plainCreature (t : AgentType) (i : nat) (x y : R) : Plain.Agent.t :=
  {| Plain.Agent.id := i; Plain.Agent.x := x; Plain.Agent.y := y;
     Plain.Agent.dx := 0; Plain.Agent.dy := 0; Plain.Agent.energy := 100;
     Plain.Agent.age := 0; Plain.Agent.speed := 1; Plain.Agent.vision := 50;
     Plain.Agent.size := 5; Plain.Agent.type := t |}.

(** A herbivore, a carnivore three units from it and a neutral far from
    both, in this order. *)
Definition bystander : Plain.World :=
  {| Plain.agentsRef := [plainCreature herbivore 0 100 100;
                         plainCreature carnivore 1 103 100;
                         plainCreature neutral 2 300 300];
     Plain.foodRef := [] |}.

(** The loop of [bystander] when the carnivore is the loop variable. *)
Definition bystanderAtCarnivore : Plain.Loop :=
  Plain.step steady Plain.defaultParams (plainCreature herbivore 0 100 100)
    (Plain.startOfPass steady Plain.defaultParams bystander).

(** ** The animation loop *)

(** [n] frames of [requestAnimationFrame(update)] without a reset in
    between: frame [t] runs with the random source [Es t] and the slider
    values [Ps t]. *)
Fixpoint frames (Es : nat -> Env) (Ps : nat -> Params) (n : nat) (w : World)
  : World :=
  match n with
  | O => w
  | S n' => update (Es n') (Ps n') (frames Es Ps n' w)
  end.

(** ** A run *)

(** What a run keeps, frame after frame. *)
Definition wellKept (cap : nat) (w : World) : Prop :=
  identified (nextIdRef w) (agentsRef w)
  /\ tidy w
  /\ (length (historyRef w) <= 300)%nat
  /\ (countType herbivore (agentsRef w) <= cap)%nat
  /\ Forall (fun a => viable a /\ sized a /\ nearGround a /\ stuckInCheck a)
       (agentsRef w).

(** The ranges the mount of the plain component draws an agent from. *)
Definition plainFresh (a : Plain.Agent.t) : Prop :=
  (0 <= Plain.Agent.x a < WORLD_WIDTH /\ 0 <= Plain.Agent.y a < WORLD_HEIGHT)
  /\ (-1 <= Plain.Agent.dx a < 1 /\ -1 <= Plain.Agent.dy a < 1)
  /\ Plain.Agent.energy a = 100
  /\ Plain.Agent.age a = 0
  /\ Plain.Agent.size a = 5
  /\ 0.5 <= Plain.Agent.speed a < 1.7
  /\ 40 <= Plain.Agent.vision a < 60.

(** A carnivore three units from a herbivore of the plain component, the
    carnivore first. *)
Definition plainAmbush : Plain.World :=
  {| Plain.agentsRef := [plainCreature carnivore 1 103 100;
                         plainCreature herbivore 0 100 100];
     Plain.foodRef := [] |}.

(** * Proofs *)

(** ** Comparisons *)

Lemma Rltb_true_iff (a b : R) : (a <? b) = true <-> a < b.
Proof. unfold Rltb. destruct (Rlt_dec a b); split; intros; try lra; congruence. Qed.

Lemma Rltb_false_iff (a b : R) : (a <? b) = false <-> b <= a.
Proof. unfold Rltb. destruct (Rlt_dec a b); split; intros; try lra; congruence. Qed.

Lemma Rleb_true_iff (a b : R) : (a <=? b) = true <-> a <= b.
Proof. unfold Rleb. destruct (Rle_dec a b); split; intros; try lra; congruence. Qed.

Lemma Rleb_false_iff (a b : R) : (a <=? b) = false <-> b < a.
Proof. unfold Rleb. destruct (Rle_dec a b); split; intros; try lra; congruence. Qed.

(** ** Frame rules: what a computation leaves along a preorder *)

Section Frames.
Variable Rel : TickState -> TickState -> Prop.
Variable Q : Agent.t -> Prop.
Hypothesis Rel_refl : forall s, Rel s s.
Hypothesis Rel_trans : forall s1 s2 s3, Rel s1 s2 -> Rel s2 s3 -> Rel s1 s3.
Hypothesis Rel_random : forall E, steps Rel (random E).
Hypothesis Rel_setFood : forall fs, steps Rel (setFood fs).
Hypothesis Rel_addEaten : forall i, steps Rel (addEaten i).
Hypothesis Rel_incr : steps Rel incrSpawnedHerbivores.
Hypothesis Rel_freshId : steps Rel freshId.
Hypothesis Rel_pushAgent : forall a, Q a -> steps Rel (pushAgent a).

Lemma steps_ret {A} (a : A) : steps Rel (ret a).
Proof using Rel_refl. intros s. apply Rel_refl. Qed.

Lemma steps_bind {A B} (m : M A) (k : A -> M B) :
  steps Rel m -> (forall a, steps Rel (k a)) -> steps Rel (bind m k).
Proof using Rel_trans.
  intros Hm Hk s. unfold bind. specialize (Hm s).
  destruct (m s) as [a s1]. eapply Rel_trans; [exact Hm | apply Hk].
Qed.

Lemma steps_getFood : steps Rel getFood.
Proof using Rel_refl. intros s. apply Rel_refl. Qed.

Lemma steps_hasEaten i : steps Rel (hasEaten i).
Proof using Rel_refl. intros s. apply Rel_refl. Qed.

Lemma steps_getSpawned : steps Rel getSpawnedHerbivores.
Proof using Rel_refl. intros s. apply Rel_refl. Qed.

Lemma steps_pushFood f : steps Rel (pushFood f).
Proof using Rel_setFood. intros s. unfold pushFood. apply Rel_setFood. Qed.

Ltac frame_with leaf :=
  repeat first
    [ leaf
    | lazymatch goal with
      | |- steps _ (ret _) => apply steps_ret
      | |- steps _ (bind _ _) => apply steps_bind; [ | intros ? ]
      | |- steps _ getFood => apply steps_getFood
      | |- steps _ (hasEaten _) => apply steps_hasEaten
      | |- steps _ getSpawnedHerbivores => apply steps_getSpawned
      | |- steps _ (pushFood _) => apply steps_pushFood
      | |- steps _ (random _) => apply Rel_random
      | |- steps _ (setFood _) => apply Rel_setFood
      | |- steps _ (addEaten _) => apply Rel_addEaten
      | |- steps _ incrSpawnedHerbivores => apply Rel_incr
      | |- steps _ freshId => apply Rel_freshId
      | |- steps _ (match ?x with _ => _ end) => destruct x
      end ].

Ltac frame := frame_with fail.

Ltac at_pushAgent tac :=
  idtac; lazymatch goal with |- steps _ (pushAgent _) => tac end.

Lemma steps_jitter E k dx dy : steps Rel (jitter E k dx dy).
Proof using Rel_refl Rel_trans Rel_random. unfold jitter. frame. Qed.

Lemma steps_hunt E agents agent dx dy : steps Rel (hunt E agents agent dx dy).
Proof using Rel_refl Rel_trans Rel_random.
  unfold hunt.
  frame_with ltac:(idtac; lazymatch goal with
                   | |- steps _ (jitter _ _ _ _) => apply steps_jitter
                   end).
Qed.

Lemma steps_drift E agent dx dy energy : steps Rel (drift E agent dx dy energy).
Proof using Rel_refl Rel_trans Rel_random Rel_setFood.
  unfold drift.
  frame_with ltac:(idtac; lazymatch goal with
                   | |- steps _ (jitter _ _ _ _) => apply steps_jitter
                   end).
Qed.

Lemma steps_steer E agents agent : steps Rel (steer E agents agent).
Proof using Rel_refl Rel_trans Rel_random Rel_setFood.
  unfold steer.
  frame_with ltac:(idtac; lazymatch goal with
                   | |- steps _ (jitter _ _ _ _) => apply steps_jitter
                   | |- steps _ (hunt _ _ _ _ _) => apply steps_hunt
                   | |- steps _ (drift _ _ _ _ _) => apply steps_drift
                   end).
Qed.

Lemma steps_impulse E k dx dy : steps Rel (impulse E k dx dy).
Proof using Rel_refl Rel_trans Rel_random. unfold impulse. frame. Qed.

Lemma steps_move E P agent dx dy : steps Rel (move E P agent dx dy).
Proof using Rel_refl Rel_trans Rel_random.
  unfold move, minSpeedKick, stuckNudge.
  frame_with ltac:(idtac; lazymatch goal with
                   | |- steps _ (impulse _ _ _ _) => apply steps_impulse
                   end).
Qed.

Lemma steps_graze x y energy lastAteTicks : steps Rel (graze x y energy lastAteTicks).
Proof using Rel_refl Rel_trans Rel_setFood. unfold graze. frame. Qed.

Lemma steps_prey_on P agents x y energy lastAteTicks :
  steps Rel (prey_on P agents x y energy lastAteTicks).
Proof using Rel_refl Rel_trans Rel_addEaten. unfold prey_on. frame. Qed.

Hypothesis Q_herbivoreChild :
  forall cid x y dx dy cs cv rx ry rdx rdy rm,
    Q (herbivoreChild cid x y dx dy cs cv rx ry rdx rdy rm).
Hypothesis Q_carnivoreChild :
  forall cid x y dx dy cs cv rx ry rdx rdy rm,
    Q (carnivoreChild cid x y dx dy cs cv rx ry rdx rdy rm).

Lemma steps_herbivoreReproduce E P ch agent x y dx dy energy rc :
  steps Rel (herbivoreReproduce E P ch agent x y dx dy energy rc).
Proof using Rel_refl Rel_trans Rel_random Rel_incr Rel_freshId Rel_pushAgent Q_herbivoreChild.
  unfold herbivoreReproduce.
  frame_with ltac:(at_pushAgent ltac:(apply Rel_pushAgent, Q_herbivoreChild)).
Qed.

Lemma steps_carnivoreReproduce E P cc agent x y dx dy energy rc :
  steps Rel (carnivoreReproduce E P cc agent x y dx dy energy rc).
Proof using Rel_refl Rel_trans Rel_random Rel_freshId Rel_pushAgent Q_carnivoreChild.
  unfold carnivoreReproduce.
  frame_with ltac:(at_pushAgent ltac:(apply Rel_pushAgent, Q_carnivoreChild)).
Qed.

Lemma steps_advance E P agents ch cc agent :
  steps Rel (advance E P agents ch cc agent).
Proof using All.
  unfold advance.
  frame_with ltac:(idtac; lazymatch goal with
    | |- steps _ (steer _ _ _) => apply steps_steer
    | |- steps _ (move _ _ _ _ _) => apply steps_move
    | |- steps _ (graze _ _ _ _) => apply steps_graze
    | |- steps _ (prey_on _ _ _ _ _ _) => apply steps_prey_on
    | |- steps _ (herbivoreReproduce _ _ _ _ _ _ _ _ _ _) =>
        apply steps_herbivoreReproduce
    | |- steps _ (carnivoreReproduce _ _ _ _ _ _ _ _ _ _) =>
        apply steps_carnivoreReproduce
    end).
Qed.

Lemma steps_survive a : (alive a = true -> Q a) -> steps Rel (survive a).
Proof using Rel_refl Rel_trans Rel_pushAgent.
  intros Ha. unfold survive. destruct (alive a); frame_with ltac:(at_pushAgent ltac:(apply Rel_pushAgent; auto)).
Qed.

Lemma steps_spawnFood E P n : steps Rel (spawnFood E P n).
Proof using Rel_refl Rel_trans Rel_random Rel_setFood. unfold spawnFood. frame. Qed.

End Frames.

(** ** The agents a pass appends *)

Lemma extends_refl Q s : extends Q s s.
Proof. exists []. split; [by rewrite app_nil_r | constructor]. Qed.

Lemma extends_trans Q s1 s2 s3 :
  extends Q s1 s2 -> extends Q s2 s3 -> extends Q s1 s3.
Proof.
  intros (l1 & E1 & F1) (l2 & E2 & F2). exists (l1 ++ l2). split.
  - by rewrite E2, E1, app_assoc.
  - by apply Forall_app.
Qed.

Lemma extends_same Q s s' :
  updatedAgents s' = updatedAgents s -> extends Q s s'.
Proof. intros H. exists []. split; [by rewrite app_nil_r | constructor]. Qed.

Lemma extends_pushAgent (Q : Agent.t -> Prop) a :
  Q a -> steps (extends Q) (pushAgent a).
Proof. intros Ha s. exists [a]. split; [reflexivity | by repeat constructor]. Qed.

Ltac extends_side :=
  first
    [ exact (extends_refl _)
    | exact (extends_trans _)
    | exact (extends_pushAgent _)
    | assumption
    | unfold steps; intros; by apply extends_same ].

Section Extends.
Variable Q : Agent.t -> Prop.
Hypothesis Q_herbivoreChild :
  forall cid x y dx dy cs cv rx ry rdx rdy rm,
    Q (herbivoreChild cid x y dx dy cs cv rx ry rdx rdy rm).
Hypothesis Q_carnivoreChild :
  forall cid x y dx dy cs cv rx ry rdx rdy rm,
    Q (carnivoreChild cid x y dx dy cs cv rx ry rdx rdy rm).

Lemma extends_advance E P agents ch cc agent :
  steps (extends Q) (advance E P agents ch cc agent).
Proof using All.
  apply (steps_advance (extends Q) Q); extends_side.
Qed.

Lemma extends_survive a : (alive a = true -> Q a) -> steps (extends Q) (survive a).
Proof using Type.
  apply (steps_survive (extends Q) Q); extends_side.
Qed.

Lemma extends_spawnFood E P n : steps (extends Q) (spawnFood E P n).
Proof using Type.
  apply (steps_spawnFood (extends Q)); extends_side.
Qed.

End Extends.

(** ** What the loop body leaves at the survival test *)

Lemma yields_bind {A B} (Pr : B -> Prop) (m : M A) (k : A -> M B) s :
  (forall a s', Pr (fst (k a s'))) -> Pr (fst (bind m k s)).
Proof. intros H. unfold bind. destruct (m s). apply H. Qed.

Lemma advance_settles E P agents ch cc agent s :
  settles P ch agent (fst (advance E P agents ch cc agent s)).
Proof.
  unfold advance.
  repeat (apply yields_bind; intros; repeat match goal with p : (_ * _)%type |- _ => destruct p end).
  cbn. unfold settles. eauto 12.
Qed.

Lemma settles_type P ch agent a : settles P ch agent a -> Agent.type a = Agent.type agent.
Proof. intros (sc & x & y & dx & dy & e & rc & la & st & ->). reflexivity. Qed.

Lemma settles_id P ch agent a : settles P ch agent a -> Agent.id a = Agent.id agent.
Proof. intros (sc & x & y & dx & dy & e & rc & la & st & ->). reflexivity. Qed.

Lemma sizeFromEnergy_bounds e : 3 <= sizeFromEnergy e <= 10.
Proof.
  unfold sizeFromEnergy, Rmax, Rmin.
  repeat destruct (Rle_dec _ _); lra.
Qed.

Lemma settles_sizedByRule P ch agent a : settles P ch agent a -> sizedByRule a.
Proof.
  intros (sc & x & y & dx & dy & e & rc & la & st & ->).
  right. by exists e.
Qed.

Lemma sizedByRule_sized a : sizedByRule a -> sized a.
Proof.
  unfold sized. intros [-> | [e ->]]; [lra | apply sizeFromEnergy_bounds].
Qed.

Lemma alive_viable a : alive a = true <-> viable a.
Proof.
  unfold alive, viable, Rgtb. rewrite andb_true_iff, !Rltb_true_iff. lra.
Qed.

Lemma alive_false a : alive a = false -> Agent.energy a <= 0 \/ Agent.age a >= 800.
Proof.
  unfold alive, Rgtb. rewrite andb_false_iff, !Rltb_false_iff. lra.
Qed.

Lemma herbivoreChild_fit cid x y dx dy cs cv rx ry rdx rdy rm :
  fit (herbivoreChild cid x y dx dy cs cv rx ry rdx rdy rm).
Proof. split; [unfold viable; cbn; lra | by left]. Qed.

Lemma carnivoreChild_fit cid x y dx dy cs cv rx ry rdx rdy rm :
  fit (carnivoreChild cid x y dx dy cs cv rx ry rdx rdy rm).
Proof. split; [unfold viable; cbn; lra | by left]. Qed.

Lemma fit_processAgent E P agents ch cc agent :
  steps (extends fit) (processAgent E P agents ch cc agent).
Proof.
  intros s. unfold processAgent, bind.
  pose proof (advance_settles E P agents ch cc agent s) as Hs.
  pose proof (extends_advance fit herbivoreChild_fit carnivoreChild_fit
                E P agents ch cc agent s) as He.
  destruct (advance E P agents ch cc agent s) as [a s1]. cbn in *.
  eapply extends_trans; [exact He | ].
  apply extends_survive. intros Ha. split.
  - by apply alive_viable.
  - by eapply settles_sizedByRule.
Qed.

Lemma steps_forEach (R : TickState -> TickState -> Prop) E P agents ch cc :
  (forall s, R s s) ->
  (forall s1 s2 s3, R s1 s2 -> R s2 s3 -> R s1 s3) ->
  (forall agent, steps R (processAgent E P agents ch cc agent)) ->
  forall l, steps R (forEach E P agents ch cc l).
Proof.
  intros Hr Ht Hp l. induction l as [|agent l IH]; cbn [forEach].
  - by apply steps_ret.
  - apply steps_bind; auto.
Qed.

Lemma fit_pass E P w : steps (extends fit) (pass E P w).
Proof.
  unfold pass. apply steps_bind.
  - apply extends_trans.
  - apply extends_spawnFood.
  - intros _. apply steps_forEach.
    + apply extends_refl.
    + apply extends_trans.
    + apply fit_processAgent.
Qed.

Lemma update_fit E P w : Forall fit (agentsRef (update E P w)).
Proof.
  destruct (fit_pass E P w (startOfPass w)) as (l & Hl & Hf).
  unfold update; cbn [agentsRef]. rewrite Hl. exact Hf.
Qed.

(** ** The pass, agent by agent *)

Lemma forEach_app E P agents ch cc l1 l2 s :
  forEach E P agents ch cc (l1 ++ l2) s
  = forEach E P agents ch cc l2 (snd (forEach E P agents ch cc l1 s)).
Proof.
  revert s. induction l1 as [|a l1 IH]; intros s; cbn [forEach app].
  - reflexivity.
  - unfold bind. destruct (processAgent E P agents ch cc a s) as [u s1].
    apply IH.
Qed.

Lemma forEach_at E P agents ch cc l i agent s :
  l !! i = Some agent ->
  forEach E P agents ch cc l s
  = forEach E P agents ch cc (drop (S i) l)
      (snd (processAgent E P agents ch cc agent
              (snd (forEach E P agents ch cc (take i l) s)))).
Proof.
  intros Hi. rewrite <- (take_drop_middle _ _ _ Hi) at 1.
  rewrite forEach_app. cbn [forEach]. unfold bind at 1.
  by destruct (processAgent _ _ _ _ _ agent _).
Qed.

(** The pass splits at the [i]-th agent. *)
Lemma pass_at E P w i agent :
  agentsRef w !! i = Some agent ->
  snd (pass E P w (startOfPass w))
  = snd (forEachOf E P w (drop (S i) (agentsRef w))
           (snd (survive (settledAt E P w i agent)
                         (testStateAt E P w i agent)))).
Proof.
  intros Hi. unfold pass, settledAt, testStateAt, advanceOf, stateAt, forEachOf, bind.
  destruct (spawnFood E P _ (startOfPass w)) as [u s0].
  rewrite (forEach_at _ _ _ _ _ _ _ _ _ Hi). unfold processAgent, bind.
  by destruct (advance _ _ _ _ _ agent _) as [a s1].
Qed.

Lemma keepsMarks_refl s : keepsMarks s s.
Proof. unfold keepsMarks. set_solver. Qed.

Lemma keepsMarks_trans s1 s2 s3 :
  keepsMarks s1 s2 -> keepsMarks s2 s3 -> keepsMarks s1 s3.
Proof. unfold keepsMarks. set_solver. Qed.

Ltac marks_side :=
  first
    [ exact keepsMarks_refl
    | exact keepsMarks_trans
    | exact (fun _ _ => I)
    | unfold steps, keepsMarks; intros; cbn; set_solver ].

Lemma keepsMarks_processAgent E P agents ch cc agent :
  steps keepsMarks (processAgent E P agents ch cc agent).
Proof.
  unfold processAgent. apply steps_bind.
  - exact keepsMarks_trans.
  - apply (steps_advance keepsMarks (fun _ => True)); marks_side.
  - intros a. apply (steps_survive keepsMarks (fun _ => True)); marks_side.
Qed.

Lemma keepsMarks_forEach E P agents ch cc l :
  steps keepsMarks (forEach E P agents ch cc l).
Proof.
  apply steps_forEach.
  - exact keepsMarks_refl.
  - exact keepsMarks_trans.
  - apply keepsMarks_processAgent.
Qed.

Lemma extends_In Q s s' a :
  extends Q s s' -> In a (updatedAgents s) -> In a (updatedAgents s').
Proof. intros (l & -> & _) H. apply in_or_app. by left. Qed.

Lemma fit_forEach E P agents ch cc l :
  steps (extends fit) (forEach E P agents ch cc l).
Proof.
  apply steps_forEach.
  - apply extends_refl.
  - apply extends_trans.
  - apply fit_processAgent.
Qed.

(** The survival test: either the agent is pushed, or one of the three
    reasons holds in the state the test runs in. *)
Lemma survive_cases a s :
  In a (updatedAgents (snd (survive a s)))
  \/ Agent.energy a <= 0 \/ Agent.age a >= 800
  \/ (Agent.type a = herbivore /\ Agent.id a ∈ eatenHerbivores (snd (survive a s))).
Proof.
  unfold survive. destruct (alive a) eqn:Ha.
  - unfold bind, hasEaten. cbn [fst snd].
    destruct (isType herbivore a) eqn:Ht; cbn [andb].
    + destruct (bool_decide _) eqn:Hd.
      * right; right; right. cbn. split.
        -- unfold isType in Ht. by destruct (Agent.type a).
        -- by apply bool_decide_eq_true in Hd.
      * left. cbn. apply in_or_app. right. by left.
    + left. cbn. apply in_or_app. right. by left.
  - cbn. apply alive_false in Ha. tauto.
Qed.

Lemma update_accounted E P w i agent :
  agentsRef w !! i = Some agent -> accounted E P w i agent.
Proof.
  intros Hi. unfold accounted, eatenBy, update. cbn [agentsRef].
  rewrite (pass_at E P w i agent Hi).
  pose proof (advance_settles E P (agentsRef w) (countType herbivore (agentsRef w))
                (countType carnivore (agentsRef w)) agent (stateAt E P w i)) as Hs.
  fold (advanceOf E P w) in Hs. fold (settledAt E P w i agent) in Hs.
  set (a := settledAt E P w i agent) in *.
  set (st := testStateAt E P w i agent).
  destruct (survive_cases a st) as [H | [H | [H | [Ht Hm]]]]; auto.
  - left. eapply extends_In; [ apply fit_forEach | exact H ].
  - right; right; right. split.
    + by rewrite <- (settles_type _ _ _ _ Hs).
    + rewrite <- (settles_id _ _ _ _ Hs). eapply keepsMarks_forEach. exact Hm.
Qed.

(** C4: every agent of the output of a tick has energy > 0 and age < 800,
    both read after the metabolism subtraction and the age increment; an
    agent of the input whose updated record is not in the output has
    energy <= 0 or age >= 800 there, or is a herbivore marked eaten during
    the tick; and an agent whose energy is at or below 0 after the
    metabolism subtraction is not in the output. *)
Theorem survival_law (E : Env) (P : Params) (w : World) :
  Forall viable (agentsRef (update E P w))
  /\ forall i agent, agentsRef w !! i = Some agent ->
       accounted E P w i agent
       /\ (Agent.energy (settledAt E P w i agent) <= 0 ->
           ~ In (settledAt E P w i agent) (agentsRef (update E P w))).
Proof.
  assert (Hv : Forall viable (agentsRef (update E P w))).
  { eapply List.Forall_impl; [ | apply update_fit ]. by intros a [Hv _]. }
  split; [exact Hv | ].
  intros i agent Hi. split.
  - by apply update_accounted.
  - intros He Hin. rewrite List.Forall_forall in Hv. apply Hv in Hin.
    destruct Hin as [Hpos _]. lra.
Qed.

(** The law at the herbivore of [preyFirst]. *)
Lemma survival_law_preyFirst :
  agentsRef preyFirst !! 0%nat = Some (creature herbivore 0 100 100 0 0 50)
  /\ accounted steady defaultParams preyFirst 0 (creature herbivore 0 100 100 0 0 50).
Proof.
  split; [reflexivity | ].
  exact (proj1 (proj2 (survival_law steady defaultParams preyFirst) 0%nat
                  (creature herbivore 0 100 100 0 0 50) eq_refl)).
Defined.

(** ** Counting one kind *)

Lemma countType_app t l1 l2 :
  countType t (l1 ++ l2) = (countType t l1 + countType t l2)%nat.
Proof. unfold countType. by rewrite List.filter_app, length_app. Qed.

Lemma countType_cons t a l :
  countType t (a :: l) = (countType t [a] + countType t l)%nat.
Proof. apply (countType_app t [a] l). Qed.

Lemma countType_none t l :
  Forall (fun a => Agent.type a <> t) l -> countType t l = 0%nat.
Proof.
  induction 1 as [|a l Ha _ IH]; [reflexivity | ].
  rewrite countType_cons, IH. unfold countType, isType. cbn.
  destruct (Agent.type a), t; cbn; congruence.
Qed.

Lemma countType_same t a b :
  Agent.type a = Agent.type b -> countType t [a] = countType t [b].
Proof.
  unfold countType, isType. cbn. intros ->.
  by destruct (AgentType_eqb (Agent.type b) t).
Qed.

Lemma survive_pushes a s :
  updatedAgents (snd (survive a s)) = updatedAgents s
  \/ updatedAgents (snd (survive a s)) = updatedAgents s ++ [a].
Proof.
  unfold survive. destruct (alive a); [ | by left ].
  unfold bind, hasEaten.
  destruct (isType herbivore a && bool_decide _); [by left | by right].
Qed.

Lemma processAgent_neutral E P agents ch cc agent s :
  (countType neutral (updatedAgents (snd (processAgent E P agents ch cc agent s)))
   <= countType neutral (updatedAgents s) + countType neutral [agent])%nat.
Proof.
  unfold processAgent, bind.
  pose proof (advance_settles E P agents ch cc agent s) as Hs.
  assert (He : extends notNeutral s (snd (advance E P agents ch cc agent s))).
  { apply extends_advance; intros; discriminate. }
  destruct (advance E P agents ch cc agent s) as [a s1]. cbn [fst snd] in *.
  destruct He as (l & Hl & Hn).
  apply settles_type in Hs.
  destruct (survive_pushes a s1) as [-> | ->];
    rewrite Hl, ?countType_app, (countType_none _ _ Hn),
      ?(countType_same neutral a agent Hs); lia.
Qed.

Lemma forEach_neutral E P agents ch cc l s :
  (countType neutral (updatedAgents (snd (forEach E P agents ch cc l s)))
   <= countType neutral (updatedAgents s) + countType neutral l)%nat.
Proof.
  revert s. induction l as [|agent l IH]; intros s; cbn [forEach].
  - cbn. lia.
  - unfold bind.
    pose proof (processAgent_neutral E P agents ch cc agent s) as Hp.
    destruct (processAgent E P agents ch cc agent s) as [u s1].
    cbn [snd] in Hp. specialize (IH s1).
    rewrite (countType_cons _ agent l). lia.
Qed.

(** C9: the number of neutral agents in the output of a tick is at most
    their number in the input. *)
Theorem neutral_never_increases (E : Env) (P : Params) (w : World) :
  (countType neutral (agentsRef (update E P w))
   <= countType neutral (agentsRef w))%nat.
Proof.
  unfold update, pass, forEachOf, bind. cbn [agentsRef].
  destruct (extends_spawnFood notNeutral E P
              (countType herbivore (agentsRef w)) (startOfPass w))
    as (l0 & Hl0 & Hn0).
  destruct (spawnFood E P _ (startOfPass w)) as [u s0]. cbn [snd] in *.
  etransitivity; [apply forEach_neutral | ].
  rewrite Hl0. cbn [startOfPass updatedAgents app].
  rewrite (countType_none _ _ Hn0). lia.
Qed.

(** ** Sizes *)

Lemma initialAgents_size E n i k :
  Forall (fun a => Agent.size a = 5) (fst (initialAgents E n i k)).
Proof.
  revert i k. induction n as [|n IH]; intros i k; cbn [initialAgents].
  - constructor.
  - specialize (IH (S i) (k + initialDraws (initialAgent E i k))%nat).
    destruct (initialAgents E n _ _) as [rest k'].
    constructor; [reflexivity | exact IH].
Qed.

Lemma initializeWorld_size E n :
  Forall (fun a => Agent.size a = 5) (agentsRef (initializeWorld E n)).
Proof.
  unfold initializeWorld.
  pose proof (initialAgents_size E INITIAL_AGENTS 0 0) as H.
  destruct (initialAgents E INITIAL_AGENTS 0 0) as [l k]. exact H.
Qed.

(** ** Evaluating comparisons *)

Lemma hypot_nonneg a b : 0 <= hypot a b.
Proof. apply sqrt_pos. Qed.

Lemma hypot_sqr a b : hypot a b * hypot a b = a * a + b * b.
Proof. unfold hypot. apply sqrt_sqrt. nra. Qed.

Lemma hypot_eq a b v : 0 <= v -> a * a + b * b = v * v -> hypot a b = v.
Proof.
  intros Hv H. unfold hypot. rewrite H. by apply sqrt_square.
Qed.

Lemma hypot_axis_pos a b : b = 0 -> 0 <= a -> hypot a b = a.
Proof. intros -> Ha. apply hypot_eq; [done | ring]. Qed.

Lemma hypot_axis_neg a b : b = 0 -> a <= 0 -> hypot a b = - a.
Proof. intros -> Ha. apply hypot_eq; [lra | ring]. Qed.

Lemma hypot_lt a b c : 0 < c -> a * a + b * b < c * c -> hypot a b < c.
Proof.
  intros Hc H. pose proof (hypot_nonneg a b). pose proof (hypot_sqr a b). nra.
Qed.

Lemma hypot_ge a b c : c * c <= a * a + b * b -> c <= hypot a b.
Proof.
  intros H. pose proof (hypot_nonneg a b). pose proof (hypot_sqr a b). nra.
Qed.

Lemma orOne_nz d : d <> 0 -> orOne d = d.
Proof. intros H. unfold orOne. by destruct (Req_dec_T d 0). Qed.

Lemma orOne_z d : d = 0 -> orOne d = 1.
Proof. intros H. unfold orOne. by destruct (Req_dec_T d 0). Qed.

(** ** Running a scenario

    [update] on a closed world is unfolded step by step; each comparison
    it meets is settled by arithmetic, each [hypot] that is a rational is
    replaced by its value. *)

Ltac expose :=
  cbv beta iota zeta delta
    [update pass forEachOf forEach processAgent advance steer seekFood fleeHunters
     hunt avoidFood drift jitter move capVelocity impulse minSpeedKick stuckNudge
     bounceAxis graze grazes herbivoreReproduce herbivoreChild prey_on catches
     carnivoreReproduce carnivoreChild settle respread burn starvationFactor
     sizeFromEnergy survive alive spawnFood scarcityBoost startOfPass
     adjustedSpeed maxVelOf nearest nearestFood nearestAgent findIndex
     bind ret random getFood setFood pushFood pushAgent addEaten hasEaten
     getSpawnedHerbivores incrSpawnedHerbivores freshId
     isType AgentType_eqb countType List.filter List.find fold_left length app
     Nat.ltb Nat.leb Nat.eqb andb orb negb fst snd option_map
     default from_option Datatypes.id
     defaultParams map seq Nat.add stateAt settledAt testStateAt advanceOf eatenBy take
     list_delete
     agentsRef foodRef historyRef nextIdRef
     rng food updatedAgents eatenHerbivores spawnedHerbivores nextId
     mathRandom dateNow
     herbivoreSpeed carnivoreSpeed foodSpawnRate timeScale carnivoreMetabolismScale
     carnivoreCatchRadius carnivoreReproThreshold maxCarnivores
     herbivoreReproThreshold maxHerbivores
     Agent.id Agent.x Agent.y Agent.dx Agent.dy Agent.energy Agent.age Agent.speed
     Agent.vision Agent.size Agent.type Agent.reproCooldown Agent.metabolism
     Agent.lastAteTicks Agent.seedCooldown Agent.stuckTicks
     Food.id Food.x Food.y
     WORLD_WIDTH WORLD_HEIGHT MAX_CARNIVORES_DEFAULT MAX_HERBIVORES_DEFAULT Rgtb].

(** The rational value of a closed arithmetic term, and the literal that
    denotes a rational. *)
Ltac qval t :=
  lazymatch t with
  | Rplus ?a ?b => let u := qval a in let v := qval b in constr:(Qplus u v)
  | Rminus ?a ?b => let u := qval a in let v := qval b in constr:(Qminus u v)
  | Rmult ?a ?b => let u := qval a in let v := qval b in constr:(Qmult u v)
  | Rdiv ?a ?b => let u := qval a in let v := qval b in constr:(Qdiv u v)
  | Ropp ?a => let u := qval a in constr:(Qopp u)
  | IZR ?z => constr:(inject_Z z)
  | Q2R ?q => constr:(q)
  | INR ?n => constr:(inject_Z (Z.of_nat n))
  end.

Ltac literal q :=
  let q' := eval vm_compute in (Qred q) in
  lazymatch q' with
  | Qmake ?n 1%positive => constr:(IZR n)
  | _ => constr:(Q2R q')
  end.

(** The literal [hypot a b] equals, when the sum of squares is the square
    of a rational. *)
Ltac hypot_value a b :=
  let u := qval a in
  let v := qval b in
  let q := eval vm_compute in (Qred (Qplus (Qmult u u) (Qmult v v))) in
  lazymatch q with
  | Qmake ?n ?d =>
      let rn := eval vm_compute in (Z.sqrt n) in
      let rd := eval vm_compute in (Z.sqrt (Zpos d)) in
      let ok := eval vm_compute in
        (andb (Z.eqb (rn * rn) n) (Z.eqb (rd * rd) (Zpos d))) in
      lazymatch ok with
      | true => literal (Qdiv (inject_Z rn) (inject_Z rd))
      end
  end.

Ltac settle_hypot :=
  match goal with
  | |- context [hypot ?a ?b] =>
      let v := hypot_value a b in
      replace (hypot a b) with v by (symmetry; apply hypot_eq; lra)
  | |- context [orOne ?d] =>
      first [ rewrite (orOne_nz d) by lra | rewrite (orOne_z d) by lra ]
  | |- context [Rabs ?a] =>
      first [ rewrite (Rabs_pos_eq a) by lra | rewrite (Rabs_left1 a) by lra ]
  | |- context [Rmax ?a ?b] =>
      first [ rewrite (Rmax_left a b) by lra | rewrite (Rmax_right a b) by lra ]
  | |- context [Rmin ?a ?b] =>
      first [ rewrite (Rmin_left a b) by lra | rewrite (Rmin_right a b) by lra ]
  | |- context [INR ?n] =>
      let z := eval vm_compute in (Z.of_nat n) in
      replace (INR n) with (IZR z) by (rewrite INR_IZR_INZ; reflexivity)
  | |- context [bool_decide (?i ∈ ?X)] =>
      first [ rewrite (bool_decide_eq_true_2 (i ∈ X)) by set_solver
            | rewrite (bool_decide_eq_false_2 (i ∈ X)) by set_solver ]
  end.

Ltac cmp_R := first [ lra | apply hypot_lt; lra | apply hypot_ge; lra ].

Ltac settle_cmp :=
  match goal with
  | |- context [Rltb ?a ?b] =>
      first [ rewrite (proj2 (Rltb_true_iff a b)) by cmp_R
            | rewrite (proj2 (Rltb_false_iff a b)) by cmp_R ]
  | |- context [Rleb ?a ?b] =>
      first [ rewrite (proj2 (Rleb_true_iff a b)) by cmp_R
            | rewrite (proj2 (Rleb_false_iff a b)) by cmp_R ]
  end.

Ltac run := expose; repeat (first [settle_hypot | settle_cmp]; expose).

Ltac literals := repeat (f_equal; try lra).

(** A meal: the herbivore gains 35, pays its metabolism, and the item is
    gone. *)
Lemma oneGrazer_run :
  map vitals (agentsRef (update steady defaultParams oneGrazer))
  = [(0%nat, herbivore, 84.951)]
  /\ foodRef (update steady defaultParams oneGrazer) = [].
Proof.
  split; cbv delta [oneGrazer arena creature steady vitals]; run;
    [literals | reflexivity].
Qed.

Lemma preyFirst_run :
  map vitals (agentsRef (update steady defaultParams preyFirst))
  = [(0%nat, herbivore, 49.951); (1%nat, carnivore, 99.902)].
Proof. cbv delta [preyFirst arena creature steady vitals]. run. literals. Qed.

Lemma preyFirst_eaten : 0%nat ∈ eatenBy steady defaultParams preyFirst.
Proof. cbv delta [preyFirst arena creature steady]. run. set_solver. Qed.

Lemma preyLast_run :
  map vitals (agentsRef (update steady defaultParams preyLast))
  = [(1%nat, carnivore, 99.902)].
Proof. cbv delta [preyLast arena creature steady vitals]. run. literals. Qed.

Lemma sharedPrey_run :
  map vitals (agentsRef (update steady defaultParams sharedPrey))
  = [(0%nat, carnivore, 99.902); (1%nat, carnivore, 99.902)].
Proof. cbv delta [sharedPrey arena creature steady vitals]. run. literals. Qed.

Lemma markedParent_run :
  map vitals (agentsRef (update steady defaultParams markedParent))
  = [(0%nat, carnivore, 99.902); (100%nat, herbivore, 35)].
Proof. cbv delta [markedParent arena creature steady vitals]. run. literals. Qed.

Lemma markedParent_eaten : 1%nat ∈ eatenBy steady defaultParams markedParent.
Proof. cbv delta [markedParent arena creature steady]. run. set_solver. Qed.

Lemma edgeParent_run :
  map (fun a => (Agent.id a, Agent.x a)) (agentsRef (update gust defaultParams edgeParent))
  = [(100%nat, -2.7); (0%nat, 1.3)].
Proof. cbv delta [edgeParent arena creature gust]. run. literals. Qed.

(** ** What steering reads *)

Lemma respects_ret {A} (a : A) : respects (ret a).
Proof. intros s1 s2 H. by split. Qed.

Lemma respects_bind {A B} (m : M A) (k : A -> M B) :
  respects m -> (forall a, respects (k a)) -> respects (bind m k).
Proof.
  intros Hm Hk s1 s2 H. unfold bind. destruct (Hm s1 s2 H) as [Hf Hs].
  destruct (m s1) as [a1 t1], (m s2) as [a2 t2]. cbn in Hf, Hs. subst a2.
  by apply Hk.
Qed.

Lemma respects_random E : respects (random E).
Proof. intros s1 s2 [Hf Hr]. unfold random, agree; cbn. by rewrite Hr, Hf. Qed.

Lemma respects_getFood : respects getFood.
Proof. intros s1 s2 [Hf Hr]. by unfold getFood, agree; cbn. Qed.

Lemma respects_setFood fs : respects (setFood fs).
Proof. intros s1 s2 [Hf Hr]. by unfold setFood, agree; cbn. Qed.

Lemma respects_pushFood f : respects (pushFood f).
Proof. intros s1 s2 [Hf Hr]. unfold pushFood, setFood, agree; cbn. by rewrite Hf. Qed.

Ltac reads_with leaf :=
  repeat first
    [ leaf
    | lazymatch goal with
      | |- respects (ret _) => apply respects_ret
      | |- respects (bind _ _) => apply respects_bind; [ | intros ? ]
      | |- respects (random _) => apply respects_random
      | |- respects getFood => apply respects_getFood
      | |- respects (setFood _) => apply respects_setFood
      | |- respects (pushFood _) => apply respects_pushFood
      | |- respects (match ?x with _ => _ end) => destruct x
      end ].

Lemma respects_jitter E k dx dy : respects (jitter E k dx dy).
Proof. unfold jitter. reads_with fail. Qed.

Lemma respects_hunt E agents agent dx dy : respects (hunt E agents agent dx dy).
Proof. unfold hunt.
  reads_with ltac:(idtac; lazymatch goal with
                   | |- respects (jitter _ _ _ _) => apply respects_jitter
                   end). Qed.

Lemma respects_drift E agent dx dy energy : respects (drift E agent dx dy energy).
Proof. unfold drift.
  reads_with ltac:(idtac; lazymatch goal with
                   | |- respects (jitter _ _ _ _) => apply respects_jitter
                   end). Qed.

Lemma respects_steer E agents agent : respects (steer E agents agent).
Proof.
  unfold steer.
  reads_with ltac:(idtac; lazymatch goal with
                   | |- respects (jitter _ _ _ _) => apply respects_jitter
                   | |- respects (hunt _ _ _ _ _) => apply respects_hunt
                   | |- respects (drift _ _ _ _ _) => apply respects_drift
                   end).
Qed.

(** C5, as the code has it: the steering of the [i]-th agent reads the
    agent set of the start of the tick, the random source, and the food
    set as it stands when the agent is processed (after the food spawn,
    the seeds and the meals of the agents before it); it reads nothing
    else of the pass in progress. *)
Theorem steering_reads_current_food (E : Env) (P : Params) (w : World)
    (i : nat) (agent : Agent.t) :
  steeringAt E P w i agent
  = fst (steer E (agentsRef w) agent (perceived (stateAt E P w i))).
Proof.
  unfold steeringAt. apply respects_steer. by split.
Qed.

(** C5 as stated (steering reads the food set of the start of the tick,
    so the steering of an agent does not depend on the iteration order)
    fails: in [twoGrazers] the first herbivore eats the only food item, and
    the second one, which would head for it, no longer sees it; processed
    first, in [twoGrazersSwapped], the same herbivore does head for it. *)
Lemma steering_misses_eaten_food :
  steeringAt steady defaultParams twoGrazers 1 (creature herbivore 1 110 100 0 0 50)
  <> steeringFromSnapshot steady defaultParams twoGrazers 1
       (creature herbivore 1 110 100 0 0 50)
  /\ steeringAt steady defaultParams twoGrazers 1
       (creature herbivore 1 110 100 0 0 50)
     <> steeringAt steady defaultParams twoGrazersSwapped 0
          (creature herbivore 1 110 100 0 0 50).
Proof.
  assert (H1 : steeringAt steady defaultParams twoGrazers 1
                 (creature herbivore 1 110 100 0 0 50)
               = (0, 0, false, 50, None)).
  { unfold steeringAt. cbv delta [twoGrazers morsel arena creature steady].
    run. literals. }
  assert (H2 : steeringFromSnapshot steady defaultParams twoGrazers 1
                 (creature herbivore 1 110 100 0 0 50)
               = (-0.45, 0, true, 50, None)).
  { unfold steeringFromSnapshot, withFood.
    cbv delta [twoGrazers morsel arena creature steady]. run. literals. }
  assert (H3 : steeringAt steady defaultParams twoGrazersSwapped 0
                 (creature herbivore 1 110 100 0 0 50)
               = (-0.45, 0, true, 50, None)).
  { unfold steeringAt.
    cbv delta [twoGrazersSwapped morsel arena creature steady]. run. literals. }
  rewrite H1, H2, H3. split; intros H; discriminate H.
Qed.

(** C8: every unit-vector computation of the steering divides by a
    distance guarded against zero.  The code departs from it in the
    acceleration of a herbivore toward its nearest food: for a herbivore
    standing on a food item the branch is taken (pursuing is set) and the
    divisor is the distance itself, 0; the other headings divide by
    [orOne d], which is never 0. *)
Theorem food_heading_divides_by_zero :
  nearestFood 100 100 [crumb] = Some crumb
  /\ hypot (Food.x crumb - 100) (Food.y crumb - 100) = 0
  /\ seekFood [crumb] (creature herbivore 0 100 100 0 0 50) 0 0
     = (0 + (100 - 100) / 0 * 0.45, 0 + (100 - 100) / 0 * 0.45, true)
  /\ forall d, orOne d <> 0.
Proof.
  split; [reflexivity | ]. split.
  { cbv delta [crumb]. cbn. apply hypot_eq; lra. }
  split.
  { unfold seekFood. cbv delta [crumb creature]. expose.
    replace (hypot (100 - 100) (100 - 100)) with 0 by (symmetry; apply hypot_eq; lra).
    rewrite (proj2 (Rltb_true_iff 0 50)) by lra. reflexivity. }
  intros d. unfold orOne. destruct (Req_dec_T d 0); lra.
Qed.

(** ** Meals

    A meal takes its item out of the shared food list, so no agent
    processed later in the tick finds it again. *)

Lemma graze_consumes x y energy lastAteTicks s :
  match findIndex (grazes x y) (food s) with
  | Some i =>
      fst (graze x y energy lastAteTicks s) = (energy + 35, 0)
      /\ food (snd (graze x y energy lastAteTicks s)) = delete i (food s)
  | None => graze x y energy lastAteTicks s = ((energy, lastAteTicks), s)
  end.
Proof.
  unfold graze, bind, getFood. by destruct (findIndex (grazes x y) (food s)).
Qed.

Lemma findIndex_bound {A} (f : A -> bool) (l : list A) i :
  findIndex f l = Some i -> (i < length l)%nat.
Proof.
  revert i. induction l as [|a l IH]; intros i; cbn; [discriminate | ].
  destruct (f a); [intros [= <-]; lia | ].
  destruct (findIndex f l) as [j|]; cbn; [ | discriminate ].
  intros [= <-]. specialize (IH j eq_refl). lia.
Qed.

Lemma graze_takes_one x y energy lastAteTicks s :
  fst (fst (graze x y energy lastAteTicks s)) = energy
  \/ S (length (food (snd (graze x y energy lastAteTicks s)))) = length (food s).
Proof.
  pose proof (graze_consumes x y energy lastAteTicks s) as H.
  destruct (findIndex (grazes x y) (food s)) as [i|] eqn:Hi.
  - right. destruct H as [_ ->]. apply findIndex_bound in Hi.
    rewrite length_delete; [lia | by apply lookup_lt_is_Some_2].
  - left. by rewrite H.
Qed.

(** ** The herbivore cap *)

Lemma quiet_refl s : quiet s s.
Proof. by split. Qed.

Lemma quiet_trans s1 s2 s3 : quiet s1 s2 -> quiet s2 s3 -> quiet s1 s3.
Proof. intros [H1 H2] [H3 H4]. split; congruence. Qed.

Lemma rationed_quiet ch cap s s' : quiet s s' -> rationed ch cap 0 s s'.
Proof. intros [H1 H2]. unfold rationed. rewrite H1, H2. lia. Qed.

Lemma rationed_trans ch cap n m s1 s2 s3 :
  rationed ch cap n s1 s2 -> rationed ch cap m s2 s3 ->
  rationed ch cap (n + m) s1 s3.
Proof. unfold rationed. intros (H1 & H2 & H3) (H4 & H5 & H6). lia. Qed.

Lemma herbivoreReproduce_rationed E P ch cap agent x y dx dy energy rc s :
  maxHerbivores P = INR cap ->
  rationed ch cap 0 s (snd (herbivoreReproduce E P ch agent x y dx dy energy rc s)).
Proof.
  intros Hcap. unfold herbivoreReproduce, bind, getSpawnedHerbivores.
  destruct (_ && _) eqn:Hg; [ | by apply rationed_quiet ].
  apply andb_true_iff in Hg as [_ Hg]. apply Rltb_true_iff in Hg.
  rewrite Hcap in Hg. apply INR_lt in Hg.
  unfold rationed. cbn -[countType]. rewrite countType_app.
  replace (countType herbivore [herbivoreChild _ _ _ _ _ _ _ _ _ _ _ _])
    with 1%nat by reflexivity.
  lia.
Qed.

Lemma carnivoreReproduce_rationed E P ch cc cap agent x y dx dy energy rc s :
  rationed ch cap 0 s (snd (carnivoreReproduce E P cc agent x y dx dy energy rc s)).
Proof.
  unfold carnivoreReproduce, bind.
  destruct (_ && _); [ | by apply rationed_quiet ].
  unfold rationed. cbn -[countType]. rewrite countType_app.
  replace (countType herbivore [carnivoreChild _ _ _ _ _ _ _ _ _ _ _ _])
    with 0%nat by reflexivity.
  lia.
Qed.

Lemma advance_rationed E P agents ch cc cap agent s :
  maxHerbivores P = INR cap ->
  rationed ch cap 0 s (snd (advance E P agents ch cc agent s)).
Proof.
  intros Hcap.
  assert (Hrandom : forall E', steps quiet (random E')) by (by intros E' t).
  assert (HsetFood : forall fs, steps quiet (setFood fs)) by (by intros fs t).
  assert (HaddEaten : forall i, steps quiet (addEaten i)) by (by intros i t).
  unfold advance, bind.
  pose proof (steps_steer quiet quiet_refl quiet_trans Hrandom HsetFood E agents agent s) as H1.
  destruct (steer E agents agent s) as [[[[[dx dy] pursuing] energy] sc] s1].
  pose proof (steps_move quiet quiet_refl quiet_trans Hrandom E P agent dx dy s1) as H2.
  destruct (move E P agent dx dy s1) as [[[[[x y] dx'] dy'] st] s2].
  cbn [fst snd] in *.
  assert (H12 : rationed ch cap 0 s s2)
    by (apply rationed_quiet; by eapply quiet_trans).
  destruct (Agent.type agent).
  - pose proof (steps_prey_on quiet quiet_refl quiet_trans HaddEaten P agents x y
                  energy (default 0 (Agent.lastAteTicks agent)) s2) as H3.
    destruct (prey_on P agents x y energy _ s2) as [[e3 la3] s3].
    pose proof (carnivoreReproduce_rationed E P ch cc cap agent x y dx' dy' e3
                  (default 0 (Agent.reproCooldown agent)) s3) as H4.
    destruct (carnivoreReproduce E P cc agent x y dx' dy' e3 _ s3) as [[e4 rc4] s4].
    cbn [fst snd ret] in *.
    apply (rationed_trans ch cap 0 0 s s2 s4 H12).
    apply (rationed_trans ch cap 0 0 s2 s3 s4); [by apply rationed_quiet | exact H4].
  - pose proof (steps_graze quiet quiet_refl quiet_trans HsetFood x y energy
                  (default 0 (Agent.lastAteTicks agent)) s2) as H3.
    destruct (graze x y energy _ s2) as [[e3 la3] s3].
    pose proof (herbivoreReproduce_rationed E P ch cap agent x y dx' dy' e3
                  (default 0 (Agent.reproCooldown agent)) s3 Hcap) as H4.
    destruct (herbivoreReproduce E P ch agent x y dx' dy' e3 _ s3) as [[e4 rc4] s4].
    cbn [fst snd ret] in *.
    apply (rationed_trans ch cap 0 0 s s2 s4 H12).
    apply (rationed_trans ch cap 0 0 s2 s3 s4); [by apply rationed_quiet | exact H4].
  - cbn [fst snd ret]. exact H12.
Qed.

Lemma processAgent_rationed E P agents ch cc cap agent s :
  maxHerbivores P = INR cap ->
  rationed ch cap (countType herbivore [agent]) s
    (snd (processAgent E P agents ch cc agent s)).
Proof.
  intros Hcap. unfold processAgent, bind.
  pose proof (advance_settles E P agents ch cc agent s) as Hs.
  pose proof (advance_rationed E P agents ch cc cap agent s Hcap) as Ha.
  destruct (advance E P agents ch cc agent s) as [a s1]. cbn [fst snd] in *.
  apply settles_type in Hs.
  replace (countType herbivore [agent]) with (0 + countType herbivore [agent])%nat by lia.
  apply (rationed_trans ch cap _ _ s s1 _ Ha).
  assert (Hsp : spawnedHerbivores (snd (survive a s1)) = spawnedHerbivores s1).
  { unfold survive. destruct (alive a); [ | reflexivity ].
    unfold bind, hasEaten. by destruct (_ && _). }
  unfold rationed. rewrite Hsp.
  destruct (survive_pushes a s1) as [-> | ->];
    rewrite ?countType_app, ?(countType_same herbivore a agent Hs); lia.
Qed.

Lemma forEach_rationed E P agents ch cc cap l s :
  maxHerbivores P = INR cap ->
  rationed ch cap (countType herbivore l) s (snd (forEach E P agents ch cc l s)).
Proof.
  intros Hcap. revert s. induction l as [|agent l IH]; intros s; cbn [forEach].
  - apply rationed_quiet, quiet_refl.
  - unfold bind.
    pose proof (processAgent_rationed E P agents ch cc cap agent s Hcap) as Hp.
    destruct (processAgent E P agents ch cc agent s) as [u s1]. cbn [snd] in Hp.
    rewrite (countType_cons herbivore agent l).
    eapply rationed_trans; [exact Hp | apply IH].
Qed.

(** The herbivore half of the population cap: with a whole cap that the
    input respects, the output respects it too. *)
Lemma herbivores_within_cap E P w cap :
  maxHerbivores P = INR cap ->
  (countType herbivore (agentsRef w) <= cap)%nat ->
  (countType herbivore (agentsRef (update E P w)) <= cap)%nat.
Proof.
  intros Hcap Hw. unfold update, pass, forEachOf, bind. cbn [agentsRef].
  assert (H0 : quiet (startOfPass w)
                 (snd (spawnFood E P (countType herbivore (agentsRef w)) (startOfPass w)))).
  { apply (steps_spawnFood quiet quiet_refl quiet_trans); by intros ? t. }
  destruct (spawnFood E P _ (startOfPass w)) as [u s0]. cbn [snd] in *.
  destruct H0 as [Hu Hsp]. cbn in Hu, Hsp.
  destruct (forEach_rationed E P (agentsRef w) (countType herbivore (agentsRef w))
              (countType carnivore (agentsRef w)) cap (agentsRef w) s0 Hcap)
    as (H1 & H2 & H3).
  rewrite Hu, Hsp in *. cbn in H1. lia.
Qed.

(** ** The carnivore cap *)

(** Every member of the pack splits, whatever was spawned before it. *)
Lemma packStep_spawns i s :
  food s = [] ->
  exists child parent,
    Agent.type child = carnivore /\ Agent.type parent = carnivore
    /\ food (snd (packStep i s)) = []
    /\ updatedAgents (snd (packStep i s))
       = (updatedAgents s ++ [child]) ++ [parent].
Proof.
  destruct s as [r f u e sp n]. cbn [food updatedAgents]. intros ->.
  eexists _, _. split; [ | split; [ | split ] ]; cycle 3.
  - unfold packStep. cbv delta [pack packMember arena creature steady capped].
    run. reflexivity.
  - reflexivity.
  - reflexivity.
  - unfold packStep. cbv delta [pack packMember arena creature steady capped].
    run. reflexivity.
Qed.

Lemma pack_forEach l s :
  food s = [] ->
  let s' := snd (forEachOf steady capped pack (map packMember l) s) in
  food s' = []
  /\ countType carnivore (updatedAgents s')
     = (countType carnivore (updatedAgents s) + 2 * length l)%nat.
Proof.
  revert s. induction l as [|i l IH]; intros s Hf; cbn [map].
  - cbn. split; [exact Hf | lia].
  - unfold forEachOf in *. cbn [forEach]. unfold bind.
    destruct (packStep_spawns i s Hf) as (c & p & Hc & Hp & Hf1 & Hu).
    unfold packStep in *.
    destruct (processAgent _ _ _ _ _ (packMember i) s) as [u s1].
    cbn [snd] in *. destruct (IH s1 Hf1) as [IH1 IH2].
    split; [exact IH1 | ]. cbn zeta in *. rewrite IH2, Hu, !countType_app.
    replace (countType carnivore [c]) with 1%nat
      by (unfold countType, isType; cbn; by rewrite Hc).
    replace (countType carnivore [p]) with 1%nat
      by (unfold countType, isType; cbn; by rewrite Hp).
    cbn [length]. lia.
Qed.

(** C3: after a tick the number of carnivores never exceeds
    [maxCarnivores].  The code departs from it: the carnivore test counts
    the carnivores of the start of the tick only, so under a cap of 20
    every one of 19 energetic carnivores splits and the output holds 38. *)
Theorem carnivores_exceed_cap :
  maxCarnivores capped = 20
  /\ countType carnivore (agentsRef pack) = 19%nat
  /\ countType carnivore (agentsRef (update steady capped pack)) = 38%nat.
Proof.
  split; [reflexivity | ]. split; [reflexivity | ].
  unfold update, pass, bind. cbn [agentsRef].
  assert (Hs : spawnFood steady capped (countType herbivore (agentsRef pack))
                 (startOfPass pack)
               = (tt, {| rng := 1; food := []; updatedAgents := [];
                         eatenHerbivores := ∅; spawnedHerbivores := 0;
                         nextId := 100 |})).
  { cbv delta [pack packMember arena creature steady capped]. run. reflexivity. }
  rewrite Hs.
  destruct (pack_forEach (seq 0 19)
              {| rng := 1; food := []; updatedAgents := [];
                 eatenHerbivores := ∅; spawnedHerbivores := 0;
                 nextId := 100 |} eq_refl) as [_ H].
  cbn zeta in H. unfold pack at 2. cbn [agentsRef arena].
  rewrite H. reflexivity.
Qed.

(** ** Speeds *)

Lemma hypot_le a b v : 0 <= v -> a * a + b * b <= v * v -> hypot a b <= v.
Proof.
  intros Hv H. pose proof (hypot_nonneg a b). pose proof (hypot_sqr a b). nra.
Qed.

Lemma hypot_triangle a b c d : hypot (a + c) (b + d) <= hypot a b + hypot c d.
Proof.
  pose proof (hypot_nonneg a b) as Hp. pose proof (hypot_sqr a b) as Hp2.
  pose proof (hypot_nonneg c d) as Hq. pose proof (hypot_sqr c d) as Hq2.
  apply hypot_le; [lra | ].
  assert (Hcs : a * c + b * d <= hypot a b * hypot c d).
  { assert (Hpq : 0 <= hypot a b * hypot c d) by (apply Rmult_le_pos; lra).
    destruct (Rle_dec (a * c + b * d) 0) as [Hn | Hn]; [lra | ].
    assert (Hsq : (a * c + b * d) * (a * c + b * d)
                  <= (hypot a b * hypot c d) * (hypot a b * hypot c d)).
    { replace ((hypot a b * hypot c d) * (hypot a b * hypot c d))
        with ((hypot a b * hypot a b) * (hypot c d * hypot c d)) by ring.
      rewrite Hp2, Hq2.
      pose proof (Rle_0_sqr (a * d - b * c)) as Hd. unfold Rsqr in Hd. nra. }
    apply Rnot_le_lt in Hn.
    destruct (Rle_dec (a * c + b * d) (hypot a b * hypot c d)) as [|Hgt]; [done | ].
    apply Rnot_le_lt in Hgt. nra. }
  nra.
Qed.

Lemma hypot_abs a b : hypot (Rabs a) (Rabs b) = hypot a b.
Proof.
  unfold hypot. f_equal.
  rewrite <- (Rabs_mult a a), <- (Rabs_mult b b).
  rewrite !Rabs_pos_eq; nra.
Qed.

Lemma hypot_mono a b a' b' :
  Rabs a <= a' -> Rabs b <= b' -> hypot a b <= hypot a' b'.
Proof.
  intros Ha Hb. rewrite <- (hypot_abs a b).
  pose proof (Rabs_pos a). pose proof (Rabs_pos b).
  unfold hypot. apply sqrt_le_1_alt. nra.
Qed.

Lemma hypot_nudged a b a' b' c :
  0 <= c -> Rabs a' <= Rabs a + c -> Rabs b' <= Rabs b + c ->
  hypot a' b' <= hypot a b + hypot c c.
Proof.
  intros Hc Ha Hb.
  etransitivity; [ apply (hypot_mono _ _ _ _ Ha Hb) | ].
  rewrite <- (hypot_abs a b). apply hypot_triangle.
Qed.

Lemma hypot_polar t k : 0 <= k -> hypot (cos t * k) (sin t * k) = k.
Proof.
  intros Hk. apply hypot_eq; [done | ].
  pose proof (sin2_cos2 t) as H. unfold Rsqr in H. nra.
Qed.

Lemma capVelocity_bound m dx dy :
  0 < m ->
  hypot (fst (capVelocity m (hypot dx dy) dx dy))
        (snd (capVelocity m (hypot dx dy) dx dy)) <= m.
Proof.
  intros Hm. unfold capVelocity, Rgtb.
  destruct (m <? hypot dx dy) eqn:Hc; cbn [fst snd].
  - apply Rltb_true_iff in Hc.
    pose proof (hypot_sqr dx dy) as Hs.
    apply hypot_le; [lra | ].
    replace (dx / hypot dx dy * m * (dx / hypot dx dy * m)
             + dy / hypot dx dy * m * (dy / hypot dx dy * m))
      with ((dx * dx + dy * dy) / (hypot dx dy * hypot dx dy) * (m * m))
      by (field; lra).
    rewrite <- Hs. right. field. lra.
  - apply Rltb_false_iff in Hc. exact Hc.
Qed.

Lemma impulse_bound E k dx dy s :
  0 <= k ->
  hypot (fst (fst (impulse E k dx dy s))) (snd (fst (impulse E k dx dy s)))
  <= hypot dx dy + k.
Proof.
  intros Hk. unfold impulse, bind, random, ret. cbn [fst snd].
  etransitivity; [apply hypot_triangle | ]. rewrite hypot_polar; lra.
Qed.

Lemma bounceAxis_bound w x dx :
  2 <= w -> Rabs (snd (bounceAxis w x dx)) <= Rabs dx + 0.2.
Proof.
  intros Hw. unfold bounceAxis.
  assert (Hr : Rabs (if (x <? 0) || (x >? w) then - dx else dx) = Rabs dx).
  { destruct ((x <? 0) || (x >? w)); [apply Rabs_Ropp | reflexivity]. }
  set (d := if (x <? 0) || (x >? w) then - dx else dx) in *.
  pose proof (Rabs_pos d). unfold Rgtb.
  destruct (x <? 1) eqn:H1.
  - rewrite (proj2 (Rltb_false_iff (w - 1) 1)) by lra. cbn [snd].
    rewrite Rabs_pos_eq; lra.
  - destruct (w - 1 <? x); cbn [snd].
    + replace (- Rabs d - 0.2) with (- (Rabs d + 0.2)) by ring.
      rewrite Rabs_Ropp, Rabs_pos_eq; lra.
    + lra.
Qed.

Lemma maxVelOf_pos t : 2.5 <= maxVelOf t.
Proof. destruct t; cbn; lra. Qed.

Lemma minSpeedKick_bound E m dx0 dy0 s :
  0.43 <= m ->
  let v := capVelocity m (hypot dx0 dy0) dx0 dy0 in
  let r := fst (minSpeedKick E (hypot dx0 dy0) (fst v) (snd v) s) in
  hypot (fst r) (snd r) <= m.
Proof.
  intros Hm v r. subst r. unfold minSpeedKick.
  destruct (hypot dx0 dy0 <? 0.08) eqn:Hk.
  - apply Rltb_true_iff in Hk.
    etransitivity; [apply impulse_bound; lra | ].
    subst v. unfold capVelocity, Rgtb.
    rewrite (proj2 (Rltb_false_iff m (hypot dx0 dy0))) by lra.
    cbn [fst snd]. lra.
  - cbn [fst snd ret]. apply capVelocity_bound. lra.
Qed.

Lemma stuckNudge_bound E spd st dx dy s :
  let r := fst (stuckNudge E spd st dx dy s) in
  hypot (fst (fst r)) (snd (fst r)) <= hypot dx dy + 1.
Proof.
  unfold stuckNudge.
  destruct (_ >? 60).
  - pose proof (impulse_bound E 1.0 dx dy s) as H.
    unfold bind. destruct (impulse E 1.0 dx dy s) as [[dx' dy'] s'].
    cbn [fst snd ret] in *. lra.
  - cbn [fst snd ret]. lra.
Qed.

(** The speed [move] leaves: the cap, then at most the impulse and the
    two inward nudges. *)
Lemma move_speed E P agent dx dy s :
  let r := fst (move E P agent dx dy s) in
  hypot (snd (fst (fst r))) (snd (fst r))
  <= maxVelOf (Agent.type agent) + 1 + hypot 0.2 0.2.
Proof.
  unfold move.
  set (vx := dx * 0.97). set (vy := dy * 0.97).
  set (m := maxVelOf (Agent.type agent)).
  assert (Hm : 0.43 <= m) by (pose proof (maxVelOf_pos (Agent.type agent)); subst m; lra).
  pose proof (minSpeedKick_bound E m vx vy s Hm) as Hk. cbn zeta in Hk.
  destruct (capVelocity m (hypot vx vy) vx vy) as [dx1 dy1]. cbn [fst snd] in Hk.
  unfold bind.
  destruct (minSpeedKick E (hypot vx vy) dx1 dy1 s) as [[dx2 dy2] s2].
  cbn [fst snd] in Hk.
  pose proof (stuckNudge_bound E (hypot vx vy) (default 0 (Agent.stuckTicks agent))
                dx2 dy2 s2) as Hs. cbn zeta in Hs.
  destruct (stuckNudge E (hypot vx vy) _ dx2 dy2 s2) as [[[dx3 dy3] st3] s3].
  cbn [fst snd] in Hs.
  pose proof (bounceAxis_bound WORLD_WIDTH
                (Agent.x agent + dx * adjustedSpeed P agent * timeScale P) dx3) as Hx.
  pose proof (bounceAxis_bound WORLD_HEIGHT
                (Agent.y agent + dy * adjustedSpeed P agent * timeScale P) dy3) as Hy.
  destruct (bounceAxis WORLD_WIDTH _ dx3) as [x4 dx4].
  destruct (bounceAxis WORLD_HEIGHT _ dy3) as [y4 dy4].
  cbn [fst snd ret] in *.
  assert (Hn : hypot dx4 dy4 <= hypot dx3 dy3 + hypot 0.2 0.2).
  { apply hypot_nudged; [lra | apply Hx | apply Hy]; unfold WORLD_WIDTH, WORLD_HEIGHT; lra. }
  lra.
Qed.

Lemma nudges_small : hypot 0.2 0.2 <= 0.29 /\ hypot 0.25 0.25 <= 0.36.
Proof. split; apply hypot_le; lra. Qed.

Lemma perturbed_speed dx dy rdx rdy :
  0 <= rdx < 1 -> 0 <= rdy < 1 ->
  hypot (dx + (rdx - 0.5) * 0.5) (dy + (rdy - 0.5) * 0.5)
  <= hypot dx dy + hypot 0.25 0.25.
Proof.
  intros Hx Hy. etransitivity; [apply hypot_triangle | ].
  apply Rplus_le_compat_l. apply hypot_mono; apply Rabs_le; lra.
Qed.

Section Allowance.
Variable E : Env.
Hypothesis E_fair : fair E.

Lemma herbivoreReproduce_speed P ch agent x y dx dy energy rc :
  hypot dx dy <= maxVelOf herbivore + 1 + hypot 0.2 0.2 ->
  steps (extends withinSpeedAllowance)
    (herbivoreReproduce E P ch agent x y dx dy energy rc).
Proof using E_fair.
  intros Hv s. unfold herbivoreReproduce, bind, getSpawnedHerbivores.
  destruct (_ && _); [ | apply extends_refl ].
  cbn. eexists [_]. split; [reflexivity | ].
  constructor; [ | constructor ]. unfold withinSpeedAllowance, speedOf. cbn.
  pose proof nudges_small as [H1 H2].
  eapply Rle_trans; [apply perturbed_speed; apply E_fair | ]. cbn in Hv. lra.
Qed.

Lemma carnivoreReproduce_speed P cc agent x y dx dy energy rc :
  hypot dx dy <= maxVelOf carnivore + 1 + hypot 0.2 0.2 ->
  steps (extends withinSpeedAllowance)
    (carnivoreReproduce E P cc agent x y dx dy energy rc).
Proof using E_fair.
  intros Hv s. unfold carnivoreReproduce, bind.
  destruct (_ && _); [ | apply extends_refl ].
  cbn. eexists [_]. split; [reflexivity | ].
  constructor; [ | constructor ]. unfold withinSpeedAllowance, speedOf. cbn.
  pose proof nudges_small as [H1 H2].
  eapply Rle_trans; [apply perturbed_speed; apply E_fair | ]. cbn in Hv. lra.
Qed.

End Allowance.

Section AllowanceOfPass.
Variable E : Env.
Hypothesis E_fair : fair E.

Lemma advance_speed P agents ch cc agent s :
  withinSpeedAllowance (fst (advance E P agents ch cc agent s))
  /\ extends withinSpeedAllowance s (snd (advance E P agents ch cc agent s)).
Proof using E_fair.
  set (Q := withinSpeedAllowance).
  assert (Hrefl : forall t, extends Q t t) by apply extends_refl.
  assert (Htrans : forall t1 t2 t3, extends Q t1 t2 -> extends Q t2 t3 -> extends Q t1 t3)
    by apply extends_trans.
  assert (Hrandom : forall E', steps (extends Q) (random E'))
    by (unfold steps; intros; by apply extends_same).
  assert (HsetFood : forall fs, steps (extends Q) (setFood fs))
    by (unfold steps; intros; by apply extends_same).
  assert (HaddEaten : forall i, steps (extends Q) (addEaten i))
    by (unfold steps; intros; by apply extends_same).
  unfold advance, bind.
  pose proof (steps_steer (extends Q) Hrefl Htrans Hrandom HsetFood E agents agent s) as H1.
  destruct (steer E agents agent s) as [[[[[dx dy] pursuing] energy] sc] s1].
  pose proof (steps_move (extends Q) Hrefl Htrans Hrandom E P agent dx dy s1) as H2.
  pose proof (move_speed E P agent dx dy s1) as Hv. cbn zeta in Hv.
  destruct (move E P agent dx dy s1) as [[[[[x y] dx'] dy'] st] s2].
  cbn [fst snd] in *.
  pose proof nudges_small as [Hn1 Hn2].
  assert (Hq : forall sc' x' y' e' rc' la' st',
             Q (settle P ch agent sc' x' y' dx' dy' e' rc' la' st')).
  { intros. unfold Q, withinSpeedAllowance, speedOf. cbn. lra. }
  destruct (Agent.type agent) eqn:Ht.
  - pose proof (steps_prey_on (extends Q) Hrefl Htrans HaddEaten P agents x y energy
                  (default 0 (Agent.lastAteTicks agent)) s2) as H3.
    destruct (prey_on P agents x y energy _ s2) as [[e3 la3] s3].
    pose proof (carnivoreReproduce_speed E E_fair P cc agent x y dx' dy' e3
                  (default 0 (Agent.reproCooldown agent)) Hv s3) as H4.
    destruct (carnivoreReproduce E P cc agent x y dx' dy' e3 _ s3) as [[e4 rc4] s4].
    cbn [fst snd ret] in *. split; [apply Hq | eauto].
  - pose proof (steps_graze (extends Q) Hrefl Htrans HsetFood x y energy
                  (default 0 (Agent.lastAteTicks agent)) s2) as H3.
    destruct (graze x y energy _ s2) as [[e3 la3] s3].
    pose proof (herbivoreReproduce_speed E E_fair P ch agent x y dx' dy' e3
                  (default 0 (Agent.reproCooldown agent)) Hv s3) as H4.
    destruct (herbivoreReproduce E P ch agent x y dx' dy' e3 _ s3) as [[e4 rc4] s4].
    cbn [fst snd ret] in *. split; [apply Hq | eauto].
  - cbn [fst snd ret]. split; [apply Hq | eauto].
Qed.

Lemma processAgent_speed P agents ch cc agent :
  steps (extends withinSpeedAllowance) (processAgent E P agents ch cc agent).
Proof using E_fair.
  intros s. unfold processAgent, bind.
  destruct (advance_speed P agents ch cc agent s) as [Hq He].
  destruct (advance E P agents ch cc agent s) as [a s1]. cbn [fst snd] in *.
  eapply extends_trans; [exact He | ]. by apply extends_survive.
Qed.

Lemma update_speed P w : Forall withinSpeedAllowance (agentsRef (update E P w)).
Proof using E_fair.
  assert (H : steps (extends withinSpeedAllowance) (pass E P w)).
  { unfold pass. apply steps_bind.
    - apply extends_trans.
    - apply extends_spawnFood.
    - intros _. apply steps_forEach.
      + apply extends_refl.
      + apply extends_trans.
      + apply processAgent_speed. }
  destruct (H (startOfPass w)) as (l & Hl & Hf).
  unfold update; cbn [agentsRef]. rewrite Hl. exact Hf.
Qed.

End AllowanceOfPass.

(** C7, as the code has it: with random draws in [0, 1), the speed of every
    agent of the output of a tick is at most the maximum of its kind plus
    1.65 (the stuck impulse, the two inward nudges and, for a child, the
    perturbation at birth come after the cap); right after the cap the
    speed is at most the maximum of the kind. *)
Theorem speed_within_allowance (E : Env) (P : Params) (w : World)
    (E_fair : fair E) :
  Forall withinSpeedAllowance (agentsRef (update E P w))
  /\ (forall t dx dy,
        let v := capVelocity (maxVelOf t) (hypot dx dy) dx dy in
        hypot (fst v) (snd v) <= maxVelOf t)
  /\ (forall t dx dy s,
        let v := capVelocity (maxVelOf t) (hypot dx dy) dx dy in
        let k := fst (minSpeedKick E (hypot dx dy) (fst v) (snd v) s) in
        hypot (fst k) (snd k) <= maxVelOf t).
Proof.
  split; [by apply update_speed | ].
  split.
  - intros t dx dy. apply capVelocity_bound.
    pose proof (maxVelOf_pos t). lra.
  - intros t dx dy s. apply minSpeedKick_bound.
    pose proof (maxVelOf_pos t). lra.
Qed.

Lemma steady_fair : fair steady.
Proof. intros n. cbn. lra. Qed.

(** The allowance under the steady random source. *)
Lemma speed_within_allowance_steady :
  fair steady
  /\ Forall withinSpeedAllowance (agentsRef (update steady defaultParams wallRunner)).
Proof.
  split; [exact steady_fair | ].
  exact (proj1 (speed_within_allowance steady defaultParams wallRunner steady_fair)).
Defined.

(** C7 as stated (the speed of every agent of the output is at most the
    maximum of its kind) fails: a herbivore that reaches the left wall at
    2.425 leaves the tick at 2.625, above 2.5. *)
Lemma speed_exceeds_limit_at_wall :
  ~ Forall withinSpeedLimit (agentsRef (update steady defaultParams wallRunner)).
Proof.
  assert (H : map (fun a => (Agent.type a, Agent.dx a, Agent.dy a))
                (agentsRef (update steady defaultParams wallRunner))
              = [(herbivore, 2.625, 0)]).
  { cbv delta [wallRunner arena creature steady]. run. literals. }
  destruct (agentsRef (update steady defaultParams wallRunner)) as [|a [|b l]];
    try discriminate H.
  cbn in H. injection H as Ht Hx Hy.
  intros Hf. apply Forall_inv in Hf.
  unfold withinSpeedLimit, speedOf in Hf. rewrite Ht, Hx, Hy in Hf.
  rewrite (hypot_eq 2.625 0 2.625) in Hf by lra. cbn in Hf. lra.
Qed.

(** ** Containment *)

Lemma bounceAxis_inside w x dx :
  2 <= w -> 1 <= fst (bounceAxis w x dx) <= w - 1.
Proof.
  intros Hw. unfold bounceAxis, Rgtb.
  destruct (x <? 1) eqn:H1.
  - rewrite (proj2 (Rltb_false_iff (w - 1) 1)) by lra. cbn [fst]. lra.
  - apply Rltb_false_iff in H1.
    destruct (w - 1 <? x) eqn:H2; cbn [fst]; [lra | ].
    apply Rltb_false_iff in H2. lra.
Qed.

Lemma move_inside E P agent dx dy s :
  let r := fst (move E P agent dx dy s) in
  1 <= fst (fst (fst (fst r))) <= WORLD_WIDTH - 1
  /\ 1 <= snd (fst (fst (fst r))) <= WORLD_HEIGHT - 1.
Proof.
  unfold move, bind.
  destruct (capVelocity _ _ _ _) as [dx1 dy1].
  destruct (minSpeedKick E _ dx1 dy1 s) as [[dx2 dy2] s2].
  destruct (stuckNudge E _ _ dx2 dy2 s2) as [[[dx3 dy3] st3] s3].
  pose proof (bounceAxis_inside WORLD_WIDTH
                (Agent.x agent + dx * adjustedSpeed P agent * timeScale P) dx3) as Hx.
  pose proof (bounceAxis_inside WORLD_HEIGHT
                (Agent.y agent + dy * adjustedSpeed P agent * timeScale P) dy3) as Hy.
  destruct (bounceAxis WORLD_WIDTH _ dx3) as [x4 dx4].
  destruct (bounceAxis WORLD_HEIGHT _ dy3) as [y4 dy4].
  cbn [fst snd ret] in *. unfold WORLD_WIDTH, WORLD_HEIGHT in *. lra.
Qed.

(** Every processed agent stands inside at its survival test. *)
Lemma advance_inside E P agents ch cc agent s :
  inside (fst (advance E P agents ch cc agent s)).
Proof.
  unfold advance. apply yields_bind. intros [[[[dx dy] pursuing] energy] sc] s1.
  unfold bind at 1.
  pose proof (move_inside E P agent dx dy s1) as Hm. cbn zeta in Hm.
  destruct (move E P agent dx dy s1) as [[[[[x y] dx'] dy'] st] s2].
  cbn [fst snd] in Hm.
  apply yields_bind. intros [[e la] rc] s3. exact Hm.
Qed.

(** C6: every agent of the output of a tick, newborn children included,
    lies within [0, width] x [0, height].  The code departs from it for
    children: every processed agent is clamped into
    [1, width - 1] x [1, height - 1], the child is placed around its parent
    without a clamp; in [edgeParent] child 100 is born at x = -2.7. *)
Theorem newborn_outside_arena :
  map (fun a => (Agent.id a, Agent.x a))
    (agentsRef (update gust defaultParams edgeParent))
  = [(100%nat, -2.7); (0%nat, 1.3)]
  /\ forall E P w i agent, inside (settledAt E P w i agent).
Proof.
  split; [exact edgeParent_run | ].
  intros E P w i agent. apply advance_inside.
Qed.

(** ** Predation *)

(** The mark works for a herbivore processed after its predator: marked
    when its survival test runs, it is not pushed. *)
Lemma marked_before_test_dropped a s :
  Agent.type a = herbivore ->
  Agent.id a ∈ eatenHerbivores s ->
  survive a s = (tt, s).
Proof.
  intros Ht Hm. unfold survive. destruct (alive a); [ | reflexivity ].
  unfold bind, hasEaten, isType. rewrite Ht. cbn [AgentType_eqb andb].
  by rewrite bool_decide_eq_true_2.
Qed.

(** C1: within one tick no herbivore is eaten by more than one carnivore
    and a herbivore already marked eaten does not reproduce.  The code
    departs from both: in [sharedPrey] the only herbivore feeds both
    carnivores (each ends at 55 + 45 - 0.098), and in [markedParent] the
    herbivore marked by the carnivore before it still spawns child 100. *)
Theorem prey_eaten_twice_and_reproduces :
  countType herbivore (agentsRef sharedPrey) = 1%nat
  /\ map vitals (agentsRef (update steady defaultParams sharedPrey))
     = [(0%nat, carnivore, 99.902); (1%nat, carnivore, 99.902)]
  /\ 1%nat ∈ eatenBy steady defaultParams markedParent
  /\ map vitals (agentsRef (update steady defaultParams markedParent))
     = [(0%nat, carnivore, 99.902); (100%nat, herbivore, 35)].
Proof.
  split; [reflexivity | ]. split; [exact sharedPrey_run | ].
  split; [exact markedParent_eaten | exact markedParent_run].
Qed.

(** C2: every herbivore a carnivore marks as eaten during a tick is absent
    from the output, whatever the order of the input.  The code departs
    from it: in [preyFirst] herbivore 0 is marked by carnivore 1 and is
    still in the output, because it was pushed before the mark; with the
    carnivore first ([preyLast]) it is absent. *)
Theorem eaten_prey_survives_when_first :
  0%nat ∈ eatenBy steady defaultParams preyFirst
  /\ map vitals (agentsRef (update steady defaultParams preyFirst))
     = [(0%nat, herbivore, 49.951); (1%nat, carnivore, 99.902)]
  /\ map vitals (agentsRef (update steady defaultParams preyLast))
     = [(1%nat, carnivore, 99.902)].
Proof.
  split; [exact preyFirst_eaten | ]. split; [exact preyFirst_run | exact preyLast_run].
Qed.


(** * The tick as a whole

    What one round of the loop appends, and what follows for the agent
    list, the identities, the food, the marks and the history. *)

(** ** Children and survivors *)

Lemma calm_refl s : calm s s.
Proof. by split. Qed.

Lemma calm_trans s1 s2 s3 : calm s1 s2 -> calm s2 s3 -> calm s1 s3.
Proof. intros [H1 H2] [H3 H4]. split; congruence. Qed.

Lemma bears_calm agent s s' : calm s s' -> bears agent 0 s s'.
Proof.
  intros [H1 H2]. exists []. rewrite app_nil_r. cbn.
  repeat split; auto; lia.
Qed.

Lemma bears_trans agent n m s1 s2 s3 :
  bears agent n s1 s2 -> bears agent m s2 s3 -> bears agent (n + m) s1 s3.
Proof.
  intros (k1 & E1 & L1 & N1 & I1 & F1) (k2 & E2 & L2 & N2 & I2 & F2).
  exists (k1 ++ k2). rewrite length_app, map_app.
  split; [by rewrite E2, E1, app_assoc | ].
  split; [lia | ]. split; [lia | ]. split.
  - rewrite I1, I2, N1. by rewrite seq_app.
  - by apply Forall_app.
Qed.

Lemma Rmax_Rmin_between lo hi v : lo <= hi -> lo <= Rmax lo (Rmin hi v) <= hi.
Proof.
  intros H. unfold Rmax, Rmin. repeat destruct (Rle_dec _ _); lra.
Qed.

Lemma herbivoreReproduce_bears E P ch agent x y dx dy energy rc s :
  Agent.type agent = herbivore ->
  bears agent 1 s (snd (herbivoreReproduce E P ch agent x y dx dy energy rc s)).
Proof.
  intros Ht. unfold herbivoreReproduce, bind, getSpawnedHerbivores.
  destruct (_ && _).
  - cbn -[Rmax Rmin]. eexists [_]. split; [reflexivity | ].
    split; [cbn; lia | ]. split; [cbn; lia | ]. split; [reflexivity | ].
    constructor; [ | constructor ]. unfold bornTo. rewrite Ht. cbn -[Rmax Rmin].
    repeat split; try reflexivity; try apply Rmax_Rmin_between; try lra;
      apply Rmax_l.
  - replace 1%nat with (0 + 1)%nat by lia.
    eapply bears_trans; [apply bears_calm, calm_refl | ].
    exists []. cbn. rewrite app_nil_r. repeat split; auto; lia.
Qed.

Lemma carnivoreReproduce_bears E P cc agent x y dx dy energy rc s :
  Agent.type agent = carnivore ->
  bears agent 1 s (snd (carnivoreReproduce E P cc agent x y dx dy energy rc s)).
Proof.
  intros Ht. unfold carnivoreReproduce, bind.
  destruct (_ && _).
  - cbn -[Rmax Rmin]. eexists [_]. split; [reflexivity | ].
    split; [cbn; lia | ]. split; [cbn; lia | ]. split; [reflexivity | ].
    constructor; [ | constructor ]. unfold bornTo. rewrite Ht. cbn -[Rmax Rmin].
    repeat split; try reflexivity; try apply Rmax_Rmin_between; try lra;
      apply Rmax_l.
  - replace 1%nat with (0 + 1)%nat by lia.
    eapply bears_trans; [apply bears_calm, calm_refl | ].
    exists []. cbn. rewrite app_nil_r. repeat split; auto; lia.
Qed.

Lemma advance_bears E P agents ch cc agent s :
  bears agent 1 s (snd (advance E P agents ch cc agent s)).
Proof.
  assert (Hrandom : forall E', steps calm (random E')) by (by intros E' t).
  assert (HsetFood : forall fs, steps calm (setFood fs)) by (by intros fs t).
  assert (HaddEaten : forall i, steps calm (addEaten i)) by (by intros i t).
  unfold advance, bind.
  pose proof (steps_steer calm calm_refl calm_trans Hrandom HsetFood E agents agent s) as H1.
  destruct (steer E agents agent s) as [[[[[dx dy] pursuing] energy] sc] s1].
  pose proof (steps_move calm calm_refl calm_trans Hrandom E P agent dx dy s1) as H2.
  destruct (move E P agent dx dy s1) as [[[[[x y] dx'] dy'] st] s2].
  cbn [fst snd] in *.
  assert (H12 : bears agent 0 s s2) by (apply bears_calm; by eapply calm_trans).
  destruct (Agent.type agent) eqn:Ht.
  - pose proof (steps_prey_on calm calm_refl calm_trans HaddEaten P agents x y
                  energy (default 0 (Agent.lastAteTicks agent)) s2) as H3.
    destruct (prey_on P agents x y energy _ s2) as [[e3 la3] s3].
    pose proof (carnivoreReproduce_bears E P cc agent x y dx' dy' e3
                  (default 0 (Agent.reproCooldown agent)) s3 Ht) as H4.
    destruct (carnivoreReproduce E P cc agent x y dx' dy' e3 _ s3) as [[e4 rc4] s4].
    cbn [fst snd ret] in *.
    apply (bears_trans agent 0 1 s s2 s4 H12).
    apply (bears_trans agent 0 1 s2 s3 s4); [by apply bears_calm | exact H4].
  - pose proof (steps_graze calm calm_refl calm_trans HsetFood x y energy
                  (default 0 (Agent.lastAteTicks agent)) s2) as H3.
    destruct (graze x y energy _ s2) as [[e3 la3] s3].
    pose proof (herbivoreReproduce_bears E P ch agent x y dx' dy' e3
                  (default 0 (Agent.reproCooldown agent)) s3 Ht) as H4.
    destruct (herbivoreReproduce E P ch agent x y dx' dy' e3 _ s3) as [[e4 rc4] s4].
    cbn [fst snd ret] in *.
    apply (bears_trans agent 0 1 s s2 s4 H12).
    apply (bears_trans agent 0 1 s2 s3 s4); [by apply bears_calm | exact H4].
  - cbn [fst snd ret].
    replace 1%nat with (0 + 1)%nat by lia.
    eapply bears_trans; [exact H12 | ].
    exists []. cbn. rewrite app_nil_r. repeat split; auto; lia.
Qed.

Lemma settles_grownFrom P ch agent a : settles P ch agent a -> grownFrom agent a.
Proof.
  intros (sc & x & y & dx & dy & e & rc & la & st & ->). by repeat split.
Qed.

Lemma survive_nextId a s : nextId (snd (survive a s)) = nextId s.
Proof.
  unfold survive. destruct (alive a); [ | reflexivity ].
  unfold bind, hasEaten. by destruct (_ && _).
Qed.

(** What one round of the loop appends: at most one child, then at most
    the agent itself. *)
Lemma processAgent_anatomy E P agents ch cc agent s :
  exists kids surv,
    updatedAgents (snd (processAgent E P agents ch cc agent s))
    = updatedAgents s ++ kids ++ surv
    /\ (length kids <= 1)%nat
    /\ nextId (snd (processAgent E P agents ch cc agent s))
       = (nextId s + length kids)%nat
    /\ map Agent.id kids = seq (nextId s) (length kids)
    /\ Forall (bornTo agent) kids
    /\ (length surv <= 1)%nat
    /\ Forall (grownFrom agent) surv.
Proof.
  unfold processAgent, bind.
  pose proof (advance_settles E P agents ch cc agent s) as Hs.
  pose proof (advance_bears E P agents ch cc agent s) as Hb.
  destruct (advance E P agents ch cc agent s) as [a s1]. cbn [fst snd] in *.
  destruct Hb as (kids & Hu & Hl & Hn & Hi & Hf).
  apply settles_grownFrom in Hs.
  pose proof (survive_nextId a s1) as Hsn.
  exists kids.
  destruct (survive_pushes a s1) as [Hp | Hp].
  - exists []. rewrite Hp, Hu, Hsn, app_nil_r. repeat split; auto.
  - exists [a]. rewrite Hp, Hu, Hsn, <- app_assoc.
    repeat split; auto. 
Qed.

Lemma forEach_harvest E P agents ch cc l s :
  exists out,
    updatedAgents (snd (forEach E P agents ch cc l s)) = updatedAgents s ++ out
    /\ harvest (nextId s) l out (nextId (snd (forEach E P agents ch cc l s))).
Proof.
  revert s. induction l as [|agent l IH]; intros s; cbn [forEach].
  - exists []. cbn. rewrite app_nil_r. split; [reflexivity | constructor].
  - unfold bind.
    destruct (processAgent_anatomy E P agents ch cc agent s)
      as (kids & surv & Hu & Hk & Hn & Hi & Hb & Hs & Hg).
    destruct (processAgent E P agents ch cc agent s) as [u s1]. cbn [snd] in *.
    destruct (IH s1) as (out & Ho & Hh).
    exists (kids ++ surv ++ out). split.
    + by rewrite Ho, Hu, <- !app_assoc.
    + constructor; auto. by rewrite <- Hn.
Qed.

Lemma update_harvest E P w :
  harvest (nextIdRef w) (agentsRef w) (agentsRef (update E P w))
    (nextIdRef (update E P w)).
Proof.
  unfold update, pass, forEachOf, bind. cbn [agentsRef nextIdRef].
  assert (H0 : calm (startOfPass w)
                 (snd (spawnFood E P (countType herbivore (agentsRef w)) (startOfPass w)))).
  { apply (steps_spawnFood calm calm_refl calm_trans); by intros ? t. }
  destruct (spawnFood E P _ (startOfPass w)) as [u s0]. cbn [snd] in *.
  destruct H0 as [Hu Hn]. cbn in Hu, Hn.
  destruct (forEach_harvest E P (agentsRef w) (countType herbivore (agentsRef w))
              (countType carnivore (agentsRef w)) (agentsRef w) s0)
    as (out & Ho & Hh).
  rewrite Ho, Hu. cbn [app]. by rewrite <- Hn.
Qed.

Lemma bornTo_type agent a : bornTo agent a -> Agent.type a = Agent.type agent.
Proof. by intros [H _]. Qed.

Lemma grownFrom_type agent a : grownFrom agent a -> Agent.type a = Agent.type agent.
Proof. by intros (_ & H & _). Qed.

Lemma countType_akin t agent part :
  Forall (fun a => Agent.type a = Agent.type agent) part ->
  (length part <= 1)%nat ->
  (countType t part <= countType t [agent])%nat.
Proof.
  intros Hf Hl. destruct part as [|a [|b part]]; cbn in Hl; [ | | lia ].
  - unfold countType. cbn. lia.
  - inversion_clear Hf as [|? ? Ha _]. unfold countType, isType. cbn.
    rewrite Ha. by destruct (AgentType_eqb _ _).
Qed.

Lemma harvest_count t n l out n' :
  harvest n l out n' -> (countType t out <= 2 * countType t l)%nat.
Proof.
  induction 1 as [|n agent kids surv rest out n' Hk Hi Hb Hs Hg Hh IH].
  - unfold countType. cbn. lia.
  - rewrite !countType_app, (countType_cons t agent rest).
    assert (countType t kids <= countType t [agent])%nat.
    { apply countType_akin; [ | exact Hk].
      eapply List.Forall_impl; [ | exact Hb]. apply bornTo_type. }
    assert (countType t surv <= countType t [agent])%nat.
    { apply countType_akin; [ | exact Hs].
      eapply List.Forall_impl; [ | exact Hg]. apply grownFrom_type. }
    lia.
Qed.

Lemma harvest_length n l out n' :
  harvest n l out n' -> (length out <= 2 * length l)%nat.
Proof.
  induction 1; cbn [length]; [lia | ]. rewrite !length_app. lia.
Qed.

Lemma harvest_counter n l out n' :
  harvest n l out n' -> (n <= n' <= n + length l)%nat.
Proof. induction 1; cbn [length]; lia. Qed.

(** Every identity of the output is one of the input or one the counter
    gave out. *)
Lemma harvest_origin n l out n' :
  harvest n l out n' ->
  forall i, i ∈ map Agent.id out -> i ∈ map Agent.id l \/ (n <= i < n')%nat.
Proof.
  induction 1 as [|n agent kids surv rest out n' Hk Hi Hb Hs Hg Hh IH];
    intros i Hin.
  - cbn in Hin. by apply elem_of_nil in Hin.
  - pose proof (harvest_counter _ _ _ _ Hh) as Hc.
    rewrite !map_app, !elem_of_app in Hin. destruct Hin as [Hin | [Hin | Hin]].
    + right. rewrite Hi in Hin. apply elem_of_seq in Hin. lia.
    + left. destruct surv as [|a [|b surv]]; cbn in Hs; [ | | lia ].
      * by apply elem_of_nil in Hin.
      * inversion_clear Hg as [|? ? [Ha _] _]. cbn in Hin.
        apply list_elem_of_singleton in Hin. subst i. rewrite Ha. cbn. left.
    + destruct (IH i Hin) as [Hl | Hr].
      * left. cbn. by right.
      * right. lia.
Qed.

Lemma harvest_identified n l out n' :
  harvest n l out n' -> identified n l -> identified n' out.
Proof.
  intros Hh [Hnd Hlt]. split.
  - revert Hnd Hlt.
    induction Hh as [|n agent kids surv rest out n' Hk Hi Hb Hs Hg Hh IH];
      intros Hnd Hlt; [constructor | ].
    cbn [map] in Hnd. apply NoDup_cons in Hnd as [Hnotin Hnd].
    inversion_clear Hlt as [|? ? Hagent Hrest].
    assert (Hrest' : Forall (fun a => (Agent.id a < n + length kids)%nat) rest).
    { eapply List.Forall_impl; [ | exact Hrest]. cbn. intros; lia. }
    pose proof (harvest_origin _ _ _ _ Hh) as Ho.
    assert (Hlow : forall i, i ∈ map Agent.id rest -> (i < n)%nat).
    { intros i Hi'. apply list_elem_of_In, in_map_iff in Hi' as (a & <- & Ha).
      rewrite List.Forall_forall in Hrest. by apply Hrest. }
    rewrite !map_app. apply NoDup_app. split; [ | split ].
    + rewrite Hi. apply NoDup_seq.
    + intros i Hin. rewrite Hi in Hin. apply elem_of_seq in Hin.
      rewrite elem_of_app. intros [Hsv | Hout].
      * destruct surv as [|a [|b surv]]; cbn in Hs; [ | | lia ].
        -- by apply elem_of_nil in Hsv.
        -- inversion_clear Hg as [|? ? [Ha _] _]. cbn in Hsv.
           apply list_elem_of_singleton in Hsv. lia.
      * destruct (Ho i Hout) as [Hl | Hr]; [ | lia ].
        specialize (Hlow i Hl). lia.
    + apply NoDup_app. split; [ | split ].
      * destruct surv as [|a [|b surv]]; cbn in Hs; [ | | lia ]; cbn.
        -- constructor.
        -- apply NoDup_singleton.
      * intros i Hsv Hout.
        destruct surv as [|a [|b surv]]; cbn in Hs; [ | | lia ].
        -- by apply elem_of_nil in Hsv.
        -- inversion_clear Hg as [|? ? [Ha _] _]. cbn in Hsv.
           apply list_elem_of_singleton in Hsv. subst i. rewrite Ha in Hout.
           destruct (Ho _ Hout) as [Hl | Hr]; [by apply Hnotin | lia].
      * by apply IH.
  - pose proof (harvest_origin _ _ _ _ Hh) as Ho.
    pose proof (harvest_counter _ _ _ _ Hh) as Hc.
    rewrite List.Forall_forall. intros a Ha.
    destruct (Ho (Agent.id a)) as [Hl | Hr]; [ | | lia ].
    + by apply list_elem_of_In, in_map.
    + apply list_elem_of_In, in_map_iff in Hl as (b & Hb & Hin).
      rewrite List.Forall_forall in Hlt.
      specialize (Hlt b Hin). cbn in Hlt. lia.
Qed.

(** ** The food list *)

Lemma sameFood_refl s : sameFood s s.
Proof. reflexivity. Qed.

Lemma sameFood_trans s1 s2 s3 : sameFood s1 s2 -> sameFood s2 s3 -> sameFood s1 s3.
Proof. unfold sameFood. congruence. Qed.

Lemma sameFood_random E : steps sameFood (random E).
Proof. by intros s. Qed.

Lemma sameFood_jitter E k dx dy : steps sameFood (jitter E k dx dy).
Proof.
  apply steps_jitter;
    [exact sameFood_refl | exact sameFood_trans | exact sameFood_random].
Qed.

(** The first match of a scan splits the list around it. *)
Lemma findIndex_split {A} (f : A -> bool) (l : list A) i :
  findIndex f l = Some i ->
  exists pre a post,
    l = pre ++ a :: post /\ length pre = i /\ f a = true
    /\ Forall (fun b => f b = false) pre /\ delete i l = pre ++ post.
Proof.
  revert i. induction l as [|a l IH]; intros i; cbn [findIndex]; [discriminate | ].
  destruct (f a) eqn:Ha.
  - intros [= <-]. exists [], a, l. repeat split; auto.
  - destruct (findIndex f l) as [j|]; cbn; [ | discriminate ].
    intros [= <-]. destruct (IH j eq_refl) as (pre & b & post & -> & Hl & Hb & Hp & Hd).
    exists (a :: pre), b, post. change (delete (S j) (a :: pre ++ b :: post))
      with (a :: delete j (pre ++ b :: post)).
    rewrite Hd. cbn. rewrite Hl. repeat split; auto.
Qed.

Lemma findIndex_none {A} (f : A -> bool) (l : list A) :
  findIndex f l = None -> Forall (fun b => f b = false) l.
Proof.
  induction l as [|a l IH]; cbn [findIndex]; [constructor | ].
  destruct (f a) eqn:Ha; [discriminate | ].
  destruct (findIndex f l); [discriminate | ]. intros _. constructor; auto.
Qed.

Ltac wander :=
  lazymatch goal with
  | Hj : forall k dx dy t, food (snd (jitter _ k dx dy t)) = food t
    |- context [jitter ?E ?k ?a ?b ?t] =>
      let H := fresh "Hw" in
      pose proof (Hj k a b t) as H;
      destruct (jitter E k a b t) as [[? ?] ?]; cbn [fst snd] in *
  end.

Lemma steer_sows E agents agent s :
  sows agent s (snd (steer E agents agent s)).
Proof.
  assert (Hj : forall k dx dy t, food (snd (jitter E k dx dy t)) = food t)
    by (intros; apply sameFood_jitter).
  unfold steer, bind.
  destruct (Agent.type agent) eqn:Ht.
  - pose proof (steps_hunt sameFood sameFood_refl sameFood_trans sameFood_random
                  E agents agent (Agent.dx agent) (Agent.dy agent) s) as Hh.
    destruct (hunt E agents agent _ _ s) as [[[dx dy] pursuing] s1].
    cbn [fst snd ret] in *. wander. cbn [snd ret].
    left. unfold sameFood in Hh. congruence.
  - unfold getFood.
    destruct (seekFood (food s) agent _ _) as [[dx dy] pursuing].
    destruct (fleeHunters agents agent dx dy) as [dx1 dy1]. cbn [fst snd ret].
    wander. cbn [snd ret]. by left.
  - assert (Hd : sows agent s
                   (snd (drift E agent (Agent.dx agent) (Agent.dy agent)
                           (Agent.energy agent) s))).
    { unfold drift, bind. wander.
      destruct (default 0 (Agent.seedCooldown agent) <=? 0).
      - unfold random at 1, ret at 1, pushFood, setFood. cbn [fst snd].
        destruct (mathRandom E _ <? 0.02).
        + right. split; [exact Ht | ]. eexists.
          split; [ | split ]; [ | | cbn; rewrite Hw; reflexivity ]; reflexivity.
        + left. destruct (Agent.seedCooldown agent); cbn; exact Hw.
      - left. destruct (Agent.seedCooldown agent); cbn; exact Hw. }
    destruct (drift E agent _ _ _ s) as [[[[dx dy] energy] sc] s1].
    cbn [fst snd ret] in *. wander. cbn [snd ret].
    destruct Hd as [Hd | (_ & f & Hx & Hy & Hf)].
    + left. congruence.
    + right. split; [exact Ht | ]. exists f. rewrite Hw. auto.
Qed.

Lemma processAgent_forages E P agents ch cc agent s :
  forages agent s (snd (processAgent E P agents ch cc agent s)).
Proof.
  assert (HaddEaten : forall i, steps sameFood (addEaten i)) by (by intros i t).
  assert (Hincr : steps sameFood incrSpawnedHerbivores) by (by intros t).
  assert (Hfresh : steps sameFood freshId) by (by intros t).
  assert (Hpush : forall a, True -> steps sameFood (pushAgent a)) by (by intros a _ t).
  unfold forages, processAgent, advance, bind.
  pose proof (steer_sows E agents agent s) as H1.
  destruct (steer E agents agent s) as [[[[[dx dy] pursuing] energy] sc] s1].
  pose proof (steps_move sameFood sameFood_refl sameFood_trans sameFood_random
                E P agent dx dy s1) as H2.
  destruct (move E P agent dx dy s1) as [[[[[x y] dx'] dy'] st] s2].
  cbn [fst snd] in *. unfold sameFood in H2.
  assert (Hsurv : forall a t, food (snd (survive a t)) = food t).
  { intros a t.
    apply (steps_survive sameFood (fun _ => True) sameFood_refl sameFood_trans Hpush a).
    auto. }
  destruct (Agent.type agent) eqn:Ht.
  - pose proof (steps_prey_on sameFood sameFood_refl sameFood_trans HaddEaten P agents
                  x y energy (default 0 (Agent.lastAteTicks agent)) s2) as H3.
    destruct (prey_on P agents x y energy _ s2) as [[e3 la3] s3].
    pose proof (steps_carnivoreReproduce sameFood (fun _ => True) sameFood_refl
                  sameFood_trans sameFood_random Hfresh Hpush
                  ltac:(intros; exact I) E P cc agent x y dx' dy' e3
                  (default 0 (Agent.reproCooldown agent)) s3) as H4.
    destruct (carnivoreReproduce E P cc agent x y dx' dy' e3 _ s3) as [[e4 rc4] s4].
    cbn [fst snd ret] in *. unfold sameFood in *.
    destruct H1 as [H1 | [Hh _]]; [ | congruence ].
    left. rewrite Hsurv. congruence.
  - pose proof (graze_consumes x y energy (default 0 (Agent.lastAteTicks agent)) s2) as H3.
    destruct (graze x y energy _ s2) as [[e3 la3] s3] eqn:Hg.
    pose proof (steps_herbivoreReproduce sameFood (fun _ => True) sameFood_refl
                  sameFood_trans sameFood_random Hincr Hfresh Hpush
                  ltac:(intros; exact I) E P ch agent x y dx' dy' e3
                  (default 0 (Agent.reproCooldown agent)) s3) as H4.
    destruct (herbivoreReproduce E P ch agent x y dx' dy' e3 _ s3) as [[e4 rc4] s4].
    cbn [fst snd ret] in *. unfold sameFood in *.
    destruct H1 as [H1 | [Hh _]]; [ | congruence ].
    rewrite Hsurv, H4.
    destruct (findIndex (grazes x y) (food s2)) as [i|] eqn:Hi.
    + right; left. split; [reflexivity | ].
      destruct (findIndex_split _ _ _ Hi) as (pre & f & post & Hl & _ & _ & _ & Hd).
      exists pre, f, post. destruct H3 as [_ ->].
      rewrite <- H1, <- H2. by rewrite Hd.
    + left. injection H3 as _ _ ->. congruence.
  - cbn [fst snd ret].
    rewrite Hsurv. destruct H1 as [H1 | (_ & f & Hx & Hy & Hf)].
    + left. congruence.
    + right; right. split; [reflexivity | ]. exists f. rewrite H2. auto.
Qed.

Lemma countType_one t a : (countType t [a] <= 1)%nat.
Proof. unfold countType. cbn. destruct (isType t a); cbn; lia. Qed.

Lemma countType_of t a : Agent.type a = t -> countType t [a] = 1%nat.
Proof. intros <-. unfold countType, isType. cbn. by destruct (Agent.type a). Qed.

Lemma forages_length agent s s' :
  forages agent s s' ->
  (length (food s') <= length (food s) + countType neutral [agent])%nat
  /\ (length (food s) <= length (food s') + countType herbivore [agent])%nat.
Proof.
  intros [-> | [(Ht & pre & f & post & -> & ->) | (Ht & f & _ & _ & ->)]].
  - lia.
  - rewrite (countType_of _ _ Ht), !length_app. cbn. lia.
  - rewrite (countType_of _ _ Ht), !length_app. cbn. lia.
Qed.

Lemma forEach_food_length E P agents ch cc l s :
  let s' := snd (forEach E P agents ch cc l s) in
  (length (food s') <= length (food s) + countType neutral l)%nat
  /\ (length (food s) <= length (food s') + countType herbivore l)%nat.
Proof.
  revert s. induction l as [|agent l IH]; intros s; cbn [forEach].
  - cbn. lia.
  - unfold bind.
    pose proof (forages_length agent s _ (processAgent_forages E P agents ch cc agent s)) as Hp.
    destruct (processAgent E P agents ch cc agent s) as [u s1]. cbn [snd] in Hp.
    specialize (IH s1). cbn zeta in *.
    rewrite (countType_cons neutral agent l), (countType_cons herbivore agent l). lia.
Qed.

(** The spawn at the start of the tick adds at most one item, at a place
    two draws choose. *)
Lemma spawnFood_food E P n s :
  food (snd (spawnFood E P n s)) = food s
  \/ exists i j,
       food (snd (spawnFood E P n s))
       = food s ++ [{| Food.id := dateNow E;
                       Food.x := mathRandom E i * WORLD_WIDTH;
                       Food.y := mathRandom E j * WORLD_HEIGHT |}].
Proof.
  unfold spawnFood, bind, random, pushFood, setFood. cbn [fst snd].
  destruct (_ <? _); [ | by left ]. right. cbn. eauto.
Qed.

Lemma forages_Forall (Q : Food.t -> Prop) agent s s' :
  forages agent s s' ->
  (Agent.type agent = neutral ->
   forall f, Food.x f = Agent.x agent -> Food.y f = Agent.y agent -> Q f) ->
  Forall Q (food s) -> Forall Q (food s').
Proof.
  intros [-> | [(Ht & pre & f & post & -> & ->) | (Ht & f & Hx & Hy & ->)]] Hq Hf.
  - exact Hf.
  - apply Forall_app in Hf as [Hpre Hpost]. apply Forall_app. split; [exact Hpre | ].
    by inversion Hpost.
  - apply Forall_app. split; [exact Hf | ]. constructor; [ | constructor ]. by apply Hq.
Qed.

Lemma forEach_food_Forall (Q : Food.t -> Prop) E P agents ch cc l s :
  Forall (fun agent =>
            Agent.type agent = neutral ->
            forall f, Food.x f = Agent.x agent -> Food.y f = Agent.y agent -> Q f) l ->
  Forall Q (food s) ->
  Forall Q (food (snd (forEach E P agents ch cc l s))).
Proof.
  intros Hl. revert s. induction Hl as [|agent l Ha Hl IH]; intros s Hf; cbn [forEach].
  - exact Hf.
  - unfold bind.
    pose proof (forages_Forall Q agent s _ (processAgent_forages E P agents ch cc agent s)
                  Ha Hf) as Hp.
    destruct (processAgent E P agents ch cc agent s) as [u s1]. cbn [snd] in Hp.
    by apply IH.
Qed.

(** ** Properties of every agent of the output *)

Section Census.
Variable Q : Agent.t -> Prop.
Variable E : Env.
Variable P : Params.
Hypothesis Q_born :
  forall agents ch cc agent, steps (extends Q) (advance E P agents ch cc agent).
Hypothesis Q_settled :
  forall agents ch cc agent s,
    alive (fst (advance E P agents ch cc agent s)) = true ->
    Q (fst (advance E P agents ch cc agent s)).

Lemma census_processAgent agents ch cc agent :
  steps (extends Q) (processAgent E P agents ch cc agent).
Proof using All.
  intros s. unfold processAgent, bind.
  pose proof (Q_born agents ch cc agent s) as He.
  pose proof (Q_settled agents ch cc agent s) as Hs.
  destruct (advance E P agents ch cc agent s) as [a s1]. cbn [fst snd] in *.
  eapply extends_trans; [exact He | ]. by apply extends_survive.
Qed.

Lemma census_update w : Forall Q (agentsRef (update E P w)).
Proof using All.
  assert (H : steps (extends Q) (pass E P w)).
  { unfold pass. apply steps_bind.
    - apply extends_trans.
    - apply extends_spawnFood.
    - intros _. apply steps_forEach.
      + apply extends_refl.
      + apply extends_trans.
      + apply census_processAgent. }
  destruct (H (startOfPass w)) as (l & Hl & Hf).
  unfold update; cbn [agentsRef]. rewrite Hl. exact Hf.
Qed.

End Census.

(** ** The stuck counter *)

Lemma stuckNudge_counter E spd st dx dy s :
  snd (fst (stuckNudge E spd st dx dy s)) <= 60.
Proof.
  unfold stuckNudge, Rgtb.
  match goal with |- context [60 <? ?v] => destruct (60 <? v) eqn:Hc end.
  - unfold bind. destruct (impulse E 1.0 dx dy s) as [[dx1 dy1] s1]. cbn. lra.
  - apply Rltb_false_iff in Hc. exact Hc.
Qed.

Lemma move_stuck E P agent dx dy s :
  snd (fst (move E P agent dx dy s)) <= 60.
Proof.
  unfold move, bind.
  destruct (capVelocity _ _ _ _) as [dx1 dy1].
  destruct (minSpeedKick E _ dx1 dy1 s) as [[dx2 dy2] s2].
  pose proof (stuckNudge_counter E (hypot (dx * 0.97) (dy * 0.97))
                (default 0 (Agent.stuckTicks agent)) dx2 dy2 s2) as Hs.
  destruct (stuckNudge E _ _ dx2 dy2 s2) as [[[dx3 dy3] st3] s3].
  destruct (bounceAxis WORLD_WIDTH _ dx3) as [x4 dx4].
  destruct (bounceAxis WORLD_HEIGHT _ dy3) as [y4 dy4].
  exact Hs.
Qed.

Lemma advance_stuck E P agents ch cc agent s :
  stuckInCheck (fst (advance E P agents ch cc agent s)).
Proof.
  unfold advance. apply yields_bind. intros [[[[dx dy] pursuing] energy] sc] s1.
  unfold bind at 1.
  pose proof (move_stuck E P agent dx dy s1) as Hm.
  destruct (move E P agent dx dy s1) as [[[[[x y] dx'] dy'] st] s2].
  cbn [fst snd] in Hm.
  apply yields_bind. intros [[e la] rc] s3. exact Hm.
Qed.

Lemma update_stuck E P w : Forall stuckInCheck (agentsRef (update E P w)).
Proof.
  apply census_update.
  - intros. apply extends_advance; intros; unfold stuckInCheck; cbn; [exact I | lra].
  - intros. apply advance_stuck.
Qed.

(** ** Where the agents of the output stand *)

Lemma inside_onGround a : inside a -> onGround (Agent.x a) (Agent.y a).
Proof. unfold inside, onGround, WORLD_WIDTH, WORLD_HEIGHT. lra. Qed.

Lemma update_neutral_onGround E P w :
  Forall (fun a => Agent.type a = neutral -> onGround (Agent.x a) (Agent.y a))
    (agentsRef (update E P w)).
Proof.
  apply census_update.
  - intros. apply extends_advance; intros; discriminate.
  - intros agents ch cc agent s _ _. apply inside_onGround, advance_inside.
Qed.

Section NearGround.
Variable E : Env.
Hypothesis E_fair : fair E.

Ltac draws :=
  repeat match goal with
  | E_fair : fair ?E |- context [mathRandom ?E ?i] =>
      lazymatch goal with
      | H : 0 <= mathRandom E i < 1 |- _ => fail
      | _ => pose proof (E_fair i)
      end
  end.

Lemma herbivoreReproduce_near P ch agent x y dx dy energy rc :
  1 <= x <= WORLD_WIDTH - 1 -> 1 <= y <= WORLD_HEIGHT - 1 ->
  steps (extends nearGround)
    (herbivoreReproduce E P ch agent x y dx dy energy rc).
Proof using E_fair.
  intros Hx Hy s. unfold herbivoreReproduce, bind, getSpawnedHerbivores.
  destruct (_ && _); [ | apply extends_refl ].
  cbn -[Rmax Rmin]. eexists [_]. split; [reflexivity | ].
  constructor; [ | constructor ]. unfold nearGround. cbn -[Rmax Rmin].
  draws.
  unfold WORLD_WIDTH, WORLD_HEIGHT in *. lra.
Qed.

Lemma carnivoreReproduce_near P cc agent x y dx dy energy rc :
  1 <= x <= WORLD_WIDTH - 1 -> 1 <= y <= WORLD_HEIGHT - 1 ->
  steps (extends nearGround)
    (carnivoreReproduce E P cc agent x y dx dy energy rc).
Proof using E_fair.
  intros Hx Hy s. unfold carnivoreReproduce, bind.
  destruct (_ && _); [ | apply extends_refl ].
  cbn -[Rmax Rmin]. eexists [_]. split; [reflexivity | ].
  constructor; [ | constructor ]. unfold nearGround. cbn -[Rmax Rmin].
  draws.
  unfold WORLD_WIDTH, WORLD_HEIGHT in *. lra.
Qed.

Lemma advance_near P agents ch cc agent :
  steps (extends nearGround) (advance E P agents ch cc agent).
Proof using E_fair.
  intros s.
  set (Q := nearGround).
  assert (Hrefl : forall t, extends Q t t) by apply extends_refl.
  assert (Htrans : forall t1 t2 t3, extends Q t1 t2 -> extends Q t2 t3 -> extends Q t1 t3)
    by apply extends_trans.
  assert (Hrandom : forall E', steps (extends Q) (random E'))
    by (unfold steps; intros; by apply extends_same).
  assert (HsetFood : forall fs, steps (extends Q) (setFood fs))
    by (unfold steps; intros; by apply extends_same).
  assert (HaddEaten : forall i, steps (extends Q) (addEaten i))
    by (unfold steps; intros; by apply extends_same).
  unfold advance, bind.
  pose proof (steps_steer (extends Q) Hrefl Htrans Hrandom HsetFood E agents agent s) as H1.
  destruct (steer E agents agent s) as [[[[[dx dy] pursuing] energy] sc] s1].
  pose proof (steps_move (extends Q) Hrefl Htrans Hrandom E P agent dx dy s1) as H2.
  pose proof (move_inside E P agent dx dy s1) as [Hx Hy].
  destruct (move E P agent dx dy s1) as [[[[[x y] dx'] dy'] st] s2].
  cbn [fst snd] in *.
  destruct (Agent.type agent) eqn:Ht.
  - pose proof (steps_prey_on (extends Q) Hrefl Htrans HaddEaten P agents x y energy
                  (default 0 (Agent.lastAteTicks agent)) s2) as H3.
    destruct (prey_on P agents x y energy _ s2) as [[e3 la3] s3].
    pose proof (carnivoreReproduce_near P cc agent x y dx' dy' e3
                  (default 0 (Agent.reproCooldown agent)) Hx Hy s3) as H4.
    destruct (carnivoreReproduce E P cc agent x y dx' dy' e3 _ s3) as [[e4 rc4] s4].
    cbn [fst snd ret] in *. eauto.
  - pose proof (steps_graze (extends Q) Hrefl Htrans HsetFood x y energy
                  (default 0 (Agent.lastAteTicks agent)) s2) as H3.
    destruct (graze x y energy _ s2) as [[e3 la3] s3].
    pose proof (herbivoreReproduce_near P ch agent x y dx' dy' e3
                  (default 0 (Agent.reproCooldown agent)) Hx Hy s3) as H4.
    destruct (herbivoreReproduce E P ch agent x y dx' dy' e3 _ s3) as [[e4 rc4] s4].
    cbn [fst snd ret] in *. eauto.
  - cbn [fst snd ret]. eauto.
Qed.

Lemma update_near P w : Forall nearGround (agentsRef (update E P w)).
Proof using E_fair.
  apply census_update.
  - intros. apply advance_near.
  - intros agents ch cc agent s _.
    pose proof (advance_inside E P agents ch cc agent s) as Hi.
    unfold inside, nearGround, WORLD_WIDTH, WORLD_HEIGHT in *. lra.
Qed.

End NearGround.

(** ** Marks *)

Lemma sameMarks_refl s : sameMarks s s.
Proof. reflexivity. Qed.

Lemma sameMarks_trans s1 s2 s3 :
  sameMarks s1 s2 -> sameMarks s2 s3 -> sameMarks s1 s3.
Proof. unfold sameMarks. congruence. Qed.

Lemma processAgent_hunts E P agents ch cc agent s :
  hunts P agents agent (fst (advance E P agents ch cc agent s)) s
    (snd (processAgent E P agents ch cc agent s)).
Proof.
  assert (Hrandom : forall E', steps sameMarks (random E')) by (by intros E' t).
  assert (HsetFood : forall fs, steps sameMarks (setFood fs)) by (by intros fs t).
  assert (Hincr : steps sameMarks incrSpawnedHerbivores) by (by intros t).
  assert (Hfresh : steps sameMarks freshId) by (by intros t).
  assert (Hpush : forall a, True -> steps sameMarks (pushAgent a)) by (by intros a _ t).
  assert (Hsurv : forall a t, eatenHerbivores (snd (survive a t)) = eatenHerbivores t).
  { intros a t.
    apply (steps_survive sameMarks (fun _ => True) sameMarks_refl sameMarks_trans Hpush a).
    auto. }
  unfold hunts, processAgent, advance, bind.
  pose proof (steps_steer sameMarks sameMarks_refl sameMarks_trans Hrandom HsetFood
                E agents agent s) as H1.
  destruct (steer E agents agent s) as [[[[[dx dy] pursuing] energy] sc] s1].
  pose proof (steps_move sameMarks sameMarks_refl sameMarks_trans Hrandom
                E P agent dx dy s1) as H2.
  destruct (move E P agent dx dy s1) as [[[[[x y] dx'] dy'] st] s2].
  cbn [fst snd] in *. unfold sameMarks in *.
  destruct (Agent.type agent) eqn:Ht.
  - assert (H3 : eatenHerbivores
                   (snd (prey_on P agents x y energy
                           (default 0 (Agent.lastAteTicks agent)) s2))
                 = eatenHerbivores s2
                 \/ exists prey,
                      In prey agents /\ catches P x y prey = true
                      /\ eatenHerbivores
                           (snd (prey_on P agents x y energy
                                   (default 0 (Agent.lastAteTicks agent)) s2))
                         = {[ Agent.id prey ]} ∪ eatenHerbivores s2).
    { unfold prey_on. destruct (find (catches P x y) agents) as [prey|] eqn:Hf.
      - right. exists prey. apply find_some in Hf as [Hin Hc]. by repeat split.
      - by left. }
    destruct (prey_on P agents x y energy _ s2) as [[e3 la3] s3].
    pose proof (steps_carnivoreReproduce sameMarks (fun _ => True) sameMarks_refl
                  sameMarks_trans Hrandom Hfresh Hpush
                  ltac:(intros; exact I) E P cc agent x y dx' dy' e3
                  (default 0 (Agent.reproCooldown agent)) s3) as H4.
    destruct (carnivoreReproduce E P cc agent x y dx' dy' e3 _ s3) as [[e4 rc4] s4].
    cbn [fst snd ret] in *. unfold sameMarks in *. rewrite Hsurv, H4.
    destruct H3 as [H3 | (prey & Hin & Hc & H3)].
    + left. congruence.
    + right. split; [reflexivity | ]. exists prey. cbn. rewrite H3, H2, H1. auto.
  - pose proof (steps_graze sameMarks sameMarks_refl sameMarks_trans HsetFood x y energy
                  (default 0 (Agent.lastAteTicks agent)) s2) as H3.
    destruct (graze x y energy _ s2) as [[e3 la3] s3].
    pose proof (steps_herbivoreReproduce sameMarks (fun _ => True) sameMarks_refl
                  sameMarks_trans Hrandom Hincr Hfresh Hpush
                  ltac:(intros; exact I) E P ch agent x y dx' dy' e3
                  (default 0 (Agent.reproCooldown agent)) s3) as H4.
    destruct (herbivoreReproduce E P ch agent x y dx' dy' e3 _ s3) as [[e4 rc4] s4].
    cbn [fst snd ret] in *. unfold sameMarks in *. left. rewrite Hsurv. congruence.
  - cbn [fst snd ret]. left. rewrite Hsurv. congruence.
Qed.

Lemma stateAt_S E P w n agent :
  agentsRef w !! n = Some agent ->
  stateAt E P w (S n)
  = snd (processAgent E P (agentsRef w) (countType herbivore (agentsRef w))
           (countType carnivore (agentsRef w)) agent (stateAt E P w n)).
Proof.
  intros Hn. unfold stateAt, forEachOf, bind.
  destruct (spawnFood E P _ (startOfPass w)) as [u s0].
  rewrite (take_S_r _ _ _ Hn), forEach_app. cbn [forEach]. unfold bind.
  by destruct (processAgent _ _ _ _ _ agent _).
Qed.

Lemma stateAt_end E P w :
  stateAt E P w (length (agentsRef w)) = snd (pass E P w (startOfPass w)).
Proof. unfold stateAt, pass. by rewrite firstn_all. Qed.

Lemma stateAt_0_marks E P w : eatenHerbivores (stateAt E P w 0) = ∅.
Proof.
  unfold stateAt, bind. cbn [take].
  pose proof (steps_spawnFood sameMarks sameMarks_refl sameMarks_trans
                ltac:(by intros ? ?) ltac:(by intros ? ?) E P
                (countType herbivore (agentsRef w)) (startOfPass w)) as H.
  destruct (spawnFood E P _ (startOfPass w)) as [u s0]. cbn in *. exact H.
Qed.

(** Every mark of the first [n] rounds was set by one of them. *)
Lemma marks_upto E P w n i :
  (n <= length (agentsRef w))%nat ->
  i ∈ eatenHerbivores (stateAt E P w n) ->
  exists k hunter prey,
    (k < n)%nat
    /\ agentsRef w !! k = Some hunter
    /\ Agent.type hunter = carnivore
    /\ In prey (agentsRef w)
    /\ Agent.id prey = i
    /\ catches P (Agent.x (settledAt E P w k hunter))
         (Agent.y (settledAt E P w k hunter)) prey = true.
Proof.
  induction n as [|n IH]; intros Hn.
  - rewrite stateAt_0_marks. set_solver.
  - destruct (lookup_lt_is_Some_2 (agentsRef w) n ltac:(lia)) as [agent Ha].
    rewrite (stateAt_S E P w n agent Ha). intros Hi.
    pose proof (processAgent_hunts E P (agentsRef w) (countType herbivore (agentsRef w))
                  (countType carnivore (agentsRef w)) agent (stateAt E P w n)) as Hh.
    fold (advanceOf E P w) in Hh. fold (settledAt E P w n agent) in Hh.
    assert (Hold : i ∈ eatenHerbivores (stateAt E P w n) ->
                   exists k hunter prey,
                     (k < S n)%nat /\ agentsRef w !! k = Some hunter
                     /\ Agent.type hunter = carnivore /\ In prey (agentsRef w)
                     /\ Agent.id prey = i
                     /\ catches P (Agent.x (settledAt E P w k hunter))
                          (Agent.y (settledAt E P w k hunter)) prey = true).
    { intros Hi'. destruct (IH ltac:(lia) Hi') as (k & h & p & Hk & Hrest).
      exists k, h, p. split; [lia | exact Hrest]. }
    destruct Hh as [Hh | (Ht & prey & Hin & Hc & Hh)]; rewrite Hh in Hi.
    + by apply Hold.
    + apply elem_of_union in Hi as [Hi | Hi]; [ | by apply Hold ].
      apply elem_of_singleton in Hi. subst i.
      exists n, agent, prey. repeat split; auto.
Qed.

(** The rounds set at most one mark each, and only those of carnivores
    set any. *)
Lemma marks_count E P w n :
  (n <= length (agentsRef w))%nat ->
  (size (eatenHerbivores (stateAt E P w n))
   <= countType carnivore (take n (agentsRef w)))%nat.
Proof.
  induction n as [|n IH]; intros Hn.
  - rewrite stateAt_0_marks, size_empty. lia.
  - destruct (lookup_lt_is_Some_2 (agentsRef w) n ltac:(lia)) as [agent Ha].
    rewrite (stateAt_S E P w n agent Ha), (take_S_r _ _ _ Ha), countType_app.
    pose proof (processAgent_hunts E P (agentsRef w) (countType herbivore (agentsRef w))
                  (countType carnivore (agentsRef w)) agent (stateAt E P w n)) as Hh.
    specialize (IH ltac:(lia)).
    destruct Hh as [-> | (Ht & prey & Hin & Hc & ->)]; [lia | ].
    rewrite (countType_of _ _ Ht).
    pose proof (size_union_alt ({[Agent.id prey]} : gset nat)
                  (eatenHerbivores (stateAt E P w n))) as Hs.
    rewrite Hs, size_singleton.
    assert (Hsub : eatenHerbivores (stateAt E P w n) ∖ {[Agent.id prey]}
                   ⊆ eatenHerbivores (stateAt E P w n))
      by (intros j Hj; apply elem_of_difference in Hj; tauto).
    apply subseteq_size in Hsub. lia.
Qed.

(** ** The history *)

Lemma countType_total l :
  (countType herbivore l + countType carnivore l + countType neutral l)%nat
  = length l.
Proof.
  induction l as [|a l IH]; [reflexivity | ].
  rewrite (countType_cons herbivore), (countType_cons carnivore),
    (countType_cons neutral). cbn [length]. rewrite <- IH.
  unfold countType at 1 3 5. unfold isType. cbn.
  destruct (Agent.type a); cbn; lia.
Qed.

Lemma recordHistory_length hist l :
  (length hist <= 300)%nat -> (length (recordHistory hist l) <= 300)%nat.
Proof.
  intros Hh. unfold recordHistory.
  destruct (300 <? _)%nat eqn:Hc.
  - destruct hist as [|s hist]; cbn in *; [lia | ]. rewrite length_app in *. cbn. lia.
  - by apply Nat.ltb_ge in Hc.
Qed.

Lemma recordHistory_last hist l :
  last (recordHistory hist l)
  = Some {| herb := countType herbivore l;
            carn := countType carnivore l;
            neutrals := countType neutral l |}.
Proof.
  unfold recordHistory.
  destruct (300 <? _)%nat eqn:Hc; [ | apply last_snoc ].
  destruct hist as [|s hist]; [discriminate | ].
  cbn [app tl]. apply last_snoc.
Qed.

(** When the window is full the oldest sample leaves. *)
Lemma recordHistory_shift hist l :
  length hist = 300%nat ->
  recordHistory hist l
  = tl hist ++ [{| herb := countType herbivore l;
                   carn := countType carnivore l;
                   neutrals := countType neutral l |}].
Proof.
  intros Hh. unfold recordHistory. rewrite length_app, Hh. cbn [length Nat.add].
  replace (300 <? 301)%nat with true by reflexivity.
  destruct hist; [discriminate | reflexivity].
Qed.

(** ** The initial world *)

Lemma initialAgents_ids E n i k :
  map Agent.id (fst (initialAgents E n i k)) = seq i n.
Proof.
  revert i k. induction n as [|n IH]; intros i k; cbn [initialAgents].
  - reflexivity.
  - specialize (IH (S i) (k + initialDraws (initialAgent E i k))%nat).
    destruct (initialAgents E n _ _) as [rest k']. cbn in *. by rewrite IH.
Qed.

Lemma initialFood_length E n i k : length (initialFood E n i k) = n.
Proof.
  revert i k. induction n as [|n IH]; intros i k; cbn; [reflexivity | by rewrite IH].
Qed.

Lemma initializeWorld_ids E n :
  map Agent.id (agentsRef (initializeWorld E n)) = seq 0 INITIAL_AGENTS.
Proof.
  unfold initializeWorld.
  pose proof (initialAgents_ids E INITIAL_AGENTS 0 0) as H.
  destruct (initialAgents E INITIAL_AGENTS 0 0) as [l k]. exact H.
Qed.

Lemma initializeWorld_identified E n :
  (INITIAL_AGENTS <= n)%nat -> identified n (agentsRef (initializeWorld E n)).
Proof.
  intros Hn. pose proof (initializeWorld_ids E n) as Hi. split.
  - rewrite Hi. apply NoDup_seq.
  - rewrite List.Forall_forall. intros a Ha.
    assert (Hin : In (Agent.id a) (seq 0 INITIAL_AGENTS))
      by (rewrite <- Hi; by apply in_map).
    apply in_seq in Hin. lia.
Qed.

Lemma floor_bounds r m : 0 <= r -> r < IZR m -> 0 <= floor r < IZR m.
Proof.
  intros H0 Hm. unfold floor.
  destruct (base_Int_part r) as [H1 H2].
  assert (Hz : (0 <= Int_part r)%Z).
  { apply le_IZR. destruct (Z_lt_le_dec (Int_part r) 0) as [Hneg | Hpos].
    - assert (IZR (Int_part r) <= -1) by (apply IZR_le; lia). lra.
    - by apply IZR_le. }
  split; [by apply IZR_le | lra].
Qed.

Section Mount.
Variable E : Env.
Hypothesis E_fair : fair E.

Lemma initialAgent_freshlyMade i k : freshlyMade (initialAgent E i k).
Proof using E_fair.
  unfold freshlyMade, initialAgent. cbn -[Rmax].
  pose proof (E_fair (k + 0)%nat) as H0. pose proof (E_fair (k + 1)%nat) as H1.
  pose proof (E_fair (k + 2)%nat) as H2. pose proof (E_fair (k + 3)%nat) as H3.
  pose proof (E_fair (k + 4)%nat) as H4. pose proof (E_fair (k + 5)%nat) as H5.
  pose proof (E_fair (k + 6)%nat) as H6. pose proof (E_fair (k + 7)%nat) as H7.
  pose proof (E_fair (k + 8)%nat) as H8. pose proof (E_fair (k + 9)%nat) as H9.
  pose proof (E_fair (k + 10)%nat) as H10.
  assert (Hrc : 0 <= floor (mathRandom E (k + 8)%nat * 300) < 300)
    by (apply (floor_bounds _ 300); lra).
  assert (Hla : 0 <= floor (mathRandom E (k + 9)%nat * 200) < 200)
    by (apply (floor_bounds _ 200); lra).
  assert (Hsc : 0 <= floor (mathRandom E (k + 10)%nat * 200) < 200)
    by (apply (floor_bounds _ 200); lra).
  unfold WORLD_WIDTH, WORLD_HEIGHT.
  repeat split; try lra; eauto;
    destruct (_ <? 0.55); try destruct (_ <? 0.9); cbn -[Rmax];
    unfold Rmax; repeat destruct (Rle_dec _ _); try lra; eauto.
  all: eexists; split; [reflexivity | lra].
Qed.

Lemma initialAgents_freshlyMade n i k :
  Forall freshlyMade (fst (initialAgents E n i k)).
Proof using E_fair.
  revert i k. induction n as [|n IH]; intros i k; cbn [initialAgents].
  - constructor.
  - specialize (IH (S i) (k + initialDraws (initialAgent E i k))%nat).
    destruct (initialAgents E n _ _) as [rest k'].
    constructor; [apply initialAgent_freshlyMade | exact IH].
Qed.

Lemma initialFood_onGround n i k :
  Forall (fun f => onGround (Food.x f) (Food.y f)) (initialFood E n i k).
Proof using E_fair.
  revert i k. induction n as [|n IH]; intros i k; cbn [initialFood]; constructor; auto.
  pose proof (E_fair k). pose proof (E_fair (S k)).
  unfold onGround, WORLD_WIDTH, WORLD_HEIGHT. cbn. lra.
Qed.

Lemma initializeWorld_freshlyMade n :
  Forall freshlyMade (agentsRef (initializeWorld E n)).
Proof using E_fair.
  unfold initializeWorld.
  pose proof (initialAgents_freshlyMade INITIAL_AGENTS 0 0) as H.
  destruct (initialAgents E INITIAL_AGENTS 0 0) as [l k]. exact H.
Qed.

Lemma initializeWorld_tidy n : tidy (initializeWorld E n).
Proof using E_fair.
  split.
  - unfold initializeWorld.
    destruct (initialAgents E INITIAL_AGENTS 0 0) as [l k]. cbn [foodRef].
    apply initialFood_onGround.
  - eapply List.Forall_impl; [ | apply initializeWorld_freshlyMade ].
    intros a ((Hx & Hy) & _) _. unfold onGround. lra.
Qed.

End Mount.

(** ** The chart *)

Lemma fold_Rmax_ge l a : a <= fold_left Rmax l a.
Proof.
  revert a. induction l as [|b l IH]; intros a; cbn; [lra | ].
  eapply Rle_trans; [apply (Rmax_l a b) | apply IH].
Qed.

Lemma fold_Rmax_In l a b : In b l -> b <= fold_left Rmax l a.
Proof.
  revert a. induction l as [|c l IH]; intros a; cbn; [tauto | ].
  intros [-> | Hin]; [ | by apply IH ].
  eapply Rle_trans; [apply (Rmax_r a b) | apply fold_Rmax_ge].
Qed.

Lemma maxY_floor hist : 10 <= maxY hist.
Proof. apply fold_Rmax_ge. Qed.

Lemma maxY_covers hist key s : In s hist -> INR (sampleAt key s) <= maxY hist.
Proof.
  intros Hin.
  apply Rle_trans with (INR (herb s + carn s + neutrals s)).
  - apply le_INR. destruct key; cbn; lia.
  - apply fold_Rmax_In. by apply (in_map (fun s => INR (herb s + carn s + neutrals s))).
Qed.

Lemma stepX_span w hist i :
  0 <= w -> (i < length hist)%nat -> 0 <= INR i * stepX w hist <= w.
Proof.
  intros Hw Hi. unfold stepX.
  set (d := Rmax 1 (INR (length hist) - 1)).
  assert (Hd : 1 <= d) by apply Rmax_l.
  assert (Hid : INR i <= d).
  { apply Rle_trans with (INR (length hist) - 1); [ | apply Rmax_r ].
    assert (INR (S i) <= INR (length hist)) by (apply le_INR; lia).
    rewrite S_INR in *. lra. }
  pose proof (pos_INR i) as Hi0.
  assert (Hq : 0 <= INR i / d <= 1).
  { split.
    - apply Rmult_le_pos; [lra | ]. left. apply Rinv_0_lt_compat. lra.
    - apply Rmult_le_reg_r with d; [lra | ]. field_simplify; lra. }
  replace (INR i * (w / d)) with (w * (INR i / d)) by (field; lra).
  nra.
Qed.

Lemma series_height h k m :
  6 <= h -> 0 <= k <= m -> 0 < m -> 3 <= h - (k / m) * (h - 6) - 3 <= h - 3.
Proof.
  intros Hh Hk Hm.
  assert (Hq : 0 <= k / m <= 1).
  { split.
    - apply Rmult_le_pos; [lra | ]. left. by apply Rinv_0_lt_compat.
    - apply Rmult_le_reg_r with m; [lra | ]. field_simplify; lra. }
  nra.
Qed.

Lemma drawSeries_within w h hist key :
  0 <= w -> 6 <= h ->
  Forall (fun op => 0 <= opX op <= w /\ 3 <= opY op <= h - 3)
    (drawSeries w h hist key).
Proof.
  intros Hw Hh. apply Forall_lookup. intros i op Hop.
  unfold drawSeries in Hop. rewrite list_lookup_imap in Hop.
  destruct (hist !! i) as [s|] eqn:Hs; [ | discriminate ].
  cbn in Hop. injection Hop as <-.
  pose proof (stepX_span w hist i Hw (lookup_lt_Some _ _ _ Hs)) as Hx.
  assert (Hin : In s hist) by (apply list_elem_of_In; by eapply list_elem_of_lookup_2).
  pose proof (maxY_covers hist key s Hin) as Hk.
  pose proof (maxY_floor hist) as Hm.
  pose proof (series_height h (INR (sampleAt key s)) (maxY hist) Hh
                (conj (pos_INR _) Hk) ltac:(lra)) as Hy.
  by destruct (Nat.eqb i 0).
Qed.

Lemma drawSeries_length w h hist key :
  length (drawSeries w h hist key) = length hist.
Proof. unfold drawSeries. apply length_imap. Qed.

(** ** The nearest element *)

Lemma nearest_fold {A} (px py : A -> R) x y rest c :
  let step := fun closest p =>
                if hypot (px p - x) (py p - y)
                     <? hypot (px closest - x) (py closest - y)
                then p else closest in
  let r := fold_left step rest c in
  (r = c \/ In r rest)
  /\ distanceFrom px py x y r <= distanceFrom px py x y c
  /\ Forall (fun q => distanceFrom px py x y r <= distanceFrom px py x y q) rest.
Proof.
  cbn zeta. revert c. induction rest as [|p rest IH]; intros c; cbn [fold_left].
  - split; [by left | ]. split; [lra | constructor].
  - destruct (hypot (px p - x) (py p - y) <? hypot (px c - x) (py c - y)) eqn:Hc.
    + apply Rltb_true_iff in Hc. destruct (IH p) as (Hin & Hle & Hall).
      fold (distanceFrom px py x y p) in Hc. fold (distanceFrom px py x y c) in Hc.
      split; [right; destruct Hin as [Hin | Hin]; [left; by rewrite Hin | by right] | ].
      split; [lra | ]. constructor; [exact Hle | exact Hall].
    + apply Rltb_false_iff in Hc. destruct (IH c) as (Hin & Hle & Hall).
      fold (distanceFrom px py x y p) in Hc. fold (distanceFrom px py x y c) in Hc.
      split; [destruct Hin as [Hin | Hin]; [by left | right; by right] | ].
      split; [exact Hle | ]. constructor; [lra | exact Hall].
Qed.

Lemma nearest_closest {A} (px py : A -> R) x y l :
  match nearest px py x y l with
  | Some p =>
      In p l
      /\ Forall (fun q => distanceFrom px py x y p <= distanceFrom px py x y q) l
  | None => l = []
  end.
Proof.
  destruct l as [|p0 rest]; [reflexivity | ]. cbn [nearest].
  destruct (nearest_fold px py x y rest p0) as (Hin & Hle & Hall).
  split; [destruct Hin as [Hin | Hin]; [left; by rewrite Hin | by right] | ].
  constructor; [exact Hle | exact Hall].
Qed.

(** ** Scarcity *)

Lemma scarcityBoost_antitone n m :
  (n <= m)%nat -> scarcityBoost m <= scarcityBoost n.
Proof.
  intros Hnm. unfold scarcityBoost.
  destruct (n <? 40)%nat eqn:H1, (n <? 70)%nat eqn:H2,
           (m <? 40)%nat eqn:H3, (m <? 70)%nat eqn:H4; try lra;
    rewrite ?Nat.ltb_lt, ?Nat.ltb_ge in *; lia.
Qed.

Lemma spawnFood_scarcity E P n m s :
  (n <= m)%nat -> 0 <= foodSpawnRate P ->
  (length (food (snd (spawnFood E P m s)))
   <= length (food (snd (spawnFood E P n s))))%nat.
Proof.
  intros Hnm Hr. pose proof (scarcityBoost_antitone n m Hnm) as Hb.
  unfold spawnFood, bind, random, pushFood, setFood. cbn [fst snd].
  destruct (_ <? foodSpawnRate P * scarcityBoost m) eqn:Hm;
    destruct (_ <? foodSpawnRate P * scarcityBoost n) eqn:Hn; cbn;
    rewrite ?length_app; cbn; try lia.
  apply Rltb_true_iff in Hm. apply Rltb_false_iff in Hn. nra.
Qed.

(** ** Energy *)

Lemma steer_energy E agents agent s :
  let e := snd (fst (fst (steer E agents agent s))) in
  match Agent.type agent with
  | neutral => e = Agent.energy agent \/ e = Agent.energy agent + 5
  | _ => e = Agent.energy agent
  end.
Proof.
  cbn zeta. unfold steer, bind.
  destruct (Agent.type agent) eqn:Ht.
  - destruct (hunt E agents agent _ _ s) as [[[dx dy] pursuing] s1].
    cbn [fst snd ret].
    match goal with |- context [jitter E ?k ?a ?b ?t] =>
      destruct (jitter E k a b t) as [[? ?] ?] end. reflexivity.
  - unfold getFood.
    destruct (seekFood (food s) agent _ _) as [[dx dy] pursuing].
    destruct (fleeHunters agents agent dx dy) as [dx1 dy1]. cbn [fst snd ret].
    match goal with |- context [jitter E ?k ?a ?b ?t] =>
      destruct (jitter E k a b t) as [[? ?] ?] end. reflexivity.
  - assert (Hd : let e := snd (fst (fst (drift E agent (Agent.dx agent) (Agent.dy agent)
                                           (Agent.energy agent) s))) in
                 e = Agent.energy agent \/ e = Agent.energy agent + 5).
    { cbn zeta. unfold drift.
      repeat (apply yields_bind; intros;
              repeat match goal with p : (_ * _)%type |- _ => destruct p end).
      cbn. destruct (_ <? 0.002); auto. }
    cbn zeta in Hd.
    destruct (drift E agent _ _ _ s) as [[[[dx dy] energy] sc] s1].
    cbn [fst snd ret] in *.
    match goal with |- context [jitter E ?k ?a ?b ?t] =>
      destruct (jitter E k a b t) as [[? ?] ?] end. exact Hd.
Qed.

Lemma graze_energy x y energy lastAteTicks s :
  let e := fst (fst (graze x y energy lastAteTicks s)) in
  e = energy \/ e = energy + 35.
Proof.
  cbn zeta. pose proof (graze_consumes x y energy lastAteTicks s) as H.
  destruct (findIndex (grazes x y) (food s)).
  - right. destruct H as [-> _]. reflexivity.
  - left. by rewrite H.
Qed.

Lemma prey_on_energy P agents x y energy lastAteTicks s :
  let e := fst (fst (prey_on P agents x y energy lastAteTicks s)) in
  e = energy \/ e = energy + 45.
Proof.
  cbn zeta. unfold prey_on. destruct (find _ _); cbn; auto.
Qed.

Lemma herbivoreReproduce_energy E P ch agent x y dx dy energy rc s :
  let e := fst (fst (herbivoreReproduce E P ch agent x y dx dy energy rc s)) in
  e = energy \/ e = 45.
Proof.
  cbn zeta. unfold herbivoreReproduce, bind, getSpawnedHerbivores.
  destruct (_ && _); cbn; auto.
Qed.

Lemma carnivoreReproduce_energy E P cc agent x y dx dy energy rc s :
  let e := fst (fst (carnivoreReproduce E P cc agent x y dx dy energy rc s)) in
  e = energy \/ e = 90.
Proof.
  cbn zeta. unfold carnivoreReproduce, bind.
  destruct (_ && _); cbn; auto.
Qed.

Lemma starvationFactor_nonneg ch t la : 0 <= starvationFactor ch t la.
Proof.
  unfold starvationFactor. destruct t; try lra.
  destruct (Nat.eqb ch 0); repeat destruct (_ >? _); lra.
Qed.

Lemma burn_le P ch agent energy la :
  sane P -> 0 <= Agent.metabolism agent -> burn P ch agent energy la <= energy.
Proof.
  intros [Hts Hms] Hm. unfold burn.
  pose proof (starvationFactor_nonneg ch (Agent.type agent) la) as Hs.
  set (m := match Agent.type agent with
            | carnivore => Agent.metabolism agent * carnivoreMetabolismScale P
            | _ => Agent.metabolism agent
            end).
  assert (H0 : 0 <= m) by (unfold m; destruct (Agent.type agent); nra).
  assert (H1 : 0 <= m * (1 + starvationFactor ch (Agent.type agent) la))
    by (apply Rmult_le_pos; lra).
  assert (H2 : 0 <= m * (1 + starvationFactor ch (Agent.type agent) la) * timeScale P)
    by (apply Rmult_le_pos; lra).
  lra.
Qed.

Lemma advance_energy E P agents ch cc agent s :
  sane P -> 0 <= Agent.metabolism agent ->
  Agent.energy (fst (advance E P agents ch cc agent s)) <= energyCeiling agent.
Proof.
  intros HP Hm. unfold advance, bind.
  pose proof (steer_energy E agents agent s) as H1. cbn zeta in H1.
  destruct (steer E agents agent s) as [[[[[dx dy] pursuing] energy] sc] s1].
  destruct (move E P agent dx dy s1) as [[[[[x y] dx'] dy'] st] s2].
  cbn [fst snd] in *. unfold energyCeiling.
  destruct (Agent.type agent) eqn:Ht.
  - pose proof (prey_on_energy P agents x y energy
                  (default 0 (Agent.lastAteTicks agent)) s2) as H3.
    destruct (prey_on P agents x y energy _ s2) as [[e3 la3] s3].
    pose proof (carnivoreReproduce_energy E P cc agent x y dx' dy' e3
                  (default 0 (Agent.reproCooldown agent)) s3) as H4.
    destruct (carnivoreReproduce E P cc agent x y dx' dy' e3 _ s3) as [[e4 rc4] s4].
    cbn [fst snd ret] in *. cbn [settle respread Agent.energy].
    pose proof (burn_le P ch agent e4 (la3 + 1) HP Hm) as Hb.
    unfold settle. cbn [respread Agent.energy].
    pose proof (Rmax_l (Agent.energy agent + 45) 90).
    pose proof (Rmax_r (Agent.energy agent + 45) 90).
    destruct H3, H4; lra.
  - pose proof (graze_energy x y energy (default 0 (Agent.lastAteTicks agent)) s2) as H3.
    destruct (graze x y energy _ s2) as [[e3 la3] s3].
    pose proof (herbivoreReproduce_energy E P ch agent x y dx' dy' e3
                  (default 0 (Agent.reproCooldown agent)) s3) as H4.
    destruct (herbivoreReproduce E P ch agent x y dx' dy' e3 _ s3) as [[e4 rc4] s4].
    cbn [fst snd ret] in *.
    pose proof (burn_le P ch agent e4 (la3 + 1) HP Hm) as Hb.
    unfold settle. cbn [respread Agent.energy].
    pose proof (Rmax_l (Agent.energy agent + 35) 45).
    pose proof (Rmax_r (Agent.energy agent + 35) 45).
    destruct H3, H4; lra.
  - cbn [fst snd ret].
    pose proof (burn_le P ch agent energy (default 0 (Agent.lastAteTicks agent) + 1) HP Hm) as Hb.
    unfold settle. cbn [respread Agent.energy]. destruct H1; lra.
Qed.

(** ** Births need means *)

Lemma advance_barren E P agents ch cc agent s :
  fertile P agent = false ->
  calm s (snd (advance E P agents ch cc agent s)).
Proof.
  intros Hf.
  assert (Hrandom : forall E', steps calm (random E')) by (by intros E' t).
  assert (HsetFood : forall fs, steps calm (setFood fs)) by (by intros fs t).
  assert (HaddEaten : forall i, steps calm (addEaten i)) by (by intros i t).
  unfold advance, bind.
  pose proof (steps_steer calm calm_refl calm_trans Hrandom HsetFood E agents agent s) as H1.
  pose proof (steer_energy E agents agent s) as He. cbn zeta in He.
  destruct (steer E agents agent s) as [[[[[dx dy] pursuing] energy] sc] s1].
  pose proof (steps_move calm calm_refl calm_trans Hrandom E P agent dx dy s1) as H2.
  destruct (move E P agent dx dy s1) as [[[[[x y] dx'] dy'] st] s2].
  cbn [fst snd] in *.
  assert (H12 : calm s s2) by (by eapply calm_trans).
  unfold fertile in Hf.
  destruct (Agent.type agent) eqn:Ht.
  - pose proof (steps_prey_on calm calm_refl calm_trans HaddEaten P agents x y
                  energy (default 0 (Agent.lastAteTicks agent)) s2) as H3.
    pose proof (prey_on_energy P agents x y energy
                  (default 0 (Agent.lastAteTicks agent)) s2) as He3.
    destruct (prey_on P agents x y energy _ s2) as [[e3 la3] s3].
    cbn [fst snd] in *.
    assert (H4 : carnivoreReproduce E P cc agent x y dx' dy' e3
                   (default 0 (Agent.reproCooldown agent)) s3
                 = ((e3, default 0 (Agent.reproCooldown agent)), s3)).
    { unfold carnivoreReproduce, Rgtb in *.
      apply andb_false_iff in Hf as [Hf | Hf].
      - apply Rltb_false_iff in Hf.
        rewrite (proj2 (Rltb_false_iff (carnivoreReproThreshold P) e3))
          by (destruct He3; lra).
        reflexivity.
      - rewrite Hf, andb_false_r. reflexivity. }
    rewrite H4. cbn [fst snd ret].
    eapply calm_trans; [exact H12 | exact H3].
  - pose proof (steps_graze calm calm_refl calm_trans HsetFood x y energy
                  (default 0 (Agent.lastAteTicks agent)) s2) as H3.
    pose proof (graze_energy x y energy (default 0 (Agent.lastAteTicks agent)) s2) as He3.
    destruct (graze x y energy _ s2) as [[e3 la3] s3].
    cbn [fst snd] in *.
    assert (H4 : herbivoreReproduce E P ch agent x y dx' dy' e3
                   (default 0 (Agent.reproCooldown agent)) s3
                 = ((e3, default 0 (Agent.reproCooldown agent)), s3)).
    { unfold herbivoreReproduce, bind, getSpawnedHerbivores, Rgtb in *.
      apply andb_false_iff in Hf as [Hf | Hf].
      - apply Rltb_false_iff in Hf.
        rewrite (proj2 (Rltb_false_iff (herbivoreReproThreshold P) e3))
          by (destruct He3; lra).
        reflexivity.
      - rewrite Hf, andb_false_r. reflexivity. }
    rewrite H4. cbn [fst snd ret].
    eapply calm_trans; [exact H12 | exact H3].
  - cbn [fst snd ret]. exact H12.
Qed.

Lemma forEach_barren E P agents ch cc l s :
  Forall (fun agent => fertile P agent = false) l ->
  let s' := snd (forEach E P agents ch cc l s) in
  nextId s' = nextId s
  /\ (length (updatedAgents s') <= length (updatedAgents s) + length l)%nat.
Proof.
  intros Hl. revert s. induction Hl as [|agent l Ha Hl IH]; intros s; cbn [forEach].
  - cbn. lia.
  - unfold bind. unfold processAgent. unfold bind.
    pose proof (advance_barren E P agents ch cc agent s Ha) as [Hu Hn].
    destruct (advance E P agents ch cc agent s) as [a s1]. cbn [fst snd] in *.
    pose proof (survive_nextId a s1) as Hsn.
    pose proof (survive_pushes a s1) as Hsp.
    destruct (survive a s1) as [u s2]. cbn [snd] in *.
    specialize (IH s2). cbn zeta in *. destruct IH as [IH1 IH2].
    split; [congruence | ].
    cbn [length]. destruct Hsp as [Hsp | Hsp]; rewrite Hsp, ?length_app, Hu in IH2;
      cbn [length] in IH2; lia.
Qed.

Lemma update_barren E P w :
  Forall (fun agent => fertile P agent = false) (agentsRef w) ->
  nextIdRef (update E P w) = nextIdRef w
  /\ (length (agentsRef (update E P w)) <= length (agentsRef w))%nat.
Proof.
  intros Hw. unfold update, pass, forEachOf, bind. cbn [agentsRef nextIdRef].
  assert (H0 : calm (startOfPass w)
                 (snd (spawnFood E P (countType herbivore (agentsRef w)) (startOfPass w)))).
  { apply (steps_spawnFood calm calm_refl calm_trans); by intros ? t. }
  destruct (spawnFood E P _ (startOfPass w)) as [u s0]. cbn [snd] in *.
  destruct H0 as [Hu Hn]. cbn in Hu, Hn.
  destruct (forEach_barren E P (agentsRef w) (countType herbivore (agentsRef w))
              (countType carnivore (agentsRef w)) (agentsRef w) s0 Hw) as [H1 H2].
  rewrite Hu in H2. cbn in H2. split; [congruence | exact H2].
Qed.

(** ** Walls *)

Lemma bounceAxis_left w x dx :
  2 <= w -> x < 1 ->
  fst (bounceAxis w x dx) = 1 /\ 0.2 <= snd (bounceAxis w x dx).
Proof.
  intros Hw Hx. unfold bounceAxis, Rgtb.
  rewrite (proj2 (Rltb_true_iff x 1)) by lra.
  rewrite (proj2 (Rltb_false_iff (w - 1) 1)) by lra. cbn.
  split; [reflexivity | ].
  match goal with |- context [Rabs ?v] => pose proof (Rabs_pos v) end. lra.
Qed.

Lemma bounceAxis_right w x dx :
  2 <= w -> w - 1 < x ->
  fst (bounceAxis w x dx) = w - 1 /\ snd (bounceAxis w x dx) <= -0.2.
Proof.
  intros Hw Hx. unfold bounceAxis, Rgtb.
  rewrite (proj2 (Rltb_false_iff x 1)) by lra.
  rewrite (proj2 (Rltb_true_iff (w - 1) x)) by lra. cbn.
  split; [reflexivity | ].
  match goal with |- context [Rabs ?v] => pose proof (Rabs_pos v) end. lra.
Qed.

Lemma bounceAxis_free w x dx :
  1 <= x <= w - 1 -> bounceAxis w x dx = (x, dx).
Proof.
  intros Hx. unfold bounceAxis, Rgtb.
  rewrite (proj2 (Rltb_false_iff x 0)) by lra.
  rewrite (proj2 (Rltb_false_iff w x)) by lra.
  rewrite (proj2 (Rltb_false_iff x 1)) by lra.
  rewrite (proj2 (Rltb_false_iff (w - 1) x)) by lra. reflexivity.
Qed.

(** ** The properties *)

Lemma countType_le_length t l : (countType t l <= length l)%nat.
Proof.
  induction l as [|a l IH]; [reflexivity | ].
  rewrite countType_cons. pose proof (countType_one t a). cbn [length]. lia.
Qed.

Lemma initializeWorld_length E n :
  length (agentsRef (initializeWorld E n)) = INITIAL_AGENTS.
Proof.
  rewrite <- (length_map Agent.id), initializeWorld_ids. apply length_seq.
Qed.

Lemma freshlyMade_infertile a : freshlyMade a -> fertile defaultParams a = false.
Proof.
  intros (_ & _ & He & _). unfold fertile, Rgtb. rewrite He.
  destruct (Agent.type a); cbn [baseEnergyOf defaultParams herbivoreReproThreshold
                                  carnivoreReproThreshold]; [ | | reflexivity ];
    match goal with |- context [Rltb ?a ?b] =>
      rewrite (proj2 (Rltb_false_iff a b)) by lra end; reflexivity.
Qed.

Lemma freshlyMade_metabolism a : freshlyMade a -> 0 <= Agent.metabolism a.
Proof.
  intros (_ & _ & _ & _ & _ & _ & [Hm _] & _).
  eapply Rle_trans; [ | exact Hm ].
  eapply Rle_trans; [ | apply Rmax_l ]. lra.
Qed.

Lemma defaultParams_sane : sane defaultParams.
Proof. split; cbn; lra. Qed.

Lemma update_food_length E P w :
  (length (foodRef (update E P w))
   <= length (foodRef w) + 1 + countType neutral (agentsRef w))%nat
  /\ (length (foodRef w)
      <= length (foodRef (update E P w)) + countType herbivore (agentsRef w))%nat.
Proof.
  unfold update, pass, forEachOf, bind. cbn [foodRef].
  pose proof (spawnFood_food E P (countType herbivore (agentsRef w)) (startOfPass w)) as H0.
  destruct (spawnFood E P _ (startOfPass w)) as [u s0]. cbn [snd] in *.
  pose proof (forEach_food_length E P (agentsRef w) (countType herbivore (agentsRef w))
                (countType carnivore (agentsRef w)) (agentsRef w) s0) as [H1 H2].
  cbn [food startOfPass] in H0.
  destruct H0 as [H0 | (i & j & H0)]; rewrite H0 in *; rewrite ?length_app in *;
    cbn [length] in *; lia.
Qed.

Lemma update_tidy E P w : fair E -> tidy w -> tidy (update E P w).
Proof.
  intros HE [Hf Ha]. split; [ | apply update_neutral_onGround ].
  unfold update, pass, forEachOf, bind. cbn [foodRef].
  pose proof (spawnFood_food E P (countType herbivore (agentsRef w)) (startOfPass w)) as H0.
  destruct (spawnFood E P _ (startOfPass w)) as [u s0]. cbn [snd] in *.
  apply forEach_food_Forall.
  - eapply List.Forall_impl; [ | exact Ha ].
    intros a Hn Ht f Hx Hy. rewrite Hx, Hy. by apply Hn.
  - cbn [food startOfPass] in H0. destruct H0 as [-> | (i & j & ->)]; [exact Hf | ].
    apply Forall_app. split; [exact Hf | ]. constructor; [ | constructor ].
    pose proof (HE i). pose proof (HE j).
    unfold onGround, WORLD_WIDTH, WORLD_HEIGHT. cbn. lra.
Qed.

Lemma ambush_eaten : 8%nat ∈ eatenBy steady defaultParams ambush.
Proof. cbv delta [ambush arena creature steady]. run. set_solver. Qed.

Lemma onMount_first :
  agentsRef onMount !! 0%nat = Some (initialAgent steady 0 0).
Proof. reflexivity. Qed.

(** X1: the agent list a tick leaves is, in the order of the input, what
    each agent of the input leaves: at most one child (of the parent's
    kind, age 0, size 5, energy 35 or 70, speed and vision within the
    limits of the kind, cooldown 600 or 700), which takes the next
    identity of the counter, then at most the agent's own record (same
    identity, kind, speed, vision and metabolism, 0.05 older). *)
Theorem offspring_then_self (E : Env) (P : Params) (w : World) :
  harvest (nextIdRef w) (agentsRef w) (agentsRef (update E P w))
    (nextIdRef (update E P w)).
Proof. apply update_harvest. Qed.

(** X2: in one tick no kind more than doubles; a kind that is extinct
    stays extinct. *)
Theorem population_at_most_doubles (E : Env) (P : Params) (w : World)
    (t : AgentType) :
  (countType t (agentsRef (update E P w)) <= 2 * countType t (agentsRef w))%nat.
Proof. eapply harvest_count, update_harvest. Qed.

(** X3: a tick keeps identities distinct and below the counter, and the
    counter moves up by at most one per agent. *)
Theorem identities_stay_unique (E : Env) (P : Params) (w : World) :
  identified (nextIdRef w) (agentsRef w) ->
  identified (nextIdRef (update E P w)) (agentsRef (update E P w))
  /\ (nextIdRef w <= nextIdRef (update E P w)
      <= nextIdRef w + length (agentsRef w))%nat.
Proof.
  intros Hw. pose proof (update_harvest E P w) as Hh. split.
  - by eapply harvest_identified.
  - by eapply harvest_counter.
Qed.

Lemma identities_stay_unique_onMount :
  identified (nextIdRef onMount) (agentsRef onMount)
  /\ identified (nextIdRef (update steady defaultParams onMount))
       (agentsRef (update steady defaultParams onMount)).
Proof.
  assert (H : identified (nextIdRef onMount) (agentsRef onMount))
    by (apply initializeWorld_identified; reflexivity).
  split; [exact H | ].
  exact (proj1 (identities_stay_unique steady defaultParams onMount H)).
Defined.

(** X5: a herbivore at [(x, y)] eats the first item of the food list that
    lies within 8 units, if there is one: it gains 35, its hunger clock
    restarts, and exactly that item leaves the list; otherwise nothing
    changes. *)
Theorem graze_first_in_reach (x y energy lastAteTicks : R) (s : TickState) :
  (Forall (fun f => 8 <= distanceFrom Food.x Food.y x y f) (food s)
   /\ graze x y energy lastAteTicks s = ((energy, lastAteTicks), s))
  \/ (exists pre f post,
        food s = pre ++ f :: post
        /\ Forall (fun g => 8 <= distanceFrom Food.x Food.y x y g) pre
        /\ distanceFrom Food.x Food.y x y f < 8
        /\ graze x y energy lastAteTicks s
           = ((energy + 35, 0), withFood (pre ++ post) s)).
Proof.
  unfold graze, bind, getFood.
  destruct (findIndex (grazes x y) (food s)) as [i|] eqn:Hi.
  - right. destruct (findIndex_split _ _ _ Hi) as (pre & f & post & Hl & _ & Hf & Hp & Hd).
    exists pre, f, post. split; [exact Hl | ]. split; [ | split ].
    + eapply List.Forall_impl; [ | exact Hp ].
      intros g Hg. by apply Rltb_false_iff in Hg.
    + by apply Rltb_true_iff in Hf.
    + rewrite Hd. reflexivity.
  - left. split; [ | reflexivity ].
    eapply List.Forall_impl; [ | apply (findIndex_none _ _ Hi) ].
    intros g Hg. by apply Rltb_false_iff in Hg.
Qed.

(** X6: over one tick the food list grows by at most the spawn and one
    seed per neutral agent, and shrinks by at most one meal per
    herbivore. *)
Theorem food_ledger (E : Env) (P : Params) (w : World) :
  (length (foodRef (update E P w))
   <= length (foodRef w) + 1 + countType neutral (agentsRef w))%nat
  /\ (length (foodRef w)
      <= length (foodRef (update E P w)) + countType herbivore (agentsRef w))%nat.
Proof. apply update_food_length. Qed.

(** X7: with random draws in [0, 1), food never lies outside the arena:
    if every food item and every neutral agent is within
    [0, width] x [0, height] before a tick, so they are after it. *)
Theorem food_stays_on_ground (E : Env) (P : Params) (w : World) :
  fair E -> tidy w -> tidy (update E P w).
Proof. apply update_tidy. Qed.

Lemma food_stays_on_ground_onMount :
  fair steady /\ tidy onMount /\ tidy (update steady defaultParams onMount).
Proof.
  assert (H : tidy onMount) by (apply initializeWorld_tidy, steady_fair).
  split; [exact steady_fair | ]. split; [exact H | ].
  exact (food_stays_on_ground steady defaultParams onMount steady_fair H).
Defined.

(** X8: the history keeps at most 300 samples; its last sample counts the
    agents the tick left, kind by kind, and the three counts add up to
    the population. *)
Theorem history_window (E : Env) (P : Params) (w : World) :
  (length (historyRef w) <= 300)%nat ->
  (length (historyRef (update E P w)) <= 300)%nat
  /\ exists s,
       last (historyRef (update E P w)) = Some s
       /\ herb s = countType herbivore (agentsRef (update E P w))
       /\ carn s = countType carnivore (agentsRef (update E P w))
       /\ neutrals s = countType neutral (agentsRef (update E P w))
       /\ (herb s + carn s + neutrals s)%nat = length (agentsRef (update E P w)).
Proof.
  intros Hh. unfold update. cbn [historyRef agentsRef].
  split; [by apply recordHistory_length | ].
  eexists. split; [apply recordHistory_last | ]. cbn.
  repeat split. apply countType_total.
Qed.

Lemma history_window_onMount :
  (length (historyRef onMount) <= 300)%nat
  /\ (length (historyRef (update steady defaultParams onMount)) <= 300)%nat.
Proof.
  assert (H : (length (historyRef onMount) <= 300)%nat) by (cbn; lia).
  split; [exact H | ].
  exact (proj1 (history_window steady defaultParams onMount H)).
Defined.

(** X9: [initializeWorld] makes the agents 0 to 99 in order, 60 food
    items and an empty history, and leaves the identity counter alone. *)
Theorem initial_roster (E : Env) (n : nat) :
  map Agent.id (agentsRef (initializeWorld E n)) = seq 0 INITIAL_AGENTS
  /\ length (foodRef (initializeWorld E n)) = INITIAL_FOOD
  /\ historyRef (initializeWorld E n) = []
  /\ nextIdRef (initializeWorld E n) = n.
Proof.
  split; [apply initializeWorld_ids | ].
  unfold initializeWorld.
  destruct (initialAgents E INITIAL_AGENTS 0 0) as [l k]. cbn [foodRef historyRef nextIdRef].
  split; [apply initialFood_length | by split].
Qed.

(** X10: with random draws in [0, 1), every agent [initializeWorld] makes
    stands in the arena with velocity components in [-1, 1), the base
    energy of its kind, age 0, speed in [0.5, 1.7), vision in [40, 60), a
    metabolism within 0.015 of the base of its kind and at least 0.02,
    cooldowns within their ranges, and a seed cooldown exactly when it is
    neutral; every food item lies in the arena. *)
Theorem initial_ranges (E : Env) (n : nat) :
  fair E ->
  Forall freshlyMade (agentsRef (initializeWorld E n))
  /\ tidy (initializeWorld E n).
Proof.
  intros HE. split; [by apply initializeWorld_freshlyMade | by apply initializeWorld_tidy].
Qed.

Lemma initial_ranges_steady :
  fair steady /\ Forall freshlyMade (agentsRef onMount).
Proof.
  split; [exact steady_fair | ].
  exact (proj1 (initial_ranges steady INITIAL_AGENTS steady_fair)).
Defined.

(** X11: on a canvas at least 6 high every point of a series of the
    population chart lies on the canvas: 0 <= x <= w and 3 <= y <= h - 3,
    whatever the history holds. *)
Theorem chart_within_canvas (w h : R) (hist : list Sample) (key : SeriesKey) :
  0 <= w -> 6 <= h ->
  Forall (fun op => 0 <= opX op <= w /\ 3 <= opY op <= h - 3)
    (drawSeries w h hist key).
Proof. apply drawSeries_within. Qed.

Lemma chart_within_canvas_onMount :
  0 <= WORLD_WIDTH /\ 6 <= 120
  /\ Forall (fun op => 0 <= opX op <= WORLD_WIDTH /\ 3 <= opY op <= 120 - 3)
       (drawSeries WORLD_WIDTH 120
          (historyRef (update steady defaultParams onMount)) herbKey).
Proof.
  assert (Hw : 0 <= WORLD_WIDTH) by (unfold WORLD_WIDTH; lra).
  assert (Hh : 6 <= 120) by lra.
  split; [exact Hw | ]. split; [exact Hh | ].
  exact (chart_within_canvas WORLD_WIDTH 120
           (historyRef (update steady defaultParams onMount)) herbKey Hw Hh).
Defined.

(** X12: every mark of a tick names a herbivore of the input that stood,
    where the tick found it, within the catch radius of the place a
    carnivore of the input moved to. *)
Theorem marks_name_caught_herbivores (E : Env) (P : Params) (w : World) (i : nat) :
  i ∈ eatenBy E P w ->
  exists k hunter prey,
    agentsRef w !! k = Some hunter
    /\ Agent.type hunter = carnivore
    /\ In prey (agentsRef w)
    /\ Agent.type prey = herbivore
    /\ Agent.id prey = i
    /\ distanceFrom Agent.x Agent.y
         (Agent.x (settledAt E P w k hunter)) (Agent.y (settledAt E P w k hunter))
         prey
       < carnivoreCatchRadius P.
Proof.
  unfold eatenBy. rewrite <- stateAt_end. intros Hi.
  destruct (marks_upto E P w _ i ltac:(reflexivity) Hi)
    as (k & hunter & prey & _ & Hk & Ht & Hin & Hid & Hc).
  exists k, hunter, prey. unfold catches in Hc.
  apply andb_true_iff in Hc as [Hp Hd]. apply Rltb_true_iff in Hd.
  repeat split; auto.
  unfold isType in Hp. by destruct (Agent.type prey).
Qed.

Lemma marks_name_caught_herbivores_ambush :
  8%nat ∈ eatenBy steady defaultParams ambush
  /\ exists k hunter prey,
       agentsRef ambush !! k = Some hunter
       /\ Agent.type hunter = carnivore
       /\ In prey (agentsRef ambush)
       /\ Agent.type prey = herbivore
       /\ Agent.id prey = 8%nat
       /\ distanceFrom Agent.x Agent.y
            (Agent.x (settledAt steady defaultParams ambush k hunter))
            (Agent.y (settledAt steady defaultParams ambush k hunter))
            prey
          < carnivoreCatchRadius defaultParams.
Proof.
  split; [exact ambush_eaten | ].
  exact (marks_name_caught_herbivores steady defaultParams ambush 8 ambush_eaten).
Defined.

(** X13: a tick sets at most one mark per carnivore of the input; without
    carnivores nothing is marked. *)
Theorem marks_at_most_one_per_carnivore (E : Env) (P : Params) (w : World) :
  (size (eatenBy E P w) <= countType carnivore (agentsRef w))%nat.
Proof.
  unfold eatenBy. rewrite <- stateAt_end.
  pose proof (marks_count E P w (length (agentsRef w)) ltac:(reflexivity)) as H.
  by rewrite firstn_all in H.
Qed.

(** X14: no agent leaves a tick with its stuck counter above 60, the
    threshold at which the counter is reset and the agent is nudged. *)
Theorem stuck_counter_in_check (E : Env) (P : Params) (w : World) :
  Forall stuckInCheck (agentsRef (update E P w)).
Proof. apply update_stuck. Qed.

(** X15: with random draws in [0, 1), every agent of the output of a
    tick, newborn children included, stands within 4 units of the arena:
    the child is placed at most 5 units from its clamped parent (in the
    runs that meet no division by a zero distance, as for every statement
    on positions). *)
Theorem agents_stay_near_ground (E : Env) (P : Params) (w : World) :
  fair E -> Forall nearGround (agentsRef (update E P w)).
Proof. intros HE. by apply update_near. Qed.

Lemma agents_stay_near_ground_onMount :
  fair steady /\ Forall nearGround (agentsRef (update steady defaultParams onMount)).
Proof.
  split; [exact steady_fair | ].
  exact (agents_stay_near_ground steady defaultParams onMount steady_fair).
Defined.

(** X16: the scan for the nearest element returns an element of the list
    at the least distance from [(x, y)], and nothing only for the empty
    list. *)
Theorem nearest_is_closest {A} (px py : A -> R) (x y : R) (l : list A) :
  match nearest px py x y l with
  | Some p =>
      In p l
      /\ Forall (fun q => distanceFrom px py x y p <= distanceFrom px py x y q) l
  | None => l = []
  end.
Proof. apply nearest_closest. Qed.

(** X17: with a spawn rate that is not negative, fewer herbivores never
    lower the chance of the food spawn: on the same draw, a spawn that
    happens with [m] herbivores happens with any [n <= m]. *)
Theorem scarcity_spawns_more (E : Env) (P : Params) (n m : nat) (s : TickState) :
  (n <= m)%nat -> 0 <= foodSpawnRate P ->
  (length (food (snd (spawnFood E P m s)))
   <= length (food (snd (spawnFood E P n s))))%nat.
Proof. apply spawnFood_scarcity. Qed.

Lemma scarcity_spawns_more_onMount :
  (10 <= 50)%nat /\ 0 <= foodSpawnRate defaultParams
  /\ (length (food (snd (spawnFood steady defaultParams 50 (startOfPass onMount))))
      <= length (food (snd (spawnFood steady defaultParams 10 (startOfPass onMount)))))%nat.
Proof.
  assert (H1 : (10 <= 50)%nat) by lia.
  assert (H2 : 0 <= foodSpawnRate defaultParams) by (cbn; lra).
  split; [exact H1 | ]. split; [exact H2 | ].
  exact (scarcity_spawns_more steady defaultParams 10 50 (startOfPass onMount) H1 H2).
Defined.

(** X18: births need means: when no agent of the input is both off
    cooldown and within one meal of the reproduction threshold of its
    kind, the tick creates no agent: the identity counter stays and the
    population does not grow. *)
Theorem no_birth_without_means (E : Env) (P : Params) (w : World) :
  Forall (fun agent => fertile P agent = false) (agentsRef w) ->
  nextIdRef (update E P w) = nextIdRef w
  /\ (length (agentsRef (update E P w)) <= length (agentsRef w))%nat.
Proof. apply update_barren. Qed.

Lemma no_birth_without_means_onMount :
  Forall (fun agent => fertile defaultParams agent = false) (agentsRef onMount)
  /\ nextIdRef (update steady defaultParams onMount) = nextIdRef onMount.
Proof.
  assert (H : Forall (fun agent => fertile defaultParams agent = false)
                (agentsRef onMount)).
  { eapply List.Forall_impl; [ | apply (initializeWorld_freshlyMade steady steady_fair) ].
    apply freshlyMade_infertile. }
  split; [exact H | ].
  exact (proj1 (no_birth_without_means steady defaultParams onMount H)).
Defined.

(** X19: with a time scale, a metabolism scale and a metabolism that are
    not negative, an agent reaches its survival test with at most the
    energy of one meal more than it had (35 for a herbivore, 45 for a
    carnivore), the energy a birth leaves (45 or 90), or 5 more for a
    neutral. *)
Theorem energy_gain_bounded (E : Env) (P : Params) (w : World) (i : nat)
    (agent : Agent.t) :
  sane P -> agentsRef w !! i = Some agent -> 0 <= Agent.metabolism agent ->
  Agent.energy (settledAt E P w i agent) <= energyCeiling agent.
Proof. intros HP _ Hm. by apply advance_energy. Qed.

Lemma energy_gain_bounded_onMount :
  sane defaultParams
  /\ agentsRef onMount !! 0%nat = Some (initialAgent steady 0 0)
  /\ Agent.energy (settledAt steady defaultParams onMount 0 (initialAgent steady 0 0))
     <= energyCeiling (initialAgent steady 0 0).
Proof.
  assert (Hm : 0 <= Agent.metabolism (initialAgent steady 0 0))
    by (apply freshlyMade_metabolism, initialAgent_freshlyMade, steady_fair).
  split; [exact defaultParams_sane | ]. split; [exact onMount_first | ].
  exact (energy_gain_bounded steady defaultParams onMount 0 (initialAgent steady 0 0)
           defaultParams_sane onMount_first Hm).
Defined.

(** X20: on an axis of extent at least 2, an agent that ends its move
    beyond a wall or within one unit of it is put one unit inside and
    heads inward at 0.2 or more; an agent between the two margins keeps
    its place and its velocity. *)
Theorem walls_turn_agents_inward (w x dx : R) :
  2 <= w ->
  (x < 1 -> fst (bounceAxis w x dx) = 1 /\ 0.2 <= snd (bounceAxis w x dx))
  /\ (w - 1 < x ->
      fst (bounceAxis w x dx) = w - 1 /\ snd (bounceAxis w x dx) <= -0.2)
  /\ (1 <= x <= w - 1 -> bounceAxis w x dx = (x, dx)).
Proof.
  intros Hw. split; [ | split ].
  - by apply bounceAxis_left.
  - by apply bounceAxis_right.
  - apply bounceAxis_free.
Qed.

Lemma walls_turn_agents_inward_left :
  2 <= WORLD_WIDTH
  /\ fst (bounceAxis WORLD_WIDTH (-3) (-2)) = 1
  /\ 0.2 <= snd (bounceAxis WORLD_WIDTH (-3) (-2)).
Proof.
  assert (Hw : 2 <= WORLD_WIDTH) by (unfold WORLD_WIDTH; lra).
  split; [exact Hw | ].
  exact (proj1 (walls_turn_agents_inward WORLD_WIDTH (-3) (-2) Hw) ltac:(lra)).
Defined.

(** X4: the herbivore half of the population cap: with a whole cap that
    the input respects, the output of a tick respects it too, because the
    test counts the herbivores spawned earlier in the tick. *)
Theorem herbivore_cap_holds (E : Env) (P : Params) (w : World) (cap : nat) :
  maxHerbivores P = INR cap ->
  (countType herbivore (agentsRef w) <= cap)%nat ->
  (countType herbivore (agentsRef (update E P w)) <= cap)%nat.
Proof. apply herbivores_within_cap. Qed.

Lemma herbivore_cap_holds_onMount :
  maxHerbivores defaultParams = INR 220
  /\ (countType herbivore (agentsRef onMount) <= 220)%nat
  /\ (countType herbivore (agentsRef (update steady defaultParams onMount)) <= 220)%nat.
Proof.
  assert (H1 : maxHerbivores defaultParams = INR 220)
    by (rewrite INR_IZR_INZ; reflexivity).
  assert (H2 : (countType herbivore (agentsRef onMount) <= 220)%nat).
  { etransitivity; [apply countType_le_length | ].
    unfold onMount. rewrite initializeWorld_length. unfold INITIAL_AGENTS. lia. }
  split; [exact H1 | ]. split; [exact H2 | ].
  exact (herbivore_cap_holds steady defaultParams onMount 220 H1 H2).
Defined.

(** * The plain component: the loop and what it leaves *)

Lemma plain_step_agents E P agent s :
  Plain.agents (Plain.step E P agent s) = Plain.agents s
  \/ exists i, plainCatch E P agent s = Some i
               /\ (i < length (Plain.agents s))%nat
               /\ Plain.agents (Plain.step E P agent s) = delete i (Plain.agents s).
Proof.
  unfold Plain.step, plainCatch.
  destruct (Plain.approach E P agent s) as [[[[[x y] dx] dy] energy] k].
  destruct (Plain.Agent.type agent) eqn:Ht.
  - unfold Plain.prey_on.
    destruct (findIndex (Plain.catches x y) (Plain.agents s)) as [i|] eqn:Hi.
    + right. exists i. split; [reflexivity | ]. split; [ | reflexivity ].
      by eapply findIndex_bound.
    + by left.
  - destruct (Plain.graze _ _ _ _ _) as [[e sz] fs]. by left.
  - by left.
Qed.

Lemma plain_step_length E P agent s :
  (length (Plain.agents (Plain.step E P agent s)) <= length (Plain.agents s))%nat.
Proof.
  destruct (plain_step_agents E P agent s) as [-> | (i & _ & Hi & ->)]; [lia | ].
  rewrite length_delete; [lia | by apply lookup_lt_is_Some_2].
Qed.

(** With fuel for every element the loop stops because the iterator is
    done, and more fuel changes nothing. *)
Lemma plain_forOf_done E P fuel idx s :
  (length (Plain.agents s) <= idx + fuel)%nat ->
  Plain.agents (snd (Plain.forOf E P fuel idx s)) !! fst (Plain.forOf E P fuel idx s)
  = None
  /\ forall k, Plain.forOf E P (fuel + k) idx s = Plain.forOf E P fuel idx s.
Proof.
  revert idx s. induction fuel as [|fuel IH]; intros idx s Hl.
  - cbn [Plain.forOf fst snd].
    assert (Hn : Plain.agents s !! idx = None) by (apply lookup_ge_None_2; lia).
    split; [exact Hn | ]. intros k. destruct k; cbn [Plain.forOf Nat.add]; [reflexivity | ].
    by rewrite Hn.
  - cbn [Plain.forOf Nat.add].
    destruct (Plain.agents s !! idx) as [agent|] eqn:Ha.
    + apply IH. pose proof (plain_step_length E P agent s). lia.
    + split; [exact Ha | reflexivity].
Qed.

Lemma plain_forOf_inv E P (Inv : nat -> Plain.Loop -> Prop) :
  (forall idx s agent,
     Plain.agents s !! idx = Some agent -> Inv idx s ->
     Inv (S idx) (Plain.step E P agent s)) ->
  forall fuel idx s,
    Inv idx s ->
    Inv (fst (Plain.forOf E P fuel idx s)) (snd (Plain.forOf E P fuel idx s)).
Proof.
  intros Hstep fuel. induction fuel as [|fuel IH]; intros idx s Hi;
    cbn [Plain.forOf]; [exact Hi | ].
  destruct (Plain.agents s !! idx) as [agent|] eqn:Ha; [ | exact Hi ].
  apply IH. by apply Hstep.
Qed.

(** ** What the plain loop pushes *)

Lemma hypot_opp_l a b : hypot (- a) b = hypot a b.
Proof. unfold hypot. f_equal. lra. Qed.

Lemma hypot_opp_r a b : hypot a (- b) = hypot a b.
Proof. unfold hypot. f_equal. lra. Qed.

Lemma plain_approach_speed E P agent s :
  let '(_, _, dx, dy, _, _) := Plain.approach E P agent s in
  hypot dx dy <= 2.5.
Proof.
  unfold Plain.approach.
  destruct (Plain.steer E agent s) as [[[dx dy] energy] k].
  pose proof (capVelocity_bound 2.5 (dx * 0.95) (dy * 0.95) ltac:(lra)) as Hc.
  destruct (capVelocity 2.5 _ (dx * 0.95) (dy * 0.95)) as [dx1 dy1].
  cbn [fst snd] in Hc. unfold Plain.reflect.
  destruct (_ || _); destruct (_ || _); rewrite ?hypot_opp_l, ?hypot_opp_r; exact Hc.
Qed.

(** One round pushes nothing or the loop variable's own record. *)
Lemma plain_step_pushes E P agent s :
  Plain.updatedAgents (Plain.step E P agent s) = Plain.updatedAgents s
  \/ exists a,
       Plain.updatedAgents (Plain.step E P agent s) = Plain.updatedAgents s ++ [a]
       /\ plainGrown agent a /\ plainSound a.
Proof.
  unfold Plain.step.
  pose proof (plain_approach_speed E P agent s) as Hv.
  destruct (Plain.approach E P agent s) as [[[[[x y] dx] dy] energy] k].
  destruct (match Plain.Agent.type agent with
            | herbivore => _ | _ => _ end) as [[e1 sz1] fs].
  destruct (match Plain.Agent.type agent with
            | carnivore => _ | _ => _ end) as [[e2 sz2] arr].
  cbn [Plain.updatedAgents].
  destruct (Plain.alive _ _) eqn:Ha; [ | by left ].
  right. eexists. split; [reflexivity | ]. split; [by repeat split | ].
  unfold Plain.alive, Rgtb in Ha. apply andb_true_iff in Ha as [H1 H2].
  apply Rltb_true_iff in H1. apply Rltb_true_iff in H2.
  split; [ | split ]; cbn; [lra | apply Rmax_l | exact Hv].
Qed.

Lemma plain_update_sound E P w :
  Forall plainSound (Plain.agentsRef (Plain.update E P w)).
Proof.
  unfold Plain.update, Plain.pass. cbn [Plain.agentsRef].
  apply (plain_forOf_inv E P (fun _ s => Forall plainSound (Plain.updatedAgents s))).
  - intros idx s agent _ Hs.
    destruct (plain_step_pushes E P agent s) as [-> | (a & -> & _ & Ha)]; [exact Hs | ].
    apply Forall_app. split; [exact Hs | by constructor].
  - unfold Plain.startOfPass, Plain.spawnFood. destruct (_ <? _); constructor.
Qed.

(** ** No agent is made *)

Lemma drop_delete_sublist {A} (l : list A) i n :
  sublist (drop n (delete i l)) (drop n l).
Proof.
  revert i n. induction l as [|a l IH]; intros i n.
  - by destruct i.
  - destruct n as [|n]; [apply sublist_delete | ].
    destruct i as [|i].
    + change (delete 0%nat (a :: l)) with l. cbn [drop].
      replace (drop (S n) l) with (drop 1 (drop n l)) by (rewrite drop_drop; f_equal; lia).
      apply sublist_drop.
    + change (delete (S i) (a :: l)) with (a :: delete i l). cbn [drop]. apply IH.
Qed.

Lemma plain_step_tail E P agent s n :
  sublist (drop n (Plain.agents (Plain.step E P agent s))) (drop n (Plain.agents s)).
Proof.
  destruct (plain_step_agents E P agent s) as [-> | (i & _ & _ & ->)];
    [reflexivity | apply drop_delete_sublist].
Qed.

Lemma plain_update_grown E P w :
  exists l,
    sublist l (Plain.agentsRef w)
    /\ Forall2 plainGrown l (Plain.agentsRef (Plain.update E P w)).
Proof.
  unfold Plain.update, Plain.pass. cbn [Plain.agentsRef].
  assert (H : exists l,
             sublist (l ++ drop (fst (Plain.forOf E P (length (Plain.agentsRef w)) 0
                                        (Plain.startOfPass E P w)))
                             (Plain.agents (snd (Plain.forOf E P (length (Plain.agentsRef w)) 0
                                                   (Plain.startOfPass E P w)))))
               (Plain.agentsRef w)
             /\ Forall2 plainGrown l
                  (Plain.updatedAgents (snd (Plain.forOf E P (length (Plain.agentsRef w)) 0
                                               (Plain.startOfPass E P w))))).
  { apply (plain_forOf_inv E P
             (fun idx s => exists l,
                sublist (l ++ drop idx (Plain.agents s)) (Plain.agentsRef w)
                /\ Forall2 plainGrown l (Plain.updatedAgents s))).
    - intros idx s agent Ha (l & Hl & Hg).
      rewrite (drop_S _ _ _ Ha) in Hl.
      pose proof (plain_step_tail E P agent s (S idx)) as Ht.
      destruct (plain_step_pushes E P agent s) as [-> | (a & -> & Hga & _)].
      + exists l. split; [ | exact Hg ].
        etransitivity; [ | exact Hl ].
        apply sublist_app; [reflexivity | by apply sublist_cons].
      + exists (l ++ [agent]). split.
        * etransitivity; [ | exact Hl ]. rewrite <- app_assoc. cbn [app].
          apply sublist_app; [reflexivity | by apply sublist_skip].
        * apply Forall2_app; [exact Hg | by constructor].
    - exists []. split; [ | unfold Plain.startOfPass, Plain.spawnFood;
                            destruct (_ <? _); constructor ].
      cbn [app drop]. unfold Plain.startOfPass, Plain.spawnFood.
      by destruct (_ <? _). }
  destruct H as (l & Hl & Hg). exists l. split; [ | exact Hg ].
  etransitivity; [ | exact Hl ]. by apply sublist_inserts_r.
Qed.

(** ** The plain food list *)

Lemma plain_step_food E P agent s :
  Plain.food (Plain.step E P agent s) = Plain.food s
  \/ (Plain.Agent.type agent = herbivore
      /\ exists i, (i < length (Plain.food s))%nat
                   /\ Plain.food (Plain.step E P agent s) = delete i (Plain.food s)).
Proof.
  unfold Plain.step.
  destruct (Plain.approach E P agent s) as [[[[[x y] dx] dy] energy] k].
  destruct (Plain.Agent.type agent) eqn:Ht.
  - destruct (Plain.prey_on _ _ _ _ _) as [[e sz] arr]. by left.
  - unfold Plain.graze.
    destruct (findIndex (Plain.grazes x y) (Plain.food s)) as [i|] eqn:Hi; [ | by left ].
    right. split; [reflexivity | ]. exists i. split; [ | reflexivity ].
    by eapply findIndex_bound.
  - by left.
Qed.

Lemma plainCount_sublist t l1 l2 :
  sublist l1 l2 -> (plainCount t l1 <= plainCount t l2)%nat.
Proof.
  unfold plainCount. induction 1 as [|a l1 l2 _ IH|a l1 l2 _ IH]; cbn;
    [lia | destruct (Plain.isType t a); cbn; lia | destruct (Plain.isType t a); cbn; lia].
Qed.

Lemma plain_update_food E P w :
  (length (Plain.foodRef (Plain.update E P w)) <= length (Plain.foodRef w) + 1)%nat
  /\ (length (Plain.foodRef w)
      <= length (Plain.foodRef (Plain.update E P w))
         + plainCount herbivore (Plain.agentsRef w))%nat.
Proof.
  unfold Plain.update, Plain.pass. cbn [Plain.foodRef].
  set (Inv := fun (idx : nat) (s : Plain.Loop) =>
                (length (Plain.food s) <= length (Plain.foodRef w) + 1)%nat
                /\ (length (Plain.foodRef w)
                    + plainCount herbivore (drop idx (Plain.agents s))
                    <= length (Plain.food s) + plainCount herbivore (Plain.agentsRef w))%nat).
  assert (H : Inv (fst (Plain.forOf E P (length (Plain.agentsRef w)) 0
                          (Plain.startOfPass E P w)))
                  (snd (Plain.forOf E P (length (Plain.agentsRef w)) 0
                          (Plain.startOfPass E P w)))).
  { apply (plain_forOf_inv E P Inv).
    - intros idx s agent Ha [H1 H2]. unfold Inv.
      rewrite (drop_S _ _ _ Ha) in H2.
      pose proof (plainCount_sublist herbivore _ _
                    (plain_step_tail E P agent s (S idx))) as Ht.
      assert (Hc : plainCount herbivore (agent :: drop (S idx) (Plain.agents s))
                   = ((if Plain.isType herbivore agent then 1 else 0)
                      + plainCount herbivore (drop (S idx) (Plain.agents s)))%nat).
      { unfold plainCount. cbn. by destruct (Plain.isType herbivore agent). }
      rewrite Hc in H2.
      destruct (plain_step_food E P agent s) as [-> | (Hh & i & Hi & ->)]; [lia | ].
      rewrite length_delete by (by apply lookup_lt_is_Some_2).
      unfold Plain.isType in H2. rewrite Hh in H2. cbn in H2. lia.
    - unfold Inv, Plain.startOfPass, Plain.spawnFood.
      destruct (_ <? _); cbn [Plain.food Plain.agents]; rewrite ?length_app, drop_0;
        cbn [length]; lia. }
  destruct H as [H1 H2]. split; [exact H1 | lia].
Qed.

(** ** A catch behind the iterator *)

Lemma plain_catch_shifts E P agent s idx i :
  plainCatch E P agent s = Some i -> (i <= idx)%nat ->
  Plain.agents (Plain.step E P agent s) !! S idx = Plain.agents s !! S (S idx).
Proof.
  intros Hc Hi.
  assert (Ha : Plain.agents (Plain.step E P agent s) = delete i (Plain.agents s)).
  { unfold plainCatch, Plain.step in *.
    destruct (Plain.approach E P agent s) as [[[[[x y] dx] dy] energy] k].
    destruct (Plain.Agent.type agent); try discriminate.
    unfold Plain.prey_on. by rewrite Hc. }
  rewrite Ha. apply list_lookup_delete_ge. lia.
Qed.

(** ** Running the plain loop *)

Ltac plain_expose :=
  cbv beta iota zeta delta
    [Plain.update Plain.pass Plain.forOf Plain.step Plain.approach Plain.steer
     Plain.seekFood Plain.fleeHunters Plain.chase Plain.reflect Plain.graze
     Plain.grazes Plain.prey_on Plain.catches Plain.decay Plain.respread
     Plain.alive Plain.spawnFood Plain.startOfPass Plain.adjustedSpeed
     Plain.isType Plain.defaultParams plainCatch
     Plain.agentsRef Plain.foodRef Plain.rng Plain.food Plain.agents
     Plain.updatedAgents
     Plain.herbivoreSpeed Plain.carnivoreSpeed Plain.foodSpawnRate Plain.timeScale
     Plain.Agent.id Plain.Agent.x Plain.Agent.y Plain.Agent.dx Plain.Agent.dy
     Plain.Agent.energy Plain.Agent.age Plain.Agent.speed Plain.Agent.vision
     Plain.Agent.size Plain.Agent.type
     capVelocity nearest findIndex AgentType_eqb List.filter fold_left length app
     andb orb negb fst snd option_map map
     lookup list_lookup list_delete
     mathRandom dateNow Food.id Food.x Food.y
     WORLD_WIDTH WORLD_HEIGHT Rgtb].

Ltac plain_run :=
  plain_expose; repeat (first [settle_hypot | settle_cmp]; plain_expose).

Lemma bystander_catch :
  plainCatch steady Plain.defaultParams (plainCreature carnivore 1 103 100)
    bystanderAtCarnivore
  = Some 0%nat.
Proof.
  cbv delta [bystanderAtCarnivore bystander plainCreature steady].
  plain_run. reflexivity.
Qed.

Lemma bystander_loop :
  Plain.agents bystanderAtCarnivore !! 1%nat = Some (plainCreature carnivore 1 103 100).
Proof.
  cbv delta [bystanderAtCarnivore bystander plainCreature steady].
  plain_run. reflexivity.
Qed.

(** The neutral that stands after the carnivore is not in the output,
    and the herbivore the carnivore caught is. *)
Lemma bystander_run :
  map Plain.Agent.id
    (Plain.agentsRef (Plain.update steady Plain.defaultParams bystander))
  = [0%nat; 1%nat].
Proof.
  cbv delta [bystander plainCreature steady].
  plain_run. reflexivity.
Qed.

(** X21: the loop of the plain component ends because the array iterator
    is done, within as many rounds as the array holds agents at the start
    of the tick; more rounds would change nothing. *)
Theorem plain_loop_completes (E : Env) (P : Plain.Params) (w : Plain.World) :
  Plain.agents (snd (Plain.pass E P w)) !! fst (Plain.pass E P w) = None
  /\ forall k,
       Plain.forOf E P (length (Plain.agentsRef w) + k) 0 (Plain.startOfPass E P w)
       = Plain.pass E P w.
Proof.
  unfold Plain.pass. apply plain_forOf_done.
  unfold Plain.startOfPass, Plain.spawnFood. destruct (_ <? _); cbn; lia.
Qed.

(** X22: every agent the plain component keeps after a tick has
    energy > 0 and age < 800, a size of at least 4, and a speed of at most
    2.5: here nothing is added to the velocity after the cap (the speed
    in the runs that meet no division by a zero distance). *)
Theorem plain_output_sound (E : Env) (P : Plain.Params) (w : Plain.World) :
  Forall plainSound (Plain.agentsRef (Plain.update E P w)).
Proof. apply plain_update_sound. Qed.

(** X23: the plain component makes no agent: the output of a tick is, in
    order, the updated records (same identity, kind, speed and vision,
    0.05 older) of some of the agents of the input. *)
Theorem plain_no_agent_is_made (E : Env) (P : Plain.Params) (w : Plain.World) :
  exists l,
    sublist l (Plain.agentsRef w)
    /\ Forall2 plainGrown l (Plain.agentsRef (Plain.update E P w)).
Proof. apply plain_update_grown. Qed.

(** X24: over one tick of the plain component the food list grows by at
    most the one spawned item and shrinks by at most one item per
    herbivore of the input. *)
Theorem plain_food_ledger (E : Env) (P : Plain.Params) (w : Plain.World) :
  (length (Plain.foodRef (Plain.update E P w)) <= length (Plain.foodRef w) + 1)%nat
  /\ (length (Plain.foodRef w)
      <= length (Plain.foodRef (Plain.update E P w))
         + plainCount herbivore (Plain.agentsRef w))%nat.
Proof. apply plain_update_food. Qed.

(** X25: in the plain component a catch behind the iterator costs the
    next agent its turn: when the carnivore at index [idx] splices out a
    herbivore at an index [i <= idx], the next round reads the agent that
    stood two places on, and the loop ends if there is none; the agent
    that stood next is not processed and so not kept. *)
Theorem plain_catch_skips_next (E : Env) (P : Plain.Params) (s : Plain.Loop)
    (idx i fuel : nat) (agent : Plain.Agent.t) :
  Plain.agents s !! idx = Some agent ->
  plainCatch E P agent s = Some i ->
  (i <= idx)%nat ->
  Plain.forOf E P (S (S fuel)) idx s
  = match Plain.agents s !! S (S idx) with
    | Some next =>
        Plain.forOf E P fuel (S (S idx))
          (Plain.step E P next (Plain.step E P agent s))
    | None => (S idx, Plain.step E P agent s)
    end.
Proof.
  intros Ha Hc Hi. cbn [Plain.forOf]. rewrite Ha.
  by rewrite (plain_catch_shifts E P agent s idx i Hc Hi).
Qed.

Lemma plain_catch_skips_next_bystander :
  Plain.agents bystanderAtCarnivore !! 1%nat
  = Some (plainCreature carnivore 1 103 100)
  /\ plainCatch steady Plain.defaultParams (plainCreature carnivore 1 103 100)
       bystanderAtCarnivore = Some 0%nat
  /\ Plain.forOf steady Plain.defaultParams 2 1 bystanderAtCarnivore
     = match Plain.agents bystanderAtCarnivore !! 3%nat with
       | Some next =>
           Plain.forOf steady Plain.defaultParams 0 3
             (Plain.step steady Plain.defaultParams next
                (Plain.step steady Plain.defaultParams
                   (plainCreature carnivore 1 103 100) bystanderAtCarnivore))
       | None =>
           (2%nat, Plain.step steady Plain.defaultParams
                     (plainCreature carnivore 1 103 100) bystanderAtCarnivore)
       end.
Proof.
  split; [exact bystander_loop | ]. split; [exact bystander_catch | ].
  exact (plain_catch_skips_next steady Plain.defaultParams bystanderAtCarnivore
           1 0 0 (plainCreature carnivore 1 103 100)
           bystander_loop bystander_catch (le_S 0 0 (le_n 0))).
Defined.

(** * Runs *)

Lemma recordHistory_grows hist l :
  (length hist <= 300)%nat ->
  length (recordHistory hist l) = Nat.min (S (length hist)) 300.
Proof.
  intros Hh. unfold recordHistory. rewrite length_app. cbn [length].
  destruct (300 <? _)%nat eqn:Hc.
  - apply Nat.ltb_lt in Hc. destruct hist as [|s hist]; cbn in *; [lia | ].
    rewrite length_app. cbn. lia.
  - apply Nat.ltb_ge in Hc. rewrite length_app. cbn. lia.
Qed.

Lemma initializeWorld_history E n : historyRef (initializeWorld E n) = [].
Proof.
  unfold initializeWorld. by destruct (initialAgents E INITIAL_AGENTS 0 0).
Qed.

Lemma update_wellKept E P cap w :
  fair E -> maxHerbivores P = INR cap ->
  wellKept cap w -> wellKept cap (update E P w).
Proof.
  intros HE Hcap (Hid & Ht & Hh & Hc & _).
  split; [ | split; [ | split; [ | split ] ] ].
  - eapply harvest_identified; [apply update_harvest | exact Hid].
  - by apply update_tidy.
  - unfold update. cbn [historyRef]. by apply recordHistory_length.
  - by apply herbivores_within_cap.
  - pose proof (update_fit E P w) as Hf.
    pose proof (update_near E HE P w) as Hn.
    pose proof (update_stuck E P w) as Hs.
    rewrite List.Forall_forall in *. intros a Ha.
    destruct (Hf a Ha) as [Hv Hz].
    split; [exact Hv | ]. split; [by apply sizedByRule_sized | ]. by split; auto.
Qed.

Lemma initializeWorld_wellKept E cap n :
  fair E -> (INITIAL_AGENTS <= cap)%nat -> (INITIAL_AGENTS <= n)%nat ->
  wellKept cap (initializeWorld E n).
Proof.
  intros HE Hcap Hn.
  split; [ | split; [ | split; [ | split ] ] ].
  - by apply initializeWorld_identified.
  - by apply initializeWorld_tidy.
  - rewrite initializeWorld_history. cbn. lia.
  - etransitivity; [apply countType_le_length | ].
    by rewrite initializeWorld_length.
  - pose proof (initializeWorld_freshlyMade E HE n) as Hf.
    pose proof (initializeWorld_size E n) as Hz.
    rewrite List.Forall_forall in *. intros a Ha.
    destruct (Hf a Ha) as ((Hx & Hy) & _ & He & Hage & _ & _ & _ & _ & _ & _ & Hst).
    specialize (Hz a Ha).
    split; [ | split; [ | split ] ].
    + unfold viable. rewrite He, Hage.
      destruct (Agent.type a); cbn; lra.
    + unfold sized. rewrite Hz. lra.
    + unfold nearGround. lra.
    + unfold stuckInCheck. rewrite Hst. lra.
Qed.

Lemma frames_wellKept Es Ps cap n w :
  (forall t, fair (Es t)) -> (forall t, maxHerbivores (Ps t) = INR cap) ->
  wellKept cap w -> wellKept cap (frames Es Ps n w).
Proof.
  intros HE HP Hw. induction n as [|n IH]; cbn [frames]; [exact Hw | ].
  by apply update_wellKept.
Qed.

Lemma frames_history Es Ps n w :
  historyRef w = [] ->
  length (historyRef (frames Es Ps n w)) = Nat.min n 300.
Proof.
  intros Hw. induction n as [|n IH]; cbn [frames].
  - by rewrite Hw.
  - unfold update. cbn [historyRef]. rewrite recordHistory_grows; rewrite IH; lia.
Qed.

(** * The mount of the plain component *)

Lemma plain_initialAgents_ids E n i k :
  map Plain.Agent.id (Plain.initialAgents E n i k) = seq i n.
Proof.
  revert i k. induction n as [|n IH]; intros i k; cbn; [reflexivity | by rewrite IH].
Qed.

Lemma plain_initialAgents_fresh E n i k :
  fair E -> Forall plainFresh (Plain.initialAgents E n i k).
Proof.
  intros HE. revert i k. induction n as [|n IH]; intros i k;
    cbn [Plain.initialAgents]; constructor; auto.
  unfold plainFresh, Plain.initialAgent. cbn.
  pose proof (HE (k + 1)%nat). pose proof (HE (k + 2)%nat).
  pose proof (HE (k + 3)%nat). pose proof (HE (k + 4)%nat).
  pose proof (HE (k + 5)%nat). pose proof (HE (k + 6)%nat).
  unfold WORLD_WIDTH, WORLD_HEIGHT. repeat split; lra.
Qed.

(** X26: a run from mount.  With random draws in [0, 1) and a whole
    herbivore cap of at least 100 that the sliders leave alone, after any
    number of frames from a freshly made world the identities are
    distinct and below the counter, food and neutral agents lie in the
    arena, the history holds min(n, 300) samples, the herbivores are
    within their cap, and every agent is alive (energy > 0, age < 800),
    of size within [3, 10], within 4 units of the arena and with its
    stuck counter at most 60. *)
Theorem run_from_mount (E0 : Env) (Es : nat -> Env) (Ps : nat -> Params)
    (cap n : nat) :
  fair E0 -> (forall t, fair (Es t)) ->
  (forall t, maxHerbivores (Ps t) = INR cap) ->
  (INITIAL_AGENTS <= cap)%nat ->
  wellKept cap (frames Es Ps n (initializeWorld E0 INITIAL_AGENTS))
  /\ length (historyRef (frames Es Ps n (initializeWorld E0 INITIAL_AGENTS)))
     = Nat.min n 300.
Proof.
  intros H0 HE HP Hcap. split.
  - apply frames_wellKept; auto. by apply initializeWorld_wellKept.
  - apply frames_history, initializeWorld_history.
Qed.

Lemma run_from_mount_steady :
  fair steady
  /\ maxHerbivores defaultParams = INR 220
  /\ wellKept 220
       (frames (fun _ => steady) (fun _ => defaultParams) 1000
          (initializeWorld steady INITIAL_AGENTS)).
Proof.
  assert (Hcap : maxHerbivores defaultParams = INR 220)
    by (rewrite INR_IZR_INZ; reflexivity).
  split; [exact steady_fair | ]. split; [exact Hcap | ].
  refine (proj1 (run_from_mount steady (fun _ => steady) (fun _ => defaultParams)
                   220 1000 steady_fair (fun _ => steady_fair) (fun _ => Hcap) _)).
  unfold INITIAL_AGENTS. lia.
Defined.

(** X27: the mount of the plain component makes the agents 0 to 99 in
    order and 60 food items; with random draws in [0, 1) every agent
    stands in the arena with velocity components in [-1, 1), energy 100,
    age 0, size 5, speed in [0.5, 1.7) and vision in [40, 60), and every
    food item lies in the arena. *)
Theorem plain_mount_ranges (E : Env) :
  fair E ->
  map Plain.Agent.id (Plain.agentsRef (Plain.mount E)) = seq 0 INITIAL_AGENTS
  /\ length (Plain.foodRef (Plain.mount E)) = INITIAL_FOOD
  /\ Forall plainFresh (Plain.agentsRef (Plain.mount E))
  /\ Forall (fun f => onGround (Food.x f) (Food.y f))
       (Plain.foodRef (Plain.mount E)).
Proof.
  intros HE. unfold Plain.mount. cbn [Plain.agentsRef Plain.foodRef].
  split; [apply plain_initialAgents_ids | ].
  split; [apply initialFood_length | ].
  split; [by apply plain_initialAgents_fresh | by apply initialFood_onGround].
Qed.

Lemma plain_mount_ranges_steady :
  fair steady /\ Forall plainFresh (Plain.agentsRef (Plain.mount steady)).
Proof.
  split; [exact steady_fair | ].
  exact (proj1 (proj2 (proj2 (plain_mount_ranges steady steady_fair)))).
Defined.

(** * Prey that is caught before its turn *)

(** ** In the tick of the advanced component *)

Lemma stateAt_harvest E P w j :
  exists out,
    updatedAgents (stateAt E P w j) = out
    /\ harvest (nextIdRef w) (take j (agentsRef w)) out (nextId (stateAt E P w j)).
Proof.
  unfold stateAt, forEachOf, bind.
  assert (H0 : calm (startOfPass w)
                 (snd (spawnFood E P (countType herbivore (agentsRef w)) (startOfPass w)))).
  { apply (steps_spawnFood calm calm_refl calm_trans); by intros ? t. }
  destruct (spawnFood E P _ (startOfPass w)) as [u s0]. cbn [snd] in *.
  destruct H0 as [Hu Hn]. cbn in Hu, Hn.
  destruct (forEach_harvest E P (agentsRef w) (countType herbivore (agentsRef w))
              (countType carnivore (agentsRef w)) (take j (agentsRef w)) s0)
    as (out & Ho & Hh).
  exists out. rewrite Ho, Hu. split; [reflexivity | by rewrite <- Hn].
Qed.

Lemma harvest_below n l out n' i :
  harvest n l out n' ->
  Forall (fun a => (Agent.id a < n)%nat) l ->
  (i < n)%nat -> ~ In i (map Agent.id l) -> ~ In i (map Agent.id out).
Proof.
  intros Hh Hl Hi Hnot Hin.
  destruct (harvest_origin _ _ _ _ Hh i) as [H | H].
  - by apply list_elem_of_In.
  - by apply Hnot, list_elem_of_In.
  - lia.
Qed.

Lemma marked_prey_dropped E P w j prey :
  identified (nextIdRef w) (agentsRef w) ->
  agentsRef w !! j = Some prey ->
  Agent.type prey = herbivore ->
  Agent.id prey ∈ eatenHerbivores (stateAt E P w j) ->
  ~ In (Agent.id prey) (map Agent.id (agentsRef (update E P w))).
Proof.
  intros [Hnd Hlt] Hj Ht Hm.
  assert (Hk : keepsMarks (stateAt E P w j)
                 (snd (advance E P (agentsRef w) (countType herbivore (agentsRef w))
                         (countType carnivore (agentsRef w)) prey (stateAt E P w j)))).
  { apply (steps_advance keepsMarks (fun _ => True));
      first [ exact keepsMarks_refl | exact keepsMarks_trans | exact (fun _ _ => I)
            | intros; exact I
            | unfold steps, keepsMarks; intros; cbn; set_solver ]. }
  assert (Hsplit : agentsRef w
                   = take j (agentsRef w) ++ prey :: drop (S j) (agentsRef w))
    by (symmetry; by apply take_drop_middle).
  (* identities around the prey *)
  assert (Hid : (Agent.id prey < nextIdRef w)%nat).
  { rewrite List.Forall_forall in Hlt. apply Hlt.
    apply list_elem_of_In. by eapply list_elem_of_lookup_2. }
  rewrite Hsplit, map_app in Hnd. cbn [map] in Hnd.
  apply NoDup_app in Hnd as (_ & Hbefore & Hnd).
  apply NoDup_cons in Hnd as [Hafter _].
  assert (Hpre : ~ In (Agent.id prey) (map Agent.id (take j (agentsRef w)))).
  { intros Hin. apply list_elem_of_In in Hin. apply (Hbefore _ Hin). left. }
  assert (Hpost : ~ In (Agent.id prey) (map Agent.id (drop (S j) (agentsRef w))))
    by (intros Hin; by apply Hafter, list_elem_of_In).
  assert (Hlt1 : Forall (fun a => (Agent.id a < nextIdRef w)%nat)
                   (take j (agentsRef w))).
  { rewrite Hsplit in Hlt. by apply Forall_app in Hlt as [H _]. }
  assert (Hlt2 : Forall (fun a => (Agent.id a < nextIdRef w)%nat)
                   (drop (S j) (agentsRef w))).
  { rewrite Hsplit in Hlt. apply Forall_app in Hlt as [_ H]. by inversion H. }
  (* the pass, split at the prey *)
  unfold update. cbn [agentsRef]. rewrite (pass_at E P w j prey Hj).
  unfold settledAt, testStateAt, advanceOf, forEachOf.
  destruct (stateAt_harvest E P w j) as (out1 & Ho1 & Hh1).
  pose proof (harvest_counter _ _ _ _ Hh1) as Hc1.
  pose proof (advance_bears E P (agentsRef w) (countType herbivore (agentsRef w))
                (countType carnivore (agentsRef w)) prey (stateAt E P w j)) as Hb.
  pose proof (advance_settles E P (agentsRef w) (countType herbivore (agentsRef w))
                (countType carnivore (agentsRef w)) prey (stateAt E P w j)) as Hs.
  destruct (advance E P (agentsRef w) _ _ prey (stateAt E P w j)) as [a st].
  cbn [fst snd] in *.
  rewrite (marked_before_test_dropped a st);
    [ | by rewrite (settles_type _ _ _ _ Hs)
      | rewrite (settles_id _ _ _ _ Hs); by apply Hk ].
  cbn [snd].
  destruct Hb as (kids & Hu & Hkl & Hkn & Hki & _).
  destruct (forEach_harvest E P (agentsRef w) (countType herbivore (agentsRef w))
              (countType carnivore (agentsRef w)) (drop (S j) (agentsRef w)) st)
    as (out3 & Ho3 & Hh3).
  rewrite Ho3, Hu, Ho1, !map_app.
  intros Hin. apply in_app_or in Hin as [Hin | Hin];
    [apply in_app_or in Hin as [Hin | Hin] | ].
  - exact (harvest_below _ _ _ _ _ Hh1 Hlt1 Hid Hpre Hin).
  - rewrite Hki in Hin. apply in_seq in Hin. lia.
  - refine (harvest_below _ _ _ _ _ Hh3 _ _ Hpost Hin).
    + eapply List.Forall_impl; [ | exact Hlt2 ]. cbn. intros; lia.
    + lia.
Qed.

Lemma ambush_marked :
  8%nat ∈ eatenHerbivores (stateAt steady defaultParams ambush 1).
Proof. cbv delta [ambush arena creature steady]. run. set_solver. Qed.

Lemma ambush_identified : identified (nextIdRef ambush) (agentsRef ambush).
Proof.
  split.
  - cbn. apply NoDup_cons. split; [ | apply NoDup_singleton ].
    intros H. apply list_elem_of_singleton in H. discriminate.
  - repeat constructor; cbn; lia.
Qed.

(** ** In the loop of the plain component *)

Lemma sublist_map {A B} (f : A -> B) (l1 l2 : list A) :
  sublist l1 l2 -> sublist (map f l1) (map f l2).
Proof. induction 1; cbn; by constructor. Qed.

Lemma drop_delete_ge {A} (l : list A) (n d : nat) :
  drop n (delete (n + d)%nat l) = delete d (drop n l).
Proof.
  revert l. induction n as [|n IH]; intros l; [reflexivity | ].
  destruct l as [|a l]; [by destruct d | ].
  change (delete (S n + d)%nat (a :: l)) with (a :: delete (n + d)%nat l).
  cbn [drop]. apply IH.
Qed.

(** The identities the loop still can push: those pushed and those of
    the agents at or after the iterator. *)
Lemma plain_forOf_sublist E P fuel idx s :
  sublist
    (map Plain.Agent.id (Plain.updatedAgents (snd (Plain.forOf E P fuel idx s))))
    (map Plain.Agent.id (Plain.updatedAgents s)
     ++ map Plain.Agent.id (drop idx (Plain.agents s))).
Proof.
  revert idx s. induction fuel as [|fuel IH]; intros idx s; cbn [Plain.forOf].
  - cbn [snd]. by apply sublist_inserts_r.
  - destruct (Plain.agents s !! idx) as [agent|] eqn:Ha.
    + etransitivity; [apply IH | ].
      rewrite (drop_S _ _ _ Ha). cbn [map].
      pose proof (plain_step_tail E P agent s (S idx)) as Ht.
      apply (sublist_map Plain.Agent.id) in Ht.
      destruct (plain_step_pushes E P agent s) as [-> | (a & -> & (Hid & _) & _)].
      * apply sublist_app; [reflexivity | by apply sublist_cons].
      * rewrite map_app, <- app_assoc. cbn [map app]. rewrite Hid.
        apply sublist_app; [reflexivity | by apply sublist_skip].
    + cbn [snd]. by apply sublist_inserts_r.
Qed.

Lemma plain_prey_dropped E P s idx i fuel agent prey :
  NoDup (map Plain.Agent.id (Plain.updatedAgents s)
         ++ map Plain.Agent.id (drop idx (Plain.agents s))) ->
  Plain.agents s !! idx = Some agent ->
  plainCatch E P agent s = Some i ->
  (idx < i)%nat ->
  Plain.agents s !! i = Some prey ->
  ~ In (Plain.Agent.id prey)
      (map Plain.Agent.id
         (Plain.updatedAgents (snd (Plain.forOf E P (S fuel) idx s)))).
Proof.
  intros Hnd Ha Hc Hi Hp Hin.
  cbn [Plain.forOf] in Hin. rewrite Ha in Hin.
  apply list_elem_of_In in Hin.
  pose proof (plain_forOf_sublist E P fuel (S idx) (Plain.step E P agent s)) as Hs.
  apply (fun H => elem_of_sublist _ _ _ H Hs) in Hin. clear Hs.
  assert (Harr : Plain.agents (Plain.step E P agent s) = delete i (Plain.agents s)).
  { unfold plainCatch, Plain.step in *.
    destruct (Plain.approach E P agent s) as [[[[[x y] dx] dy] energy] k].
    destruct (Plain.Agent.type agent); try discriminate.
    unfold Plain.prey_on. by rewrite Hc. }
  rewrite Harr in Hin.
  (* the array from the iterator on: the loop variable, what lies before
     the prey, the prey, what lies after it *)
  assert (Hi' : exists d, i = (S idx + d)%nat) by (exists (i - S idx)%nat; lia).
  destruct Hi' as [d ->].
  rewrite (drop_S _ _ _ Ha) in Hnd. cbn [map] in Hnd.
  assert (Hpd : drop (S idx) (Plain.agents s) !! d = Some prey)
    by (by rewrite lookup_drop).
  assert (Hdel : drop (S idx) (delete (S idx + d)%nat (Plain.agents s))
                 = delete d (drop (S idx) (Plain.agents s)))
    by apply drop_delete_ge.
  rewrite Hdel in Hin.
  set (tail := drop (S idx) (Plain.agents s)) in *.
  assert (Htail : tail = take d tail ++ prey :: drop (S d) tail)
    by (symmetry; by apply take_drop_middle).
  rewrite delete_take_drop in Hin.
  rewrite Htail in Hnd. rewrite map_app in Hnd. cbn [map] in Hnd.
  (* the prey's identity occurs once in the list without duplicates *)
  assert (Hpush : map Plain.Agent.id (Plain.updatedAgents (Plain.step E P agent s))
                  `sublist_of` map Plain.Agent.id (Plain.updatedAgents s)
                               ++ [Plain.Agent.id agent]).
  { destruct (plain_step_pushes E P agent s) as [-> | (a & -> & (Hid & _) & _)].
    - by apply sublist_inserts_r.
    - rewrite map_app. cbn [map]. by rewrite Hid. }
  apply elem_of_app in Hin as [Hin | Hin].
  - apply (fun H => elem_of_sublist _ _ _ H Hpush) in Hin.
    apply NoDup_app in Hnd as (_ & Hdis & Hnd2).
    apply elem_of_app in Hin as [Hin | Hin].
    + apply (Hdis _ Hin). right. apply elem_of_app. right. left.
    + apply list_elem_of_singleton in Hin.
      apply NoDup_cons in Hnd2 as [Hno _]. apply Hno.
      rewrite <- Hin. apply elem_of_app. right. left.
  - rewrite map_app in Hin.
    apply NoDup_app in Hnd as (_ & _ & Hnd2).
    apply NoDup_cons in Hnd2 as [_ Hnd2].
    apply NoDup_app in Hnd2 as (_ & Hdis & Hnd3).
    apply NoDup_cons in Hnd3 as [Hno _].
    apply elem_of_app in Hin as [Hin | Hin].
    + apply (Hdis _ Hin). left.
    + by apply Hno.
Qed.

Lemma plainAmbush_catch :
  plainCatch steady Plain.defaultParams (plainCreature carnivore 1 103 100)
    (Plain.startOfPass steady Plain.defaultParams plainAmbush)
  = Some 1%nat.
Proof.
  cbv delta [plainAmbush plainCreature steady].
  plain_run. reflexivity.
Qed.

Lemma plainAmbush_start :
  Plain.startOfPass steady Plain.defaultParams plainAmbush
  = {| Plain.rng := 1; Plain.food := [];
       Plain.agents := Plain.agentsRef plainAmbush;
       Plain.updatedAgents := [] |}.
Proof.
  cbv delta [plainAmbush plainCreature steady].
  plain_run. reflexivity.
Qed.

(** X28: the mark works for prey behind its predator in the array: with
    identities that are distinct and below the counter, a herbivore that
    is marked eaten when its own round starts is not in the output of the
    tick, and no other agent of the output bears its identity. *)
Theorem marked_prey_after_predator_is_dropped (E : Env) (P : Params)
    (w : World) (j : nat) (prey : Agent.t) :
  identified (nextIdRef w) (agentsRef w) ->
  agentsRef w !! j = Some prey ->
  Agent.type prey = herbivore ->
  Agent.id prey ∈ eatenHerbivores (stateAt E P w j) ->
  ~ In (Agent.id prey) (map Agent.id (agentsRef (update E P w))).
Proof. apply marked_prey_dropped. Qed.

Lemma marked_prey_after_predator_is_dropped_ambush :
  8%nat ∈ eatenHerbivores (stateAt steady defaultParams ambush 1)
  /\ ~ In 8%nat (map Agent.id (agentsRef (update steady defaultParams ambush))).
Proof.
  split; [exact ambush_marked | ].
  exact (marked_prey_after_predator_is_dropped steady defaultParams ambush 1
           (creature herbivore 8 100 100 0 0 50)
           ambush_identified eq_refl eq_refl ambush_marked).
Defined.

(** X29: in the plain component prey ahead of its predator in the array
    is gone: when the loop variable catches a herbivore that stands after
    it, and the identities pushed so far and still to come are distinct,
    no agent with the identity of that herbivore is in the output. *)
Theorem plain_prey_ahead_is_dropped (E : Env) (P : Plain.Params)
    (s : Plain.Loop) (idx i fuel : nat) (agent prey : Plain.Agent.t) :
  NoDup (map Plain.Agent.id (Plain.updatedAgents s)
         ++ map Plain.Agent.id (drop idx (Plain.agents s))) ->
  Plain.agents s !! idx = Some agent ->
  plainCatch E P agent s = Some i ->
  (idx < i)%nat ->
  Plain.agents s !! i = Some prey ->
  ~ In (Plain.Agent.id prey)
      (map Plain.Agent.id
         (Plain.updatedAgents (snd (Plain.forOf E P (S fuel) idx s)))).
Proof. apply plain_prey_dropped. Qed.

Lemma plain_prey_ahead_is_dropped_ambush :
  plainCatch steady Plain.defaultParams (plainCreature carnivore 1 103 100)
    (Plain.startOfPass steady Plain.defaultParams plainAmbush)
  = Some 1%nat
  /\ ~ In 0%nat
       (map Plain.Agent.id
          (Plain.updatedAgents
             (snd (Plain.forOf steady Plain.defaultParams 2 0
                     (Plain.startOfPass steady Plain.defaultParams plainAmbush))))).
Proof.
  split; [exact plainAmbush_catch | ].
  refine (plain_prey_ahead_is_dropped steady Plain.defaultParams
            (Plain.startOfPass steady Plain.defaultParams plainAmbush) 0 1 1
            (plainCreature carnivore 1 103 100) (plainCreature herbivore 0 100 100)
            _ _ plainAmbush_catch (le_n 1) _);
    rewrite plainAmbush_start; [ | reflexivity | reflexivity ].
  cbn. apply NoDup_cons. split; [ | apply NoDup_singleton ].
  intros H. apply list_elem_of_singleton in H. discriminate.
Defined.

(** * Sizes, agent by agent *)

(** The record at the survival test carries the size computed from the
    energy it held before the metabolism. *)
Lemma settles_recomputed P ch agent a : settles P ch agent a -> recomputed P ch a.
Proof.
  intros (sc & x & y & dx & dy & e & rc & la & st & ->).
  unfold recomputed, drain, settle, burn, sizeFromEnergy.
  cbn [respread Agent.size Agent.energy Agent.type Agent.metabolism
       Agent.lastAteTicks default from_option Datatypes.id].
  do 3 f_equal. lra.
Qed.

Lemma advance_recomputed E P agents ch cc agent s :
  recomputed P ch (fst (advance E P agents ch cc agent s)).
Proof. eapply settles_recomputed, advance_settles. Qed.

(** One round appends the children of the loop variable, then nothing or
    the record that stood at its survival test. *)
Lemma processAgent_leaves E P agents ch cc agent s :
  exists kids surv,
    updatedAgents (snd (processAgent E P agents ch cc agent s))
    = updatedAgents s ++ kids ++ surv
    /\ Forall (bornTo agent) kids
    /\ (surv = [] \/ surv = [fst (advance E P agents ch cc agent s)]).
Proof.
  unfold processAgent, bind.
  pose proof (advance_bears E P agents ch cc agent s) as Hb.
  destruct (advance E P agents ch cc agent s) as [a s1]. cbn [fst snd] in *.
  destruct Hb as (kids & Hu & _ & _ & _ & Hf).
  exists kids.
  destruct (survive_pushes a s1) as [Hp | Hp].
  - exists []. rewrite Hp, Hu, app_nil_r. auto.
  - exists [a]. rewrite Hp, Hu, <- app_assoc. auto.
Qed.

Lemma stateAt_0_agents E P w : updatedAgents (stateAt E P w 0) = [].
Proof.
  unfold stateAt, bind. cbn [take].
  assert (H : calm (startOfPass w)
                (snd (spawnFood E P (countType herbivore (agentsRef w)) (startOfPass w)))).
  { apply (steps_spawnFood calm calm_refl calm_trans); by intros ? t. }
  destruct (spawnFood E P _ (startOfPass w)) as [u s0]. cbn in *. by destruct H.
Qed.

Lemma stateAt_sizeSet E P w n :
  (n <= length (agentsRef w))%nat ->
  Forall (sizeSet E P w) (updatedAgents (stateAt E P w n)).
Proof.
  induction n as [|n IH]; intros Hn.
  - rewrite stateAt_0_agents. constructor.
  - destruct (lookup_lt_is_Some_2 (agentsRef w) n ltac:(lia)) as [agent Ha].
    rewrite (stateAt_S E P w n agent Ha).
    destruct (processAgent_leaves E P (agentsRef w) (countType herbivore (agentsRef w))
                (countType carnivore (agentsRef w)) agent (stateAt E P w n))
      as (kids & surv & -> & Hk & Hs).
    apply Forall_app. split; [apply IH; lia | ].
    apply Forall_app. split.
    + eapply List.Forall_impl; [ | exact Hk ].
      intros c Hc. left. split; [apply Hc | ].
      exists agent. split; [ | exact Hc ].
      apply list_elem_of_In. by eapply list_elem_of_lookup_2.
    + destruct Hs as [-> | ->]; constructor; [ | constructor ].
      right. split; [apply advance_recomputed | ].
      exists n, agent. by split.
Qed.

Lemma update_sizeSet E P w : Forall (sizeSet E P w) (agentsRef (update E P w)).
Proof.
  unfold update. cbn [agentsRef]. rewrite <- stateAt_end.
  by apply stateAt_sizeSet.
Qed.

Lemma recomputed_sized P ch a : recomputed P ch a -> sized a.
Proof.
  unfold recomputed, sized. intros ->.
  unfold Rmax, Rmin. repeat destruct (Rle_dec _ _); lra.
Qed.

(** A meal and the size that follows it: the herbivore of [oneGrazer]
    holds 85 when its size is computed and 84.951 after the metabolism. *)
Lemma oneGrazer_size :
  map (fun a => (Agent.size a, Agent.energy a))
    (agentsRef (update steady defaultParams oneGrazer))
  = [(5.55, 84.951)].
Proof. cbv delta [oneGrazer arena creature steady]. run. literals. Qed.

(** C10: every agent of a world made by [initializeWorld] has size 5;
    every agent of the output of a tick is either a child born in the
    tick, of size 5, or the record of an agent of the input, whose size is
    max(3, min(10, 3 + energy * 0.03)) for the energy it held when the
    size was computed, that is before the metabolism of the tick was
    subtracted; every such size lies within [3, 10]. *)
Theorem size_within_3_10 (E : Env) (P : Params) (w : World) (nextId0 : nat) :
  Forall (fun a => Agent.size a = 5) (agentsRef (initializeWorld E nextId0))
  /\ Forall sized (agentsRef (initializeWorld E nextId0))
  /\ Forall (sizeSet E P w) (agentsRef (update E P w))
  /\ (forall i agent,
        agentsRef w !! i = Some agent ->
        recomputed P (countType herbivore (agentsRef w)) (settledAt E P w i agent))
  /\ Forall sized (agentsRef (update E P w)).
Proof.
  split; [apply initializeWorld_size | ].
  split.
  { eapply List.Forall_impl; [ | apply initializeWorld_size ].
    intros a Ha. unfold sized. rewrite Ha. lra. }
  split; [apply update_sizeSet | ].
  split; [intros i agent _; apply advance_recomputed | ].
  eapply List.Forall_impl; [ | apply update_sizeSet ].
  intros a [[Ha _] | [Ha _]].
  - unfold sized. rewrite Ha. lra.
  - by eapply recomputed_sized.
Qed.

(** The rule at the herbivore of [oneGrazer]. *)
Lemma size_within_3_10_oneGrazer :
  agentsRef oneGrazer !! 0%nat = Some (creature herbivore 0 100 100 0 0 50)
  /\ recomputed defaultParams (countType herbivore (agentsRef oneGrazer))
       (settledAt steady defaultParams oneGrazer 0
          (creature herbivore 0 100 100 0 0 50)).
Proof.
  split; [reflexivity | ].
  exact (proj1 (proj2 (proj2 (proj2
           (size_within_3_10 steady defaultParams oneGrazer 100)))) 0%nat
           (creature herbivore 0 100 100 0 0 50) eq_refl).
Defined.

(** * The agent a catch skips *)

Lemma drop_delete_lt {A} (l : list A) (i n : nat) :
  (i < n)%nat -> drop n (delete i l) = drop (S n) l.
Proof.
  revert i n. induction l as [|a l IH]; intros i n Hi.
  - replace (delete i []) with ([] : list A) by (by destruct i).
    by rewrite !drop_nil.
  - destruct n as [|n]; [lia | ]. destruct i as [|i].
    + reflexivity.
    + change (delete (S i) (a :: l)) with (a :: delete i l).
      cbn [drop]. apply IH. lia.
Qed.

Lemma plain_skipped_dropped E P s idx i fuel agent bystander :
  NoDup (map Plain.Agent.id (Plain.updatedAgents s)
         ++ map Plain.Agent.id (drop idx (Plain.agents s))) ->
  Plain.agents s !! idx = Some agent ->
  plainCatch E P agent s = Some i ->
  (i <= idx)%nat ->
  Plain.agents s !! S idx = Some bystander ->
  ~ In (Plain.Agent.id bystander)
      (map Plain.Agent.id
         (Plain.updatedAgents (snd (Plain.forOf E P (S fuel) idx s)))).
Proof.
  intros Hnd Ha Hc Hi Hb Hin.
  cbn [Plain.forOf] in Hin. rewrite Ha in Hin.
  apply list_elem_of_In in Hin.
  pose proof (plain_forOf_sublist E P fuel (S idx) (Plain.step E P agent s)) as Hs.
  apply (fun H => elem_of_sublist _ _ _ H Hs) in Hin. clear Hs.
  assert (Harr : Plain.agents (Plain.step E P agent s) = delete i (Plain.agents s)).
  { unfold plainCatch, Plain.step in *.
    destruct (Plain.approach E P agent s) as [[[[[x y] dx] dy] energy] k].
    destruct (Plain.Agent.type agent); try discriminate.
    unfold Plain.prey_on. by rewrite Hc. }
  rewrite Harr, drop_delete_lt in Hin by lia.
  rewrite (drop_S _ _ _ Ha), (drop_S _ _ _ Hb) in Hnd. cbn [map] in Hnd.
  assert (Hpush : map Plain.Agent.id (Plain.updatedAgents (Plain.step E P agent s))
                  `sublist_of` map Plain.Agent.id (Plain.updatedAgents s)
                               ++ [Plain.Agent.id agent]).
  { destruct (plain_step_pushes E P agent s) as [-> | (a & -> & (Hid & _) & _)].
    - by apply sublist_inserts_r.
    - rewrite map_app. cbn [map]. by rewrite Hid. }
  apply NoDup_app in Hnd as (_ & Hdis & Hnd2).
  apply NoDup_cons in Hnd2 as [Hagent Hnd3].
  apply NoDup_cons in Hnd3 as [Hrest _].
  apply elem_of_app in Hin as [Hin | Hin]; [ | by apply Hrest ].
  apply (fun H => elem_of_sublist _ _ _ H Hpush) in Hin.
  apply elem_of_app in Hin as [Hin | Hin].
  - apply (Hdis _ Hin). right. left.
  - apply list_elem_of_singleton in Hin. apply Hagent. rewrite <- Hin. left.
Qed.

Lemma bystander_state :
  map Plain.Agent.id (Plain.updatedAgents bystanderAtCarnivore) = [0%nat]
  /\ Plain.agents bystanderAtCarnivore = Plain.agentsRef bystander.
Proof.
  split; cbv delta [bystanderAtCarnivore bystander plainCreature steady];
    plain_run; reflexivity.
Qed.

(** X30: in the plain component the agent a catch skips is gone: when the
    carnivore at index [idx] splices out a herbivore at an index
    [i <= idx], and the identities pushed so far and still to come are
    distinct, the agent that stood at [idx + 1] is never the loop variable
    again and no agent with its identity is in the output. *)
Theorem plain_skipped_agent_is_dropped (E : Env) (P : Plain.Params)
    (s : Plain.Loop) (idx i fuel : nat) (agent bystander : Plain.Agent.t) :
  NoDup (map Plain.Agent.id (Plain.updatedAgents s)
         ++ map Plain.Agent.id (drop idx (Plain.agents s))) ->
  Plain.agents s !! idx = Some agent ->
  plainCatch E P agent s = Some i ->
  (i <= idx)%nat ->
  Plain.agents s !! S idx = Some bystander ->
  ~ In (Plain.Agent.id bystander)
      (map Plain.Agent.id
         (Plain.updatedAgents (snd (Plain.forOf E P (S fuel) idx s)))).
Proof. apply plain_skipped_dropped. Qed.

Lemma plain_skipped_agent_is_dropped_bystander :
  plainCatch steady Plain.defaultParams (plainCreature carnivore 1 103 100)
    bystanderAtCarnivore
  = Some 0%nat
  /\ ~ In 2%nat
       (map Plain.Agent.id
          (Plain.updatedAgents
             (snd (Plain.forOf steady Plain.defaultParams 2 1 bystanderAtCarnivore)))).
Proof.
  split; [exact bystander_catch | ].
  destruct bystander_state as [Hout Harr].
  refine (plain_skipped_agent_is_dropped steady Plain.defaultParams
            bystanderAtCarnivore 1 0 1
            (plainCreature carnivore 1 103 100) (plainCreature neutral 2 300 300)
            _ bystander_loop bystander_catch (le_S 0 0 (le_n 0)) _).
  - rewrite Hout, Harr. cbn.
    apply NoDup_cons. split.
    { intros H. apply list_elem_of_In in H. cbn in H. intuition discriminate. }
    apply NoDup_cons. split; [ | apply NoDup_singleton ].
    intros H. apply list_elem_of_singleton in H. discriminate.
  - rewrite Harr. reflexivity.
Defined.
